(** * Path search over a transport network

    A shallow embedding of the data loader, the search core and the graph
    generator of the travel planner: [build_adjacency], [get_edge_weight],
    [neighbor_generator], [normalize_edges] and [quick_tests] of
    [data_loader.py], [dijkstra] and [astar] of [algorithms.py], and
    [make_edge], [build_full_graph] and [build_k_nearest_graph] of
    [gen_edges.py].

    Conventions of the embedding.
    - Node identifiers are Python strings, modelled as [string].
    - Python numbers are modelled by [num]: an exact rational or the
      positive infinity [float("inf")].  The fields of an edge hold finite
      numbers.  Sums, differences and quotients are exact in the
      embedding, while binary64 rounds and overflows: a theorem whose
      statement would not survive rounding or overflow carries the
      hypothesis under which binary64 computes as the embedding does
      ([exact_sums], [exact_cost], [in_range]).
    - An edge is a Python dict read with [dict.get(key, default)]: every
      metric field is optional, and a missing one yields the default.
    - The adjacency view is a dict from node to a list of tuples.  The tuple
      may have two components, as [build_adjacency] creates them, or three,
      as the loops of [dijkstra] and [astar] unpack them; unpacking a tuple
      of the wrong length raises [ValueError].
    - [heapq] is modelled by its contract: [heappush] adds an item and
      [heappop] removes the smallest one.  The frontier is kept as a list in
      ascending order of Python's tuple comparison, which is a total order
      on the tuples pushed here (number, string, list of strings), so the
      item popped is determined up to equality of its components
      ([heappush_ordered], [heappop_least]).
    - The [while] loop is run with a fuel; [search_fuel] is shown to be
      enough for every input.
    - [normalize_edges] adds [norm_<metric>] keys to the edge dicts it is
      given; an edge with the added keys is an [nedge].  A value of an edge
      dict is a number or a string; [True] and [False] are the numbers 1 and
      0, as in Python.
    - [quick_tests] reads the keys of the table of nodes only, so the table
      is the set of its keys; the node that [next(iter(node_names))] yields
      is an argument, since the order of a Python set of strings is not
      fixed.  The messages it collects are modelled by their kind and the
      edge or node they print.
    - The table of nodes is a dict from city to a row with the keys [lat]
      and [lon], each a number or [None], as [load_nodes] creates it.
      [heuristic] tests the latitudes only, so [haversine] raises
      [TypeError] for a row with a latitude and no longitude.  What
      [haversine] computes from four numbers with the [math] module, or
      the [ValueError] that module raises, is an argument ([great_circle])
      of the functions that call [heuristic].
    - The functions of [gen_edges.py] read the keys of the table of nodes,
      in the order of the dict.  Python's [round] is an argument of these
      functions. *)

From Stdlib Require Import QArith Lqa OrderedTypeEx.
From stdpp Require Import gmap strings list fin_maps.

Open Scope string_scope.
Open Scope list_scope.

(** ** Numbers *)

Inductive num : Type :=
| Fin (q : Q)
| Inf.

Definition num_add (a b : num) : num :=
  match a, b with
  | Fin x, Fin y => Fin (x + y)
  | _, _ => Inf
  end.

Definition num_compare (a b : num) : comparison :=
  match a, b with
  | Fin x, Fin y => (x ?= y)%Q
  | Fin _, Inf => Lt
  | Inf, Fin _ => Gt
  | Inf, Inf => Eq
  end.

Definition num_le (a b : num) : Prop :=
  match a, b with
  | Fin x, Fin y => (x <= y)%Q
  | _, Inf => True
  | Inf, Fin _ => False
  end.

Definition num_lt (a b : num) : Prop :=
  match a, b with
  | Fin x, Fin y => (x < y)%Q
  | Fin _, Inf => True
  | Inf, _ => False
  end.

(** Numeric equality, Python's [==] on numbers. *)
Definition num_eqv (a b : num) : Prop :=
  match a, b with
  | Fin x, Fin y => (x == y)%Q
  | Inf, Inf => True
  | _, _ => False
  end.

(** ** Data model *)

Definition node : Type := string.

Record edge : Type := mk_edge {
  source : node;
  target : node;
  mode : string;
  distance_km : option Q;
  time_min : option Q;
  cost_usd : option Q;
  emission_kgco2 : option Q;
  safety_score : option Q;
  accessible : bool
}.

(** An entry of a neighbour list: the pair [(neighbor, edge)] or the triple
    [(neighbor, weight, edge)]. *)
Inductive item : Type :=
| Pair (neigh : node) (e : edge)
| Triple (neigh : node) (w : num) (e : edge).

Definition item_neigh (it : item) : node :=
  match it with Pair n _ => n | Triple n _ _ => n end.

Definition item_edge (it : item) : edge :=
  match it with Pair _ e => e | Triple _ _ e => e end.

(** The exceptions the functions raise: [ValueError] for unpacking a tuple
    of the wrong length and for a [math] domain error, [TypeError] for
    arithmetic on [None] or on strings, [KeyError] for a missing key. *)
Inductive exception : Type :=
| ValueError
| TypeError
| KeyError (key : string).

(** A result, or the exception raised instead. *)
Inductive result (A : Type) : Type :=
| Ok (a : A)
| Err (exn : exception).
Arguments Ok {A} a.
Arguments Err {A} exn.

(** What a call of a search function does: it returns [(cost, path)] or
    raises. *)
Inductive outcome : Type :=
| Returned (cost : num) (path : list node)
| Raised (exn : exception).

(** [adj.get(node, [])] *)
Definition adj_get (adj : gmap node (list item)) (n : node) : list item :=
  default [] (adj !! n).

(** ** data_loader.py *)

(** [edge.get(key, float("inf"))] *)
Definition get_or_inf (field : option Q) : num :=
  match field with Some x => Fin x | None => Inf end.

Definition get_edge_weight (edge : edge) (factor : string) : num :=
  if String.eqb factor "distance" then get_or_inf (distance_km edge)
  else if String.eqb factor "time" then get_or_inf (time_min edge)
  else if String.eqb factor "cost" then get_or_inf (cost_usd edge)
  else if String.eqb factor "eco" then get_or_inf (emission_kgco2 edge)
  else if String.eqb factor "safety" then
    Fin (1 - default (1 # 2) (safety_score edge))
  else get_or_inf (distance_km edge).

(** [adj[k].append(x)] on a [defaultdict(list)] *)
Definition adj_append (adj : gmap node (list item)) (k : node) (x : item)
  : gmap node (list item) :=
  <[k := adj_get adj k ++ [x]]> adj.

Definition mirror (e : edge) : edge :=
  mk_edge (target e) (source e) (mode e) (distance_km e) (time_min e)
    (cost_usd e) (emission_kgco2 e) (safety_score e) (accessible e).

Definition build_adjacency (edges : list edge) (directed : bool)
  : gmap node (list item) :=
  foldl (fun adj e =>
           let s := source e in
           let t := target e in
           let adj := adj_append adj s (Pair t e) in
           if negb directed then adj_append adj t (Pair s (mirror e))
           else adj)
        ∅ edges.

(** [neighbor_generator] unpacks pairs and yields triples. *)
Fixpoint neighbor_items (factor : string) (items : list item)
  : result (list item) :=
  match items with
  | [] => Ok []
  | Pair neigh edge :: rest =>
      match neighbor_items factor rest with
      | Ok l => Ok (Triple neigh (get_edge_weight edge factor) edge :: l)
      | Err exn => Err exn
      end
  | Triple _ _ _ :: _ => Err ValueError
  end.

Definition neighbor_generator (adj : gmap node (list item)) (n : node)
    (factor : string) : result (list item) :=
  neighbor_items factor (adj_get adj n).

(** ** heapq *)

Definition lex (c1 c2 : comparison) : comparison :=
  match c1 with Eq => c2 | _ => c1 end.

(** Python's comparison of two lists of strings. *)
Fixpoint path_compare (p q : list node) : comparison :=
  match p, q with
  | [], [] => Eq
  | [], _ :: _ => Lt
  | _ :: _, [] => Gt
  | a :: p', b :: q' => lex (String.compare a b) (path_compare p' q')
  end.

Definition is_lt (c : comparison) : bool :=
  match c with Lt => true | _ => false end.

Section Heap.
Context {A : Type} (lt : A -> A -> bool).

Fixpoint heappush (pq : list A) (x : A) : list A :=
  match pq with
  | [] => [x]
  | y :: rest => if lt x y then x :: y :: rest else y :: heappush rest x
  end.

Definition heappop (pq : list A) : option (A * list A) :=
  match pq with
  | [] => None
  | x :: rest => Some (x, rest)
  end.
End Heap.

(** ** algorithms.py *)

Inductive step_result (S : Type) : Type :=
| Continue (st : S)
| Stop (r : outcome).
Arguments Continue {S} st.
Arguments Stop {S} r.

(** *** dijkstra *)

(** A frontier entry [(cost, node, path)]. *)
Definition dentry : Type := num * node * list node.

Definition dentry_compare (x y : dentry) : comparison :=
  let '(c1, n1, p1) := x in
  let '(c2, n2, p2) := y in
  lex (num_compare c1 c2) (lex (String.compare n1 n2) (path_compare p1 p2)).

Definition dentry_lt (x y : dentry) : bool := is_lt (dentry_compare x y).

(** The [for] loop over the neighbours of a finalized node. *)
Fixpoint dijkstra_expand (factor : string) (cost : num) (path : list node)
    (items : list item) (pq : list dentry) : result (list dentry) :=
  match items with
  | [] => Ok pq
  | Triple neigh w edge :: rest =>
      dijkstra_expand factor cost path rest
        (heappush dentry_lt pq
           (num_add cost (get_edge_weight edge factor), neigh, path))
  | Pair _ _ :: _ => Err ValueError
  end.

Definition dstate : Type := list dentry * gset node.

(** One iteration of the [while] loop. *)
Definition dijkstra_step (adj : gmap node (list item)) (end_ : node)
    (factor : string) (st : dstate) : step_result dstate :=
  let '(pq, visited) := st in
  match heappop pq with
  | None => Stop (Returned Inf [])
  | Some ((cost, node, path), pq) =>
      if decide (node ∈ visited) then Continue (pq, visited)
      else
        let path := path ++ [node] in
        if decide (node = end_) then Stop (Returned cost path)
        else
          let visited := {[node]} ∪ visited in
          match dijkstra_expand factor cost path (adj_get adj node) pq with
          | Ok pq => Continue (pq, visited)
          | Err exn => Stop (Raised exn)
          end
  end.

Fixpoint dijkstra_loop (fuel : nat) (adj : gmap node (list item))
    (end_ : node) (factor : string) (st : dstate) : option outcome :=
  match fuel with
  | O => None
  | S fuel =>
      match dijkstra_step adj end_ factor st with
      | Stop r => Some r
      | Continue st => dijkstra_loop fuel adj end_ factor st
      end
  end.

(** The number of tuples in the adjacency view. *)
Definition total_items (adj : gmap node (list item)) : nat :=
  map_fold (fun _ items acc => length items + acc)%nat O adj.

(** Iterations granted to the loop: one per frontier entry that can ever be
    pushed, and one to find the frontier empty. *)
Definition search_fuel (adj : gmap node (list item)) : nat :=
  S (S (total_items adj)).

Definition dijkstra (adj : gmap node (list item)) (start end_ : node)
    (factor : string) : option outcome :=
  dijkstra_loop (search_fuel adj) adj end_ factor ([(Fin 0, start, [])], ∅).

(** *** astar *)

(** A frontier entry [(est, cost, node, path)]. *)
Definition aentry : Type := num * num * node * list node.

Definition aentry_compare (x y : aentry) : comparison :=
  let '(f1, g1, n1, p1) := x in
  let '(f2, g2, n2, p2) := y in
  lex (num_compare f1 f2)
    (lex (num_compare g1 g2)
       (lex (String.compare n1 n2) (path_compare p1 p2))).

Definition aentry_lt (x y : aentry) : bool := is_lt (aentry_compare x y).

(** [heuristic_fn(neigh, end)] may raise; the [for] loop then ends with the
    exception. *)
Fixpoint astar_expand (factor : string)
    (heuristic_fn : node -> node -> result Q)
    (end_ : node) (cost : num) (path : list node)
    (items : list item) (pq : list aentry) : result (list aentry) :=
  match items with
  | [] => Ok pq
  | Triple neigh w edge :: rest =>
      let g := num_add cost (get_edge_weight edge factor) in
      match heuristic_fn neigh end_ with
      | Ok h =>
          let f := num_add g (Fin h) in
          astar_expand factor heuristic_fn end_ cost path rest
            (heappush aentry_lt pq (f, g, neigh, path))
      | Err exn => Err exn
      end
  | Pair _ _ :: _ => Err ValueError
  end.

Definition astate : Type := list aentry * gset node.

Definition astar_step (adj : gmap node (list item)) (end_ : node)
    (factor : string) (heuristic_fn : node -> node -> result Q) (st : astate)
  : step_result astate :=
  let '(pq, visited) := st in
  match heappop pq with
  | None => Stop (Returned Inf [])
  | Some ((est, cost, node, path), pq) =>
      if decide (node ∈ visited) then Continue (pq, visited)
      else
        let path := path ++ [node] in
        if decide (node = end_) then Stop (Returned cost path)
        else
          let visited := {[node]} ∪ visited in
          match astar_expand factor heuristic_fn end_ cost path
                  (adj_get adj node) pq with
          | Ok pq => Continue (pq, visited)
          | Err exn => Stop (Raised exn)
          end
  end.

Fixpoint astar_loop (fuel : nat) (adj : gmap node (list item))
    (end_ : node) (factor : string) (heuristic_fn : node -> node -> result Q)
    (st : astate) : option outcome :=
  match fuel with
  | O => None
  | S fuel =>
      match astar_step adj end_ factor heuristic_fn st with
      | Stop r => Some r
      | Continue st => astar_loop fuel adj end_ factor heuristic_fn st
      end
  end.

(** An entry of the table of nodes, as [load_nodes] creates it: the keys
    [lat] and [lon] hold a number or [None]. *)
Record place : Type := mk_place {
  lat : option Q;
  lon : option Q
}.

(** The table of nodes, a dict: its keys, in the order of the dict, and its
    entries. *)
Record table : Type := mk_table {
  keys : list node;
  places : gmap node place
}.

(** What lines 26 to 31 of [data_loader.py] compute from four numbers in
    floating point: the great-circle distance, or the [ValueError] of the
    [math] module. *)
Definition formula : Type := Q -> Q -> Q -> Q -> result Q.

(** [haversine(lat1, lon1, lat2, lon2)] for two latitudes that are numbers:
    [lon2 - lon1] raises [TypeError] when a longitude is [None]. *)
Definition haversine (great_circle : formula) (lat1 : Q) (lon1 : option Q)
    (lat2 : Q) (lon2 : option Q) : result Q :=
  match lon1, lon2 with
  | Some lon1, Some lon2 => great_circle lat1 lon1 lat2 lon2
  | _, _ => Err TypeError
  end.

(** [data_loader.heuristic(city_a, city_b, nodes)]: only the latitudes are
    tested for [None]. *)
Definition heuristic (great_circle : formula) (city_a city_b : node)
    (nodes : table) : result Q :=
  match places nodes !! city_a, places nodes !! city_b with
  | Some a, Some b =>
      match lat a, lat b with
      | Some lat1, Some lat2 => haversine great_circle lat1 (lon a) lat2 (lon b)
      | _, _ => Ok 0%Q
      end
  | _, _ => Ok 0%Q
  end.

(** A heuristic function of the caller: it returns a number. *)
Definition given (heuristic_fn : node -> node -> Q) (a b : node) : result Q :=
  Ok (heuristic_fn a b).
Arguments given _ _ _ /.

(** The first frontier entry holds [0 + heuristic_fn(start, end)], which is
    evaluated before the loop is entered. *)
Definition astar (great_circle : formula) (adj : gmap node (list item))
    (start end_ : node) (nodes : table) (factor : string)
    (heuristic_fn : option (node -> node -> Q)) : option outcome :=
  let heuristic_fn :=
    match heuristic_fn with
    | None => fun a b => heuristic great_circle a b nodes
    | Some f => given f
    end in
  match heuristic_fn start end_ with
  | Ok h =>
      astar_loop (search_fuel adj) adj end_ factor heuristic_fn
        ([(num_add (Fin 0) (Fin h), Fin 0, start, [])], ∅)
  | Err exn => Some (Raised exn)
  end.

(** ** data_loader.py: normalize_edges and quick_tests *)

(** A value of an edge dict: a number or a string.  [True] and [False] are
    the numbers 1 and 0. *)
Inductive value : Type :=
| Number (q : Q)
| Text (s : string).

(** [edge.get(key)] for any key. *)
Definition edge_get (e : edge) (key : string) : option value :=
  if String.eqb key "source" then Some (Text (source e))
  else if String.eqb key "target" then Some (Text (target e))
  else if String.eqb key "mode" then Some (Text (mode e))
  else if String.eqb key "distance_km" then Number <$> distance_km e
  else if String.eqb key "time_min" then Number <$> time_min e
  else if String.eqb key "cost_usd" then Number <$> cost_usd e
  else if String.eqb key "emission_kgco2" then Number <$> emission_kgco2 e
  else if String.eqb key "safety_score" then Number <$> safety_score e
  else if String.eqb key "accessible" then
    Some (Number (if accessible e then 1 else 0))
  else None.

(** Python's [==] and [<] on two values of the same kind. *)
Definition value_eqb (a b : value) : bool :=
  match a, b with
  | Number x, Number y => Qeq_bool x y
  | Text s, Text t => String.eqb s t
  | _, _ => false
  end.

Definition value_ltb (a b : value) : bool :=
  match a, b with
  | Number x, Number y => is_lt (x ?= y)%Q
  | Text s, Text t => is_lt (String.compare s t)
  | _, _ => false
  end.

(** [min(values)] and [max(values)] of a non-empty list: the first least
    and the first greatest item. *)
Definition py_min (v : value) (rest : list value) : value :=
  foldl (fun best x => if value_ltb x best then x else best) v rest.

Definition py_max (v : value) (rest : list value) : value :=
  foldl (fun best x => if value_ltb best x then x else best) v rest.

(** An edge dict with the [norm_<metric>] keys [normalize_edges] adds. *)
Record nedge : Type := mk_nedge {
  base : edge;
  norms : gmap string Q
}.

(** The key [f"norm_{m}"]. *)
Definition norm_key (m : string) : string := String.append "norm_" m.

(** [e.get(key)] for an edge that may have got [norm_] keys already. *)
Definition nedge_get (e : nedge) (key : string) : option value :=
  match norms e !! key with
  | Some v => Some (Number v)
  | None => edge_get (base e) key
  end.

(** [mins[m], maxs[m]] *)
Definition bounds (edges : list edge) (m : string) : value * value :=
  match omap (fun e => edge_get e m) edges with
  | [] => (Number 0, Number 1)
  | v :: rest => (py_min v rest, py_max v rest)
  end.

(** The value assigned to [e[f"norm_{m}"]]; subtracting a string from a
    string raises [TypeError]. *)
Definition normalized_value (e : nedge) (m : string) (mn mx : value)
  : result Q :=
  if value_eqb mx mn then Ok 0%Q
  else
    match default mn (nedge_get e m), mn, mx with
    | Number x, Number a, Number b => Ok ((x - a) / (b - a))%Q
    | _, _, _ => Err TypeError
    end.

(** The inner loop, over the metrics, for one edge. *)
Fixpoint normalize_edge (edges : list edge) (metrics : list string)
    (e : nedge) : result nedge :=
  match metrics with
  | [] => Ok e
  | m :: rest =>
      let '(mn, mx) := bounds edges m in
      match normalized_value e m mn mx with
      | Ok v =>
          normalize_edge edges rest
            (mk_nedge (base e) (<[norm_key m := v]> (norms e)))
      | Err err => Err err
      end
  end.

(** The outer loop, over the edges. *)
Fixpoint normalize_each (edges : list edge) (metrics : list string)
    (todo : list edge) : result (list nedge) :=
  match todo with
  | [] => Ok []
  | e :: rest =>
      match normalize_edge edges metrics (mk_nedge e ∅) with
      | Ok e' =>
          match normalize_each edges metrics rest with
          | Ok l => Ok (e' :: l)
          | Err err => Err err
          end
      | Err err => Err err
      end
  end.

(** The metrics taken when the argument is [None]. *)
Definition default_metrics : list string :=
  ["distance_km"; "time_min"; "cost_usd"; "emission_kgco2"].

Definition normalize_edges (edges : list edge) (metrics : option (list string))
  : result (list nedge) :=
  let metrics := default default_metrics metrics in
  normalize_each edges metrics edges.

(** The messages [quick_tests] collects, by kind; a message that prints an
    edge or a node name carries it. *)
Inductive issue : Type :=
| MissingSource (name : node)
| MissingTarget (name : node)
| NegativeDistance (e : edge)
| NegativeTime (e : edge)
| NegativeCost (e : edge)
| SparselyConnected.

(** The body of the loop over the edges; [e[key]] raises [KeyError] when
    the key is missing. *)
Definition check_edge (node_names : gset node) (errors : list issue)
    (e : edge) : result (list issue) :=
  let errors :=
    if decide (source e ∈ node_names) then errors
    else errors ++ [MissingSource (source e)] in
  let errors :=
    if decide (target e ∈ node_names) then errors
    else errors ++ [MissingTarget (target e)] in
  match distance_km e with
  | None => Err (KeyError "distance_km")
  | Some d =>
      let errors :=
        if is_lt (d ?= 0)%Q then errors ++ [NegativeDistance e] else errors in
      match time_min e with
      | None => Err (KeyError "time_min")
      | Some t =>
          let errors :=
            if is_lt (t ?= 0)%Q then errors ++ [NegativeTime e] else errors in
          match cost_usd e with
          | None => Err (KeyError "cost_usd")
          | Some c =>
              Ok (if is_lt (c ?= 0)%Q then errors ++ [NegativeCost e]
                    else errors)
          end
      end
  end.

(** The loop over the edges. *)
Fixpoint check_edges (node_names : gset node) (errors : list issue)
    (edges : list edge) : result (list issue) :=
  match edges with
  | [] => Ok errors
  | e :: rest =>
      match check_edge node_names errors e with
      | Ok errors => check_edges node_names errors rest
      | Err err => Err err
      end
  end.

(** [for v,_ in adj.get(u, [])]: the loop unpacks pairs. *)
Fixpoint scan (items : list item) (visited : gset node) (q : list node)
  : result (gset node * list node) :=
  match items with
  | [] => Ok (visited, q)
  | Pair v _ :: rest =>
      if decide (v ∈ visited) then scan rest visited q
      else scan rest ({[v]} ∪ visited) (q ++ [v])
  | Triple _ _ _ :: _ => Err ValueError
  end.

(** [while q:] *)
Fixpoint bfs_loop (fuel : nat) (adj : gmap node (list item))
    (visited : gset node) (q : list node) : option (result (gset node)) :=
  match fuel with
  | O => None
  | S fuel =>
      match q with
      | [] => Some (Ok visited)
      | u :: q =>
          match scan (adj_get adj u) visited q with
          | Ok (visited, q) => bfs_loop fuel adj visited q
          | Err err => Some (Err err)
          end
      end
  end.

(** [nodes] is the set of keys of the table of nodes; [start] is the
    element [next(iter(node_names))] yields, which can be any element of
    the set. *)
Definition quick_tests (nodes : gset node) (start : node) (edges : list edge)
    (adj : gmap node (list item)) : option (result (list issue)) :=
  let node_names := nodes in
  match check_edges node_names [] edges with
  | Err err => Some (Err err)
  | Ok errors =>
      if decide (nodes = ∅) then Some (Ok errors)
      else
        match bfs_loop (search_fuel adj) adj {[start]} [start] with
        | None => None
        | Some (Err err) => Some (Err err)
        | Some (Ok visited) =>
            if (size visited <? Nat.max 1 (size node_names / 2))%nat
            then Some (Ok (errors ++ [SparselyConnected]))
            else Some (Ok errors)
        end
  end.

(** ** gen_edges.py *)

(** The entry of a transport mode in [TRANSPORT_MODES]. *)
Record transport : Type := mk_transport {
  speed_kmh : Q;
  cost_per_km : Q;
  emission_per_km : Q;
  safety : Q
}.

(** The dict [TRANSPORT_MODES]; a mode that is not a key has no entry. *)
Definition TRANSPORT_MODES (mode : string) : option transport :=
  if String.eqb mode "car" then
    Some (mk_transport 80 (10 # 100) (12 # 100) (7 # 10))
  else if String.eqb mode "bus" then
    Some (mk_transport 60 (5 # 100) (8 # 100) (75 # 100))
  else if String.eqb mode "train" then
    Some (mk_transport 120 (8 # 100) (4 # 100) (85 # 100))
  else if String.eqb mode "flight" then
    Some (mk_transport 700 (20 # 100) (25 # 100) (9 # 10))
  else if String.eqb mode "walk" then
    Some (mk_transport 5 0 0 (6 # 10))
  else None.

(** A [for] loop whose body may raise. *)
Fixpoint for_each {A S : Type} (body : S -> A -> result S) (xs : list A)
    (s : S) : result S :=
  match xs with
  | [] => Ok s
  | x :: rest =>
      match body s x with
      | Ok s => for_each body rest s
      | Err err => Err err
      end
  end.

(** [list.sort(key=...)] is a stable sort: an item goes behind the items
    whose key is not greater. *)
Fixpoint insert_by_key (x : node * Q) (l : list (node * Q))
  : list (node * Q) :=
  match l with
  | [] => [x]
  | y :: rest =>
      if is_lt (x.2 ?= y.2)%Q then x :: y :: rest
      else y :: insert_by_key x rest
  end.

Definition sort_by_key (l : list (node * Q)) : list (node * Q) :=
  foldl (fun sorted x => insert_by_key x sorted) [] l.

(** The slice [l[:k]]; a negative [k] counts from the end. *)
Definition slice_to {A : Type} (k : Z) (l : list A) : list A :=
  if (0 <=? k)%Z then take (Z.to_nat k) l
  else take (length l - Z.to_nat (- k)) l.

(** [round] stands for Python's [round(x, ndigits)]. *)
Definition make_edge (round : Q -> Z -> Q) (a b : node) (dist : Q)
    (mode : string) : result edge :=
  match TRANSPORT_MODES mode with
  | None => Err (KeyError mode)
  | Some params =>
      Ok (mk_edge a b mode
              (Some (round dist 2%Z))
              (Some (round ((dist / speed_kmh params) * 60)%Q 1%Z))
              (Some (round (dist * cost_per_km params)%Q 2%Z))
              (Some (round (dist * emission_per_km params)%Q 2%Z))
              (Some (safety params))
              true)
  end.

(** [for m in modes: edges.append(make_edge(a, b, dist, m))] *)
Definition add_modes (round : Q -> Z -> Q) (a b : node) (dist : Q)
    (modes : list string) (edges : list edge) : result (list edge) :=
  for_each (fun edges m =>
              match make_edge round a b dist m with
              | Ok e => Ok (edges ++ [e])
              | Err err => Err err
              end)
           modes edges.

(** The body of the loop over [j]. *)
Definition full_pair (great_circle : formula) (round : Q -> Z -> Q)
    (nodes : table) (modes : list string) (a : node) (edges : list edge)
    (b : node) : result (list edge) :=
  match heuristic great_circle a b nodes with
  | Ok dist => add_modes round a b dist modes edges
  | Err exn => Err exn
  end.

(** The loop over [i], with [node_list[i:]] for [node_list]. *)
Fixpoint full_rows (great_circle : formula) (round : Q -> Z -> Q)
    (nodes : table) (modes : list string)
    (node_list : list node) (edges : list edge) : result (list edge) :=
  match node_list with
  | [] => Ok edges
  | a :: later =>
      match
        for_each (full_pair great_circle round nodes modes a) later edges
      with
      | Ok edges => full_rows great_circle round nodes modes later edges
      | Err exn => Err exn
      end
  end.

Definition build_full_graph (great_circle : formula) (round : Q -> Z -> Q)
    (nodes : table) (modes : list string) : result (list edge) :=
  let node_list := keys nodes in
  full_rows great_circle round nodes modes node_list [].

(** A list comprehension whose expression may raise. *)
Fixpoint collect {A B : Type} (f : A -> result B) (xs : list A)
  : result (list B) :=
  match xs with
  | [] => Ok []
  | x :: rest =>
      match f x with
      | Ok y =>
          match collect f rest with
          | Ok ys => Ok (y :: ys)
          | Err exn => Err exn
          end
      | Err exn => Err exn
      end
  end.

(** [(b, heuristic(a, b, nodes))] *)
Definition neighbor (great_circle : formula) (nodes : table) (a b : node)
  : result (node * Q) :=
  match heuristic great_circle a b nodes with
  | Ok dist => Ok (b, dist)
  | Err exn => Err exn
  end.

(** The body of the loop over the nodes. *)
Definition nearest_row (great_circle : formula) (round : Q -> Z -> Q)
    (nodes : table) (k : Z) (modes : list string) (edges : list edge)
    (a : node) : result (list edge) :=
  match
    collect (neighbor great_circle nodes a)
      (filter (fun b => b <> a) (keys nodes))
  with
  | Ok neighbors =>
      let neighbors := sort_by_key neighbors in
      for_each (fun edges bd => add_modes round a bd.1 bd.2 modes edges)
        (slice_to k neighbors) edges
  | Err exn => Err exn
  end.

Definition build_k_nearest_graph (great_circle : formula)
    (round : Q -> Z -> Q) (nodes : table) (k : Z) (modes : list string)
  : result (list edge) :=
  for_each (nearest_row great_circle round nodes k modes) (keys nodes) [].


(** * Specification *)

(** ** Walks of the adjacency view *)

(** [walk adj factor start p n c]: the node sequence [p] leads from [start]
    to [n] along tuples of the adjacency view, and [c] is the sum of the
    weights of the edges taken, added in the order the search adds them. *)
Inductive walk (adj : gmap node (list item)) (factor : string) (start : node)
  : list node -> node -> num -> Prop :=
| walk_start : walk adj factor start [start] start (Fin 0)
| walk_step p u c it :
    walk adj factor start p u c ->
    it ∈ adj_get adj u ->
    walk adj factor start (p ++ [item_neigh it]) (item_neigh it)
      (num_add c (get_edge_weight (item_edge it) factor)).

Definition reachable (adj : gmap node (list item)) (factor : string)
    (start goal : node) : Prop :=
  exists p c, walk adj factor start p goal c.

Definition is_triple (it : item) : bool :=
  match it with Triple _ _ _ => true | Pair _ _ => false end.

Definition is_pair (it : item) : bool :=
  match it with Pair _ _ => true | Triple _ _ _ => false end.

(** The view has the shape the search loops unpack: every tuple is a
    triple [(neighbor, weight, edge)]. *)
Definition triple_view (adj : gmap node (list item)) : Prop :=
  forall n it, it ∈ adj_get adj n -> is_triple it = true.

(** The view has the shape of the data model: every tuple is a pair
    [(neighbor, edge)]. *)
Definition pair_view (adj : gmap node (list item)) : Prop :=
  forall n it, it ∈ adj_get adj n -> is_pair it = true.

(** ** Heuristics and costs *)

(** The heuristic is consistent: along every edge the estimate drops by no
    more than the weight of the edge. *)
Definition consistent (adj : gmap node (list item)) (factor : string)
    (heuristic_fn : node -> node -> Q) (end_ : node) : Prop :=
  forall u it, it ∈ adj_get adj u ->
    num_le (Fin (heuristic_fn u end_))
           (num_add (get_edge_weight (item_edge it) factor)
                    (Fin (heuristic_fn (item_neigh it) end_))).

(** The heuristic is a lower bound on the cost of every walk to the goal. *)
Definition admissible (adj : gmap node (list item)) (factor : string)
    (heuristic_fn : node -> node -> Q) (end_ : node) : Prop :=
  forall n p c, walk adj factor n p end_ c ->
    num_le (Fin (heuristic_fn n end_)) c.

(** Every weight the search reads is non-negative. *)
Definition nonneg_weights (adj : gmap node (list item)) (factor : string)
  : Prop :=
  forall u it, it ∈ adj_get adj u ->
    num_le (Fin 0) (get_edge_weight (item_edge it) factor).

(** No walk from [start] to [n] costs less than [c]. *)
Definition lower_bound (adj : gmap node (list item)) (factor : string)
    (start n : node) (c : num) : Prop :=
  forall p c', walk adj factor start p n c' -> num_le c c'.

Definition zero_heuristic (a b : node) : Q := 0%Q.

(** ** Sums that binary64 forms without rounding *)

(** A whole number from 0 to [limit]. *)
Definition whole_upto (limit : Z) (x : Q) : Prop :=
  exists k : Z, (0 <= k <= limit)%Z /\ (x == inject_Z k)%Q.

(** A whole number from 0 to 2^53: binary64 holds every such number, and it
    adds two of them without rounding when their sum is no greater than
    2^53. *)
Definition whole (x : Q) : Prop := whole_upto (2 ^ 53) x.

(** Infinity, or a whole number from 0 to 2^53. *)
Definition exact_num (c : num) : Prop :=
  match c with
  | Fin x => whole x
  | Inf => True
  end.


(** The sums [astar] forms are exact in binary64: the finite weights are
    whole numbers from 0 to [limit], the estimates are whole numbers from 0
    to [bound], and [limit] times the number of neighbour lists of the
    view, plus [bound], is no greater than 2^53.  A path leaves a node at
    most once, so its cost is no greater than the product ([entry_exact]). *)
Definition exact_sums (adj : gmap node (list item)) (factor : string)
    (heuristic_fn : node -> node -> Q) (end_ : node) : Prop :=
  exists limit bound : Z,
    (0 <= limit)%Z
    /\ (forall u it w, it ∈ adj_get adj u ->
          get_edge_weight (item_edge it) factor = Fin w -> whole_upto limit w)
    /\ (forall n, whole_upto bound (heuristic_fn n end_))
    /\ (Z.of_nat (size adj) * limit + bound <= 2 ^ 53)%Z.


(** Nothing is asked of the cost at which a node is finalized. *)
Definition any_cost (n : node) (c : num) : Prop := True.

(** ** The frontier *)

(** A three-way comparison that orders its items totally, up to the items
    it holds equal; Python's comparison of the tuples pushed here is one. *)
Record lawful {A : Type} (cmp : A -> A -> comparison) : Prop := {
  law_opp : forall x y, cmp x y = CompOpp (cmp y x);
  law_trans : forall x y z, cmp x y = Lt -> cmp y z = Lt -> cmp x z = Lt;
  law_eq : forall x y z, cmp x y = Eq -> cmp x z = cmp y z
}.

(** The frontier is in ascending order: its head is a least entry, the one
    [heapq.heappop] returns. *)
Fixpoint ordered {A : Type} (cmp : A -> A -> comparison) (pq : list A) : Prop :=
  match pq with
  | [] => True
  | x :: rest => Forall (fun y => cmp x y <> Gt) rest /\ ordered cmp rest
  end.

(** The estimate [est] that orders the frontier of [astar]. *)
Definition akey (x : aentry) : num := x.1.1.1.

(** [heuristic_fn(n, end)] *)
Definition est (heuristic_fn : node -> node -> Q) (end_ : node) (n : node)
  : num :=
  Fin (heuristic_fn n end_).

(** [get_edge_weight(edge, factor)] for the edge of a tuple. *)
Definition weight (factor : string) (it : item) : num :=
  get_edge_weight (item_edge it) factor.

(** The entry [astar] pushes for one tuple of the neighbour list. *)
Definition pushed (factor : string) (heuristic_fn : node -> node -> Q)
    (end_ : node) (cost : num) (path : list node) (it : item) : aentry :=
  (num_add (num_add cost (weight factor it))
     (est heuristic_fn end_ (item_neigh it)),
   num_add cost (weight factor it), item_neigh it, path).

(** The entry [dijkstra] pushes for one tuple of the neighbour list. *)
Definition dpushed (factor : string) (cost : num) (path : list node)
    (it : item) : dentry :=
  (num_add cost (get_edge_weight (item_edge it) factor), item_neigh it, path).

(** The entry of [astar] that stands for an entry of [dijkstra]. *)
Definition with_estimate (end_ : node) (heuristic_fn : node -> node -> Q)
    (x : dentry) : aentry :=
  let '(c, n, p) := x in (num_add c (Fin (heuristic_fn n end_)), c, n, p).

Definition with_estimates (end_ : node) (heuristic_fn : node -> node -> Q)
    (st : dstate) : astate :=
  (map (with_estimate end_ heuristic_fn) st.1, st.2).

(** ** The invariant of the search loop *)

(** The entry the frontier of [astar] starts with. *)
Definition first_entry (start end_ : node) (heuristic_fn : node -> node -> Q)
  : aentry :=
  (num_add (Fin 0) (est heuristic_fn end_ start), Fin 0, start, []).

(** [settled] is what is known of the cost at which a node was finalized;
    the invariant is stated once for every such property. *)
Record astar_inv (adj : gmap node (list item)) (start end_ : node)
    (factor : string) (heuristic_fn : node -> node -> Q)
    (settled : node -> num -> Prop)
    (pq : list aentry) (visited : gset node) : Prop := {
  (* the frontier is in ascending order *)
  inv_sorted : ordered aentry_compare pq;
  (* an entry records a walk from the start, through finalized nodes *)
  inv_entry : forall f g n p, (f, g, n, p) ∈ pq ->
    f = num_add g (est heuristic_fn end_ n)
    /\ walk adj factor start (p ++ [n]) n g
    /\ (forall x, x ∈ p -> x ∈ visited)
    /\ NoDup p;
  (* the start is finalized or still on the frontier *)
  inv_start : start ∈ visited \/ first_entry start end_ heuristic_fn ∈ pq;
  (* every edge out of a finalized node leads to a finalized node or has
     its entry on the frontier *)
  inv_visited : forall u, u ∈ visited ->
    u <> end_
    /\ exists d, settled u d
       /\ forall it, it ∈ adj_get adj u ->
            item_neigh it ∈ visited
            \/ exists f p,
                 (f, num_add d (weight factor it), item_neigh it, p) ∈ pq
}.

(** The states the loop of [astar] goes through. *)
Inductive astar_run (adj : gmap node (list item)) (start end_ : node)
    (factor : string) (heuristic_fn : node -> node -> Q) : astate -> Prop :=
| run_first :
    astar_run adj start end_ factor heuristic_fn
      ([first_entry start end_ heuristic_fn], ∅)
| run_step st st' :
    astar_run adj start end_ factor heuristic_fn st ->
    astar_step adj end_ factor (given heuristic_fn) st = Continue st' ->
    astar_run adj start end_ factor heuristic_fn st'.

(** ** Termination and outcomes *)

(** Entries that can still be pushed: the tuples of the nodes that are not
    finalized. *)
Definition budget (adj : gmap node (list item)) (visited : gset node) : nat :=
  map_fold (fun k items acc =>
              ((if decide (k ∈ visited) then O else length items) + acc)%nat)
           O adj.

(** What the invariant gives for the outcome of a search. *)
Definition outcome_ok (adj : gmap node (list item)) (start end_ : node)
    (factor : string) (settled : node -> num -> Prop) (r : outcome) : Prop :=
  match r with
  | Returned c p =>
      (c = Inf /\ p = [] /\ ~ reachable adj factor start end_)
      \/ (walk adj factor start p end_ c /\ NoDup p /\ settled end_ c)
  | Raised _ => ~ triple_view adj
  end.

(** ** Views checked by computation *)

Definition view_forall (P : node -> item -> bool) (adj : gmap node (list item))
  : bool :=
  forallb (fun kv => forallb (P kv.1) kv.2) (map_to_list adj).

Definition num_leb (a b : num) : bool :=
  match a, b with
  | Fin x, Fin y => Qle_bool x y
  | _, Inf => true
  | Inf, Fin _ => false
  end.

Definition wholeb (limit : Z) (x : Q) : bool :=
  (Zpos (Qden x) =? 1)%Z && (0 <=? Qnum x)%Z && (Qnum x <=? limit)%Z.

Definition whole_weightb (limit : Z) (factor : string) (it : item) : bool :=
  match get_edge_weight (item_edge it) factor with
  | Fin w => wholeb limit w
  | Inf => true
  end.

(** ** The data loader and the graph generator *)

(** The tuples one edge contributes to the neighbour list of [s]. *)
Definition out_items (directed : bool) (s : node) (e : edge) : list item :=
  (if decide (source e = s) then [Pair (target e) e] else [])
  ++ (if directed then []
      else if decide (target e = s) then [Pair (source e) (mirror e)] else []).

(** The body of the loop of [build_adjacency]. *)
Definition build_step (directed : bool) (adj : gmap node (list item))
    (e : edge) : gmap node (list item) :=
  let s := source e in
  let t := target e in
  let adj := adj_append adj s (Pair t e) in
  if negb directed then adj_append adj t (Pair s (mirror e)) else adj.


(** The triple [neighbor_generator] yields for a tuple. *)
Definition as_triple (factor : string) (it : item) : item :=
  Triple (item_neigh it) (get_edge_weight (item_edge it) factor) (item_edge it).

(** The view whose lists are what [neighbor_generator] yields. *)
Definition generated (adj : gmap node (list item)) (factor : string)
  : gmap node (list item) :=
  map (as_triple factor) <$> adj.

(** Two views that offer the same neighbours over the same edges. *)
Definition same_edges (adj view : gmap node (list item)) : Prop :=
  forall n, map (fun it => (item_neigh it, item_edge it)) (adj_get adj n)
            = map (fun it => (item_neigh it, item_edge it)) (adj_get view n).

(** The tuple with another weight stored in it. *)
Definition restamp (f : node -> edge -> num) (it : item) : item :=
  match it with
  | Triple neigh _ e => Triple neigh (f neigh e) e
  | Pair neigh e => Pair neigh e
  end.

(** The keys of an edge dict that hold strings. *)
Definition text_key (m : string) : bool :=
  String.eqb m "source" || String.eqb m "target" || String.eqb m "mode".

(** The keys added so far are [norm_] keys, and their values lie in the
    unit interval. *)
Definition norms_ok (e : nedge) : Prop :=
  forall k v, norms e !! k = Some v ->
    (exists m, k = norm_key m) /\ (0 <= v <= 1)%Q.

(** The edges disagree on a text key. *)
Definition clash (edges : list edge) (m : string) : Prop :=
  text_key m = true
  /\ exists e1 e2, e1 ∈ edges /\ e2 ∈ edges /\ edge_get e1 m <> edge_get e2 m.

(** [(x - mn) / (mx - mn)], or 0 on a scale of one point. *)
Definition scale (a b x : Q) : Q :=
  if Qeq_bool b a then 0%Q else ((x - a) / (b - a))%Q.

(** Binary64 subtracts two numbers between -2^1022 and 2^1022 without
    overflow. *)
Definition subtractable (x : Q) : Prop := (- (2 ^ 1022) <= x <= 2 ^ 1022)%Q.

(** The numbers that the edges hold under the metrics are such numbers, so
    that no difference [normalize_edges] forms is infinite. *)
Definition in_range (edges : list edge) (metrics : list string) : Prop :=
  forall e m x, e ∈ edges -> m ∈ metrics ->
    edge_get e m = Some (Number x) -> subtractable x.

Definition in_rangeb (edges : list edge) (metrics : list string) : bool :=
  forallb (fun e =>
             forallb (fun m =>
                        match edge_get e m with
                        | Some (Number x) =>
                            Qle_bool (- (2 ^ 1022)) x && Qle_bool x (2 ^ 1022)
                        | _ => true
                        end)
                     metrics)
          edges.

(** The keys added so far are [norm_] keys. *)
Definition norm_keys (e : nedge) : Prop :=
  forall k, is_Some (norms e !! k) -> exists m, k = norm_key m.

(** What an edge is reported for. *)
Definition reports (node_names : gset node) (e : edge) (x : issue) : Prop :=
  match x with
  | MissingSource n => n = source e /\ n ∉ node_names
  | MissingTarget n => n = target e /\ n ∉ node_names
  | NegativeDistance e' =>
      e' = e /\ exists d, distance_km e = Some d /\ (d < 0)%Q
  | NegativeTime e' => e' = e /\ exists t, time_min e = Some t /\ (t < 0)%Q
  | NegativeCost e' => e' = e /\ exists c, cost_usd e = Some c /\ (c < 0)%Q
  | SparselyConnected => False
  end.

(** The edge has the three keys the range checks read. *)
Definition checked_keys (e : edge) : Prop :=
  is_Some (distance_km e) /\ is_Some (time_min e) /\ is_Some (cost_usd e).

(** The nodes some tuple of the view leads to. *)
Definition targets (adj : gmap node (list item)) : gset node :=
  map_fold (fun _ items acc => list_to_set (item_neigh <$> items) ∪ acc) ∅ adj.

(** The invariant of the traversal. *)
Record bfs_inv (adj : gmap node (list item)) (start : node)
    (visited : gset node) (q : list node) : Prop := {
  bfs_start : start ∈ visited;
  bfs_sound : forall v, v ∈ visited -> reachable adj "distance" start v;
  bfs_queue : forall v, v ∈ q -> v ∈ visited;
  bfs_closed : forall u, u ∈ visited ->
    u ∈ q \/ forall it, it ∈ adj_get adj u ->
                item_neigh it ∈ visited /\ is_pair it = true
}.

(** The fields [quick_tests] reads of an edge. *)
Definition same_checked (e e' : edge) : Prop :=
  source e = source e' /\ target e = target e'
  /\ distance_km e = distance_km e' /\ time_min e = time_min e'
  /\ cost_usd e = cost_usd e'.

(** The message about [e], about another edge. *)
Definition about (f : edge -> edge) (x : issue) : issue :=
  match x with
  | NegativeDistance e => NegativeDistance (f e)
  | NegativeTime e => NegativeTime (f e)
  | NegativeCost e => NegativeCost (f e)
  | other => other
  end.

(** The result with [f] applied to it, or the same exception. *)
Definition result_map {A B : Type} (f : A -> B) (r : result A) : result B :=
  match r with Ok a => Ok (f a) | Err err => Err err end.

(** The pairs [(node_list[i], node_list[j])] with [i < j], row by row. *)
Fixpoint pairs (node_list : list node) : list (node * node) :=
  match node_list with
  | [] => []
  | a :: later => ((fun b => (a, b)) <$> later) ++ pairs later
  end.

(** The edges [build_full_graph] is to make: endpoints and mode. *)
Definition planned (node_list : list node) (modes : list string)
  : list (node * node * string) :=
  pairs node_list ≫= fun ab => (fun m => (ab, m)) <$> modes.

(** Rounding does not make a number negative. *)
Definition keeps_sign (round : Q -> Z -> Q) : Prop :=
  forall x ndigits, (0 <= x)%Q -> (0 <= round x ndigits)%Q.

(** The order of [list.sort(key=lambda x: x[1])]. *)
Definition key_compare (x y : node * Q) : comparison := (x.2 ?= y.2)%Q.

(** The edge the generators make for a pair of nodes and a mode, from the
    distance [heuristic] returns. *)
Definition makes (great_circle : formula) (round : Q -> Z -> Q)
    (nodes : table) (e : edge) (abm : node * node * string) : Prop :=
  exists dist,
    heuristic great_circle abm.1.1 abm.1.2 nodes = Ok dist
    /\ make_edge round abm.1.1 abm.1.2 dist abm.2 = Ok e.

(** [heuristic] returns for the two nodes. *)
Definition measured (great_circle : formula) (nodes : table) (a b : node)
  : Prop :=
  exists dist, heuristic great_circle a b nodes = Ok dist.

(** The distance [heuristic] returns, where it returns. *)
Definition distance (great_circle : formula) (nodes : table) (a b : node)
  : Q :=
  match heuristic great_circle a b nodes with Ok dist => dist | Err _ => 0%Q end.

(** The neighbours [build_k_nearest_graph] keeps for a node, with their
    distances: [neighbors[:k]] after the sort. *)
Definition nearest (great_circle : formula) (nodes : table) (k : Z)
    (a : node) : list (node * Q) :=
  slice_to k
    (sort_by_key ((fun b => (b, distance great_circle nodes a b))
                    <$> filter (fun b => b <> a) (keys nodes))).

(** The length of [l[:k]] for a list of length [n]. *)
Definition slice_length (k : Z) (n : nat) : nat :=
  if (0 <=? k)%Z then Nat.min (Z.to_nat k) n else (n - Z.to_nat (- k))%nat.

(** The edges [build_k_nearest_graph] is to make, row by row. *)
Definition planned_nearest (great_circle : formula) (nodes : table) (k : Z)
    (modes : list string) (node_list : list node)
  : list (node * node * string) :=
  node_list ≫= fun a =>
    nearest great_circle nodes k a ≫= fun bd =>
      (fun m => (a, bd.1, m)) <$> modes.


(** ** Sample data *)

Definition route (s t : node) (d : Q) : edge :=
  mk_edge s t "car" (Some d) (Some (d * (3 # 4))%Q) (Some (d * (1 # 10))%Q)
    (Some (d * (12 # 100))%Q) (Some (7 # 10)%Q) true.

Definition hop (s t : node) (d : Q) : item := Triple t (Fin d) (route s t d).

(** A direct edge from S to X, a cheaper detour through A, and one edge
    from X to the goal G. *)
Definition detour_view : gmap node (list item) :=
  <["S" := [hop "S" "A" 1; hop "S" "X" 3]]>
    (<["A" := [hop "A" "X" 1]]>
       (<["X" := [hop "X" "G" 10]]> ∅)).

(** The true remaining distance to G in [detour_view]. *)
Definition remaining (n goal : node) : Q :=
  if String.eqb n "S" then 12%Q
  else if String.eqb n "A" then 11%Q
  else if String.eqb n "X" then 10%Q
  else 0%Q.

(** A lower bound on the remaining distance that is exact at A and zero
    elsewhere. *)
Definition exact_at_A (n goal : node) : Q :=
  if String.eqb n "A" then 11%Q else 0%Q.

(** A table of nodes without coordinates: [heuristic] returns 0.0. *)
Definition no_coordinates : table :=
  mk_table ["S"; "A"; "X"; "G"]
    (list_to_map ((fun n => (n, mk_place None None)) <$> ["S"; "A"; "X"; "G"])).

(** A table whose row for Goa has a latitude and no longitude. *)
Definition half_located : table :=
  mk_table ["Goa"] {["Goa" := mk_place (Some (1530 # 100)) None]}.

(** Every two places are 100 km apart. *)
Definition flat (lat1 lon1 lat2 lon2 : Q) : result Q := Ok 100%Q.

(** Two nodes joined in both directions. *)
Definition cycle_view : gmap node (list item) :=
  <["A" := [hop "A" "B" 1]]> (<["B" := [hop "B" "A" 1]]> ∅).

(** Two edges in both directions, as [build_adjacency] lays them out. *)
Definition coast_view : gmap node (list item) :=
  build_adjacency [route "Pune" "Goa" 440; route "Goa" "Hampi" 310] false.

(** One directed edge. *)
Definition one_way_view : gmap node (list item) :=
  build_adjacency [route "Pune" "Goa" 440] true.

Definition coast : list edge :=
  [route "Pune" "Goa" 440; route "Goa" "Hampi" 310].

(** An edge of negative length to a node the table does not have. *)
Definition back_road : edge :=
  mk_edge "Pune" "Lonavala" "car" (Some (-(64))%Q) (Some 90%Q) (Some 5%Q)
    (Some 8%Q) (Some (7 # 10)%Q) true.

(** The same journey on foot, with nothing known of emission or safety. *)
Definition on_foot (e : edge) : edge :=
  mk_edge (source e) (target e) "walk" (distance_km e) (time_min e)
    (cost_usd e) None None false.

(** A rounding that leaves the number as it is. *)
Definition no_rounding (x : Q) (ndigits : Z) : Q := x.

(** Three nodes with their coordinates. *)
Definition villages : table :=
  mk_table ["Pune"; "Goa"; "Hampi"]
    (<["Pune" := mk_place (Some (1852 # 100)) (Some (7386 # 100))]>
       (<["Goa" := mk_place (Some (1530 # 100)) (Some (7412 # 100))]>
          (<["Hampi" := mk_place (Some (1534 # 100)) (Some (7646 # 100))]>
             ∅))).


(** * Properties *)

(** ** Order and addition on numbers *)

Ltac num_cases :=
  repeat match goal with
         | x : num |- _ => destruct x
         end;
  simpl in *; try tauto; try lra.

Lemma num_le_refl (a : num) : num_le a a.
Proof. num_cases. Qed.

Lemma num_le_trans (a b c : num) : num_le a b -> num_le b c -> num_le a c.
Proof. num_cases. Qed.

Lemma num_lt_le (a b : num) : num_lt a b -> num_le a b.
Proof. num_cases. Qed.

Lemma num_lt_irrefl_le (a b : num) : num_lt a b -> num_le b a -> False.
Proof. num_cases. Qed.

Lemma num_add_le_mono_l (a b c : num) :
  num_le a b -> num_le (num_add a c) (num_add b c).
Proof. num_cases. Qed.

Lemma num_add_le_cancel_fin (a b : num) (h : Q) :
  num_le (num_add a (Fin h)) (num_add b (Fin h)) -> num_le a b.
Proof. num_cases. Qed.

Lemma num_add_shift (c w : num) (hu hv : Q) :
  num_le (Fin hu) (num_add w (Fin hv)) ->
  num_le (num_add c (Fin hu)) (num_add (num_add c w) (Fin hv)).
Proof. num_cases. Qed.

Lemma num_compare_Lt (a b : num) : num_compare a b = Lt -> num_lt a b.
Proof. destruct a, b; simpl; first [done | apply Qlt_alt]. Qed.

Lemma num_compare_Eq (a b : num) : num_compare a b = Eq -> num_eqv a b.
Proof. destruct a, b; simpl; first [done | apply Qeq_alt]. Qed.

Lemma num_compare_Gt (a b : num) : num_compare a b = Gt -> num_lt b a.
Proof. destruct a, b; simpl; first [done | apply Qgt_alt]. Qed.

Lemma num_eqv_le (a b : num) : num_eqv a b -> num_le a b.
Proof. num_cases. Qed.

Lemma num_eqv_ge (a b : num) : num_eqv a b -> num_le b a.
Proof. num_cases. Qed.

Lemma num_compare_eqv_l (a a' b : num) :
  num_eqv a a' -> num_compare a b = num_compare a' b.
Proof.
  destruct a, a', b; simpl; try done.
  intros E. by rewrite E.
Qed.

Lemma num_compare_eqv_r (a b b' : num) :
  num_eqv b b' -> num_compare a b = num_compare a b'.
Proof.
  destruct a, b, b'; simpl; try done.
  intros E. by rewrite E.
Qed.

Lemma num_add_zero_eqv (a : num) (z : Q) :
  (z == 0)%Q -> num_eqv (num_add a (Fin z)) a.
Proof. intros E. destruct a; simpl; [lra | done]. Qed.

(** ** The frontier *)

Section HeapFacts.
Context {A : Type} (lt : A -> A -> bool).

Lemma heappush_elem (pq : list A) (x y : A) :
  y ∈ heappush lt pq x <-> y = x \/ y ∈ pq.
Proof.
  induction pq as [|z pq IH]; simpl.
  - rewrite list_elem_of_singleton, elem_of_nil. tauto.
  - destruct (lt x z); rewrite !elem_of_cons; [tauto|].
    rewrite IH. tauto.
Qed.

Lemma heappush_length (pq : list A) (x : A) :
  length (heappush lt pq x) = S (length pq).
Proof.
  induction pq as [|z pq IH]; simpl; [done|].
  destruct (lt x z); simpl; by rewrite ?IH.
Qed.

Lemma heappush_Permutation (pq : list A) (x : A) :
  heappush lt pq x ≡ₚ x :: pq.
Proof.
  induction pq as [|z pq IH]; simpl; [done|].
  destruct (lt x z); [done|].
  rewrite IH. apply Permutation_swap.
Qed.
End HeapFacts.

(** ** The order of the frontier *)

Section Lawful.
Context {A : Type} (cmp : A -> A -> comparison) (Hlaw : lawful cmp).

Lemma law_eq_r x y z : cmp y z = Eq -> cmp x y = cmp x z.
Proof.
  intros E. rewrite (law_opp _ Hlaw x y), (law_opp _ Hlaw x z). f_equal.
  symmetry. apply (law_eq _ Hlaw).
  rewrite (law_opp _ Hlaw). by rewrite E.
Qed.

Lemma law_refl x : cmp x x = Eq.
Proof.
  pose proof (law_opp _ Hlaw x x) as H. by destruct (cmp x x).
Qed.

Lemma law_le_trans x y z : cmp x y <> Gt -> cmp y z <> Gt -> cmp x z <> Gt.
Proof.
  intros H1 H2.
  destruct (cmp x y) eqn:E1; [|clear H1|done].
  - by rewrite (law_eq _ Hlaw x y z E1).
  - destruct (cmp y z) eqn:E2; [| |done].
    + by rewrite <- (law_eq_r x y z E2), E1.
    + by rewrite (law_trans _ Hlaw x y z E1 E2).
Qed.

Lemma law_not_lt x y : cmp x y <> Lt -> cmp y x <> Gt.
Proof. rewrite (law_opp _ Hlaw y x). by destruct (cmp x y). Qed.

(** [heappush] keeps the frontier in ascending order. *)
Lemma heappush_ordered (pq : list A) (x : A) :
  ordered cmp pq -> ordered cmp (heappush (fun a b => is_lt (cmp a b)) pq x).
Proof.
  induction pq as [|z pq IH]; simpl.
  - intros _. split; [constructor | done].
  - intros [Hz Hs]. destruct (cmp x z) eqn:E; simpl.
    + split; [|by apply IH]. apply Forall_forall. intros y Hy.
      apply heappush_elem in Hy as [->|Hy].
      * apply law_not_lt. by rewrite E.
      * by eapply Forall_forall in Hz.
    + split; [|done]. constructor; [by rewrite E|].
      eapply Forall_impl; [exact Hz|]. simpl. intros y Hy.
      apply (law_le_trans x z y); [by rewrite E | done].
    + split; [|by apply IH]. apply Forall_forall. intros y Hy.
      apply heappush_elem in Hy as [->|Hy].
      * apply law_not_lt. by rewrite E.
      * by eapply Forall_forall in Hz.
Qed.

(** [heappop] returns a least entry. *)
Lemma ordered_head (x : A) (rest : list A) (y : A) :
  ordered cmp (x :: rest) -> y ∈ x :: rest -> cmp x y <> Gt.
Proof.
  intros [Hx _] [->|Hy]%elem_of_cons; [by rewrite law_refl|].
  by eapply Forall_forall in Hx.
Qed.

Lemma ordered_tail (x : A) (rest : list A) :
  ordered cmp (x :: rest) -> ordered cmp rest.
Proof. by intros [_ ?]. Qed.

Lemma pushes_ordered (xs pq : list A) :
  ordered cmp pq ->
  ordered cmp (foldl (heappush (fun a b => is_lt (cmp a b))) pq xs).
Proof.
  revert pq. induction xs as [|x xs IH]; intros pq; simpl; [done|].
  intros H. by apply IH, heappush_ordered.
Qed.

Lemma heappop_least (pq : list A) (x : A) (rest : list A) :
  ordered cmp pq -> heappop pq = Some (x, rest) ->
  (forall y, y ∈ pq -> cmp x y <> Gt) /\ ordered cmp rest.
Proof.
  destruct pq as [|z pq]; simpl; [done|]. intros H [= -> ->]. split.
  - intros y Hy. by eapply ordered_head.
  - by eapply ordered_tail.
Qed.
End Lawful.

(** Comparing first by one component and then by another. *)
Lemma lawful_lex {A B C : Type} (f : A -> B) (g : A -> C) c1 c2 :
  lawful c1 -> lawful c2 ->
  lawful (fun x y => lex (c1 (f x) (f y)) (c2 (g x) (g y))).
Proof.
  intros H1 H2. split.
  - intros x y. rewrite (law_opp _ H1 (f x) (f y)), (law_opp _ H2 (g x) (g y)).
    by destruct (c1 (f y) (f x)).
  - intros x y z.
    destruct (c1 (f x) (f y)) eqn:E1; simpl; [|intros _|done].
    + rewrite (law_eq _ H1 _ _ (f z) E1).
      destruct (c1 (f y) (f z)) eqn:E2; simpl; [|done..].
      apply (law_trans _ H2).
    + destruct (c1 (f y) (f z)) eqn:E2; simpl; [intros _| intros _|done].
      * by rewrite <- (law_eq_r _ H1 (f x) (f y) (f z) E2), E1.
      * by rewrite (law_trans _ H1 _ _ _ E1 E2).
  - intros x y z.
    destruct (c1 (f x) (f y)) eqn:E1; simpl; [|done..].
    intros E2. by rewrite (law_eq _ H1 _ _ (f z) E1), (law_eq _ H2 _ _ (g z) E2).
Qed.

Lemma num_compare_lawful : lawful num_compare.
Proof.
  split.
  - intros [x|] [y|]; simpl; try done. by rewrite <- Qcompare_antisym.
  - intros [x|] [y|] [z|]; simpl; try done.
    rewrite <- !Qlt_alt. apply Qlt_trans.
  - intros x y z E. apply num_compare_eqv_l. by apply num_compare_Eq.
Qed.

Lemma string_compare_lawful : lawful String.compare.
Proof.
  split.
  - apply String.compare_antisym.
  - intros x y z H1 H2. apply String_as_OT.cmp_lt.
    eapply String_as_OT.lt_trans; by apply String_as_OT.cmp_lt.
  - intros x y z E. apply String.compare_eq_iff in E. by subst.
Qed.

Lemma path_compare_lawful : lawful path_compare.
Proof.
  pose proof string_compare_lawful as Hs.
  split.
  - intros p. induction p as [|a p IH]; intros [|b q]; simpl; try done.
    rewrite (law_opp _ Hs a b), (IH q). by destruct (String.compare b a).
  - intros p. induction p as [|a p IH]; intros [|b q] [|c r]; simpl; try done.
    destruct (String.compare a b) eqn:E1; simpl; [|intros _|done].
    + rewrite (law_eq _ Hs _ _ c E1).
      destruct (String.compare b c) eqn:E2; simpl; [|done..]. apply IH.
    + destruct (String.compare b c) eqn:E2; simpl; [intros _|intros _|done].
      * by rewrite <- (law_eq_r _ Hs a b c E2), E1.
      * by rewrite (law_trans _ Hs _ _ _ E1 E2).
  - intros p. induction p as [|a p IH]; intros [|b q] z; simpl; try done.
    destruct (String.compare a b) eqn:E1; simpl; [|done..].
    intros E2. apply String.compare_eq_iff in E1 as ->.
    destruct z as [|c r]; [done|]. simpl. f_equal. by apply IH.
Qed.

(** Python's order on the entries of [dijkstra]. *)
Lemma dentry_compare_lawful : lawful dentry_compare.
Proof.
  pose proof (lawful_lex (fun x : dentry => x.1.1) (fun x : dentry => (x.1.2, x.2))
                num_compare
                (fun a b => lex (String.compare a.1 b.1) (path_compare a.2 b.2))
                num_compare_lawful
                (lawful_lex fst snd _ _ string_compare_lawful path_compare_lawful))
    as [H1 H2 H3].
  split.
  - intros [[c1 n1] p1] [[c2 n2] p2]. apply (H1 (c1, n1, p1) (c2, n2, p2)).
  - intros [[c1 n1] p1] [[c2 n2] p2] [[c3 n3] p3].
    apply (H2 (c1, n1, p1) (c2, n2, p2) (c3, n3, p3)).
  - intros [[c1 n1] p1] [[c2 n2] p2] [[c3 n3] p3].
    apply (H3 (c1, n1, p1) (c2, n2, p2) (c3, n3, p3)).
Qed.

(** Python's order on the entries of [astar]. *)
Lemma aentry_compare_lawful : lawful aentry_compare.
Proof.
  pose proof (lawful_lex (fun x : aentry => x.1.1.1)
                (fun x : aentry => (x.1.1.2, x.1.2, x.2))
                num_compare dentry_compare
                num_compare_lawful dentry_compare_lawful)
    as [H1 H2 H3].
  split.
  - intros [[[f1 c1] n1] p1] [[[f2 c2] n2] p2].
    apply (H1 (f1, c1, n1, p1) (f2, c2, n2, p2)).
  - intros [[[f1 c1] n1] p1] [[[f2 c2] n2] p2] [[[f3 c3] n3] p3].
    apply (H2 (f1, c1, n1, p1) (f2, c2, n2, p2) (f3, c3, n3, p3)).
  - intros [[[f1 c1] n1] p1] [[[f2 c2] n2] p2] [[[f3 c3] n3] p3].
    apply (H3 (f1, c1, n1, p1) (f2, c2, n2, p2) (f3, c3, n3, p3)).
Qed.

(** An entry of [astar] that is not greater has no greater estimate. *)
Lemma aentry_le_key (x y : aentry) :
  aentry_compare x y <> Gt -> num_le (akey x) (akey y).
Proof.
  destruct x as [[[f1 g1] n1] p1], y as [[[f2 g2] n2] p2].
  unfold aentry_compare, akey. simpl. intros H.
  destruct (num_compare f1 f2) eqn:E; simpl in H; [| |done].
  - apply num_eqv_le. by apply num_compare_Eq.
  - apply num_lt_le. by apply num_compare_Lt.
Qed.

(** ** A zero heuristic makes [astar] run as [dijkstra] *)

Section ZeroHeuristic.
Context (adj : gmap node (list item)) (end_ : node) (factor : string).
Context (great_circle : formula) (nodes : table).
Context (heuristic_fn : node -> node -> Q).
Hypothesis heuristic_zero : forall a b, (heuristic_fn a b == 0)%Q.

Local Abbreviation lift := (with_estimate end_ heuristic_fn).
Local Abbreviation lifts := (with_estimates end_ heuristic_fn).

Lemma with_estimate_compare (x y : dentry) :
  aentry_compare (lift x) (lift y) = dentry_compare x y.
Proof.
  destruct x as [[c1 n1] p1], y as [[c2 n2] p2]. simpl.
  rewrite (num_compare_eqv_l _ c1) by (by apply num_add_zero_eqv).
  rewrite (num_compare_eqv_r _ _ c2) by (by apply num_add_zero_eqv).
  by destruct (num_compare c1 c2).
Qed.

Lemma with_estimate_lt (x y : dentry) :
  aentry_lt (lift x) (lift y) = dentry_lt x y.
Proof. unfold aentry_lt, dentry_lt. by rewrite with_estimate_compare. Qed.

Lemma with_estimate_push (pq : list dentry) (x : dentry) :
  heappush aentry_lt (map lift pq) (lift x)
  = map lift (heappush dentry_lt pq x).
Proof.
  induction pq as [|y pq IH]; simpl; [done|].
  rewrite with_estimate_lt.
  destruct (dentry_lt x y); [done|].
  by rewrite IH.
Qed.

Lemma with_estimate_expand cost path items (pq : list dentry) :
  astar_expand factor (given heuristic_fn) end_ cost path items (map lift pq)
  = match dijkstra_expand factor cost path items pq with
    | Ok pq' => Ok (map lift pq')
    | Err exn => Err exn
    end.
Proof.
  revert pq. induction items as [|[n e|n w e] items IH]; intros pq; simpl;
    [done..|].
  rewrite <- IH. f_equal.
  by rewrite <- with_estimate_push.
Qed.

Lemma with_estimates_step (st : dstate) :
  astar_step adj end_ factor (given heuristic_fn) (lifts st)
  = match dijkstra_step adj end_ factor st with
    | Continue st' => Continue (lifts st')
    | Stop r => Stop r
    end.
Proof.
  destruct st as [[|[[c n] p] pq] visited]; simpl; [done|].
  destruct (decide (n ∈ visited)); [done|].
  destruct (decide (n = end_)); [done|].
  rewrite with_estimate_expand.
  by destruct (dijkstra_expand _ _ _ _ _).
Qed.

Lemma with_estimates_loop (fuel : nat) (st : dstate) :
  astar_loop fuel adj end_ factor (given heuristic_fn) (lifts st)
  = dijkstra_loop fuel adj end_ factor st.
Proof.
  revert st. induction fuel as [|fuel IH]; intros st; [done|].
  cbn [astar_loop dijkstra_loop]. rewrite with_estimates_step.
  destruct (dijkstra_step adj end_ factor st); [apply IH | done].
Qed.

Lemma astar_zero_dijkstra (start : node) :
  astar great_circle adj start end_ nodes factor (Some heuristic_fn)
  = dijkstra adj start end_ factor.
Proof.
  unfold astar, dijkstra. by rewrite <- with_estimates_loop.
Qed.
End ZeroHeuristic.

(** ** Pushing a batch of entries *)

Lemma pushes_elem (xs : list aentry) (pq : list aentry) (y : aentry) :
  y ∈ foldl (heappush aentry_lt) pq xs <-> y ∈ pq \/ y ∈ xs.
Proof.
  revert pq. induction xs as [|x xs IH]; intros pq; simpl.
  - rewrite elem_of_nil. tauto.
  - rewrite IH, heappush_elem, elem_of_cons. tauto.
Qed.

Lemma pushes_length (xs : list aentry) (pq : list aentry) :
  length (foldl (heappush aentry_lt) pq xs) = (length pq + length xs)%nat.
Proof.
  revert pq. induction xs as [|x xs IH]; intros pq; simpl; [lia|].
  rewrite IH, heappush_length. lia.
Qed.

Lemma pushes_sorted (xs : list aentry) (pq : list aentry) :
  ordered aentry_compare pq ->
  ordered aentry_compare (foldl (heappush aentry_lt) pq xs).
Proof. apply (pushes_ordered aentry_compare aentry_compare_lawful). Qed.

(** ** The expansion of a finalized node *)

Section Expand.
Context (factor : string) (heuristic_fn : node -> node -> Q) (end_ : node).

Local Abbreviation push_for := (pushed factor heuristic_fn end_).

Lemma astar_expand_Ok cost path items pq pq' :
  astar_expand factor (given heuristic_fn) end_ cost path items pq = Ok pq' ->
  Forall (fun it => is_triple it = true) items
  /\ pq' = foldl (heappush aentry_lt) pq (map (push_for cost path) items).
Proof.
  revert pq. induction items as [|[n e|n w e] items IH]; intros pq; simpl.
  - intros [= <-]. by split.
  - discriminate.
  - intros H. apply IH in H as [H1 H2]. split; [by constructor | done].
Qed.

Lemma astar_expand_triples cost path items pq :
  Forall (fun it => is_triple it = true) items ->
  astar_expand factor (given heuristic_fn) end_ cost path items pq
  = Ok (foldl (heappush aentry_lt) pq (map (push_for cost path) items)).
Proof.
  intros H. revert pq.
  induction H as [|[n e|n w e] items Hit H IH]; intros pq; simpl;
    [done | discriminate | apply IH].
Qed.

Lemma astar_expand_Err cost path items pq exn :
  astar_expand factor (given heuristic_fn) end_ cost path items pq = Err exn ->
  exists it, it ∈ items /\ is_triple it = false.
Proof.
  revert pq. induction items as [|[n e|n w e] items IH]; intros pq; simpl.
  - discriminate.
  - intros _. exists (Pair n e). split; [left | done].
  - intros H. apply IH in H as (it & H1 & H2). exists it.
    split; [by right | done].
Qed.

End Expand.

(** ** What one iteration of [astar] does *)

Section AstarStep.
Context (adj : gmap node (list item)) (end_ : node) (factor : string).
Context (heuristic_fn : node -> node -> Q).

Lemma astar_step_Continue pq visited (st' : astate) :
  astar_step adj end_ factor (given heuristic_fn) (pq, visited) = Continue st' ->
  exists f g v p rest,
    pq = (f, g, v, p) :: rest
    /\ ((v ∈ visited /\ st' = (rest, visited))
        \/ ((v ∉ visited) /\ v <> end_
            /\ Forall (fun it => is_triple it = true) (adj_get adj v)
            /\ st' = (foldl (heappush aentry_lt) rest
                        (map (pushed factor heuristic_fn end_ g (p ++ [v]))
                           (adj_get adj v)),
                      {[v]} ∪ visited))).
Proof.
  destruct pq as [|[[[f g] v] p] rest]; simpl; [done|].
  intros H. exists f, g, v, p, rest. split; [done|].
  destruct (decide (v ∈ visited)).
  - left. by injection H as <-.
  - right. destruct (decide (v = end_)); [done|].
    destruct (astar_expand _ _ _ _ _ _ _) as [pq'|] eqn:E; [|done].
    apply astar_expand_Ok in E as [E1 ->]. by injection H as <-.
Qed.

Lemma astar_step_Stop pq visited (r : outcome) :
  astar_step adj end_ factor (given heuristic_fn) (pq, visited) = Stop r ->
  (pq = [] /\ r = Returned Inf [])
  \/ (exists f g p rest,
        pq = (f, g, end_, p) :: rest /\ (end_ ∉ visited)
        /\ r = Returned g (p ++ [end_]))
  \/ (exists f g v p rest it exn,
        pq = (f, g, v, p) :: rest /\ (v ∉ visited) /\ v <> end_
        /\ it ∈ adj_get adj v /\ is_triple it = false /\ r = Raised exn).
Proof.
  destruct pq as [|[[[f g] v] p] rest]; simpl.
  - intros [= <-]. by left.
  - destruct (decide (v ∈ visited)); [done|].
    destruct (decide (v = end_)) as [->|].
    + intros [= <-]. right. left. by exists f, g, p, rest.
    + destruct (astar_expand _ _ _ _ _ _ _) as [pq'|exn] eqn:E; [done|].
      intros [= <-]. right. right.
      apply astar_expand_Err in E as (it & H1 & H2).
      by exists f, g, v, p, rest, it, exn.
Qed.
End AstarStep.

(** ** The invariant of the search loop *)

Section AstarInvariant.
Context (adj : gmap node (list item)) (start end_ : node) (factor : string).
Context (heuristic_fn : node -> node -> Q).

Context (settled : node -> num -> Prop).

Local Abbreviation h := (est heuristic_fn end_).
Local Abbreviation wt := (weight factor).
Local Abbreviation first := (first_entry start end_ heuristic_fn).
Local Abbreviation inv :=
  (astar_inv adj start end_ factor heuristic_fn settled).

Lemma astar_inv_init : inv [first] ∅.
Proof.
  split.
  - simpl. by split.
  - intros f g n p [= -> -> -> ->]%list_elem_of_singleton.
    repeat split; [apply walk_start | set_solver | constructor].
  - right. by left.
  - set_solver.
Qed.

Lemma astar_inv_step pq visited pq' visited' :
  inv pq visited ->
  astar_step adj end_ factor (given heuristic_fn) (pq, visited)
  = Continue (pq', visited') ->
  (forall f g v p rest, pq = (f, g, v, p) :: rest -> v ∉ visited ->
                        settled v g) ->
  inv pq' visited'.
Proof.
  intros [Hs He Hst Hv] Hstep Hsettle.
  apply astar_step_Continue in Hstep
    as (f & g & v & p & rest & -> & [[Hin [= -> ->]]|(Hnin & Hne & _ & [= -> ->])]).
  - (* a stale entry is dropped *)
    split.
    + by eapply ordered_tail.
    + intros f' g' n' p' H. apply He. by right.
    + destruct Hst as [?|[E|?]%elem_of_cons]; [by left | | by right].
      left. unfold first_entry in E. by injection E as _ _ -> _.
    + intros u Hu. destruct (Hv u Hu) as (? & d & Hd & Hit).
      split; [done|]. exists d. split; [done|].
      intros it Hi. destruct (Hit it Hi) as [?|(f' & p' & [E|?]%elem_of_cons)];
        [by left | | right; by exists f', p'].
      left. by injection E as _ _ -> _.
  - (* a node is finalized and expanded *)
    destruct (He f g v p) as (Hf & Hw & Hp & Hnd); [by left|].
    split.
    + apply pushes_sorted. by eapply ordered_tail.
    + intros f' g' n' p' [H|H]%pushes_elem.
      * destruct (He f' g' n' p') as (? & ? & ? & ?); [by right|].
        repeat split; [done..| |done].
        intros x Hx. apply elem_of_union. right. auto.
      * apply list_elem_of_fmap in H as (it & E & Hit).
        unfold pushed in E. injection E as -> -> -> ->.
        repeat split.
        -- by eapply walk_step.
        -- intros x [?| ->%list_elem_of_singleton]%elem_of_app;
             apply elem_of_union; [right; auto | left; by apply elem_of_singleton].
        -- apply NoDup_app. split; [done|]. split; [|apply NoDup_singleton].
           intros x Hx ->%list_elem_of_singleton. by apply Hnin, Hp.
    + destruct Hst as [?|[E|?]%elem_of_cons].
      * left. apply elem_of_union. by right.
      * left. unfold first_entry in E. injection E as _ _ -> _.
        apply elem_of_union. left. by apply elem_of_singleton.
      * right. apply pushes_elem. by left.
    + intros u [->%elem_of_singleton|Hu]%elem_of_union.
      * split; [done|]. exists g. split; [by eapply Hsettle|].
        intros it Hi. right.
        exists (num_add (num_add g (wt it)) (h (item_neigh it))), (p ++ [v]).
        apply pushes_elem. right. apply list_elem_of_fmap. by exists it.
      * destruct (Hv u Hu) as (? & d & Hd & Hit).
        split; [done|]. exists d. split; [done|].
        intros it Hi.
        destruct (Hit it Hi) as [?|(f' & p' & [E|?]%elem_of_cons)].
        -- left. apply elem_of_union. by right.
        -- left. injection E as _ _ -> _.
           apply elem_of_union. left. by apply elem_of_singleton.
        -- right. exists f', p'. apply pushes_elem. by left.
Qed.

(** While some node reachable from the start is not finalized, the
    frontier is not empty. *)
Lemma frontier_nonempty pq visited p x c :
  inv pq visited ->
  walk adj factor start p x c ->
  x ∈ visited \/ pq <> [].
Proof.
  intros [Hs He Hst Hv] Hw. induction Hw as [|p u c it Hw IH Hit].
  - destruct Hst as [?|H]; [by left|]. right. intros ->. by apply elem_of_nil in H.
  - destruct IH as [Hu|?]; [|by right].
    destruct (Hv u Hu) as (_ & d & _ & H).
    destruct (H it Hit) as [?|(f & p' & H')]; [by left|].
    right. intros ->. by apply elem_of_nil in H'.
Qed.
End AstarInvariant.

(** ** Termination *)

Lemma budget_insert adj visited k items :
  adj !! k = None ->
  budget (<[k := items]> adj) visited
  = ((if decide (k ∈ visited) then O else length items) + budget adj visited)%nat.
Proof.
  intros H. unfold budget. rewrite map_fold_insert_L; [done| |done].
  intros. lia.
Qed.

Lemma total_items_insert adj k items :
  adj !! k = None ->
  total_items (<[k := items]> adj) = (length items + total_items adj)%nat.
Proof.
  intros H. unfold total_items. rewrite map_fold_insert_L; [done| |done].
  intros. lia.
Qed.

Lemma budget_empty adj : budget adj ∅ = total_items adj.
Proof.
  induction adj as [|k items adj Hk IH] using map_ind; [done|].
  rewrite budget_insert, total_items_insert, IH by done.
  destruct (decide (k ∈ ∅)) as [H|]; [|done]. by apply not_elem_of_empty in H.
Qed.

Lemma budget_finalize adj visited v :
  v ∉ visited ->
  budget adj visited
  = (length (adj_get adj v) + budget adj ({[v]} ∪ visited))%nat.
Proof.
  intros Hv. induction adj as [|k items adj Hk IH] using map_ind.
  - unfold adj_get. by rewrite lookup_empty.
  - rewrite !budget_insert, IH by done. unfold adj_get.
    destruct (decide (k = v)) as [->|Hne].
    + rewrite lookup_insert_eq, Hk. simpl.
      destruct (decide (v ∈ visited)); [done|].
      destruct (decide (v ∈ {[v]} ∪ visited)) as [|H]; [lia|].
      exfalso. apply H, elem_of_union. left. by apply elem_of_singleton.
    + rewrite lookup_insert_ne by done.
      destruct (decide (k ∈ visited)) as [Hin|Hnin].
      * destruct (decide (k ∈ {[v]} ∪ visited)) as [|H]; [lia|].
        exfalso. apply H, elem_of_union. by right.
      * destruct (decide (k ∈ {[v]} ∪ visited)) as [H|]; [|lia].
        apply elem_of_union in H as [H%elem_of_singleton|H]; done.
Qed.

Section AstarLoop.
Context (adj : gmap node (list item)) (start end_ : node) (factor : string).
Context (great_circle : formula) (nodes : table).
Context (heuristic_fn : node -> node -> Q).

Local Abbreviation step := (astar_step adj end_ factor (given heuristic_fn)).
Local Abbreviation loop :=
  (fun fuel => astar_loop fuel adj end_ factor (given heuristic_fn)).

(** Each iteration uses up one unit of: the entries on the frontier plus
    the entries that can still be pushed. *)
Lemma astar_step_measure pq visited pq' visited' :
  step (pq, visited) = Continue (pq', visited') ->
  (length pq' + budget adj visited' < length pq + budget adj visited)%nat.
Proof.
  intros H. apply astar_step_Continue in H
    as (f & g & v & p & rest & -> & [[Hin [= -> ->]]|(Hnin & Hne & _ & [= -> ->])]).
  - simpl. lia.
  - rewrite pushes_length, length_map, (budget_finalize adj visited v) by done.
    simpl. lia.
Qed.

Lemma astar_loop_terminates fuel pq visited :
  (length pq + budget adj visited < fuel)%nat ->
  exists r, loop fuel (pq, visited) = Some r.
Proof.
  revert pq visited. induction fuel as [|fuel IH]; intros pq visited Hlt; [lia|].
  cbn [astar_loop]. destruct (step (pq, visited)) as [[pq' visited']|r] eqn:E.
  - apply IH. apply astar_step_measure in E. lia.
  - by exists r.
Qed.

(** More fuel does not change the outcome. *)
Lemma astar_loop_fuel_mono fuel fuel' st r :
  (fuel <= fuel')%nat -> loop fuel st = Some r -> loop fuel' st = Some r.
Proof.
  revert fuel' st. induction fuel as [|fuel IH]; intros fuel' st Hle; [done|].
  destruct fuel' as [|fuel']; [lia|]. cbn [astar_loop].
  destruct (step st); [|done]. apply IH. lia.
Qed.

Lemma astar_terminates :
  exists r, astar great_circle adj start end_ nodes factor
              (Some heuristic_fn) = Some r.
Proof.
  apply astar_loop_terminates. rewrite budget_empty.
  unfold search_fuel. simpl. lia.
Qed.

(** *** The outcome of the loop *)

Context (settled : node -> num -> Prop).
Hypothesis settle : forall f g v p rest visited,
  astar_inv adj start end_ factor heuristic_fn settled
    ((f, g, v, p) :: rest) visited ->
  v ∉ visited -> settled v g.

Lemma astar_loop_outcome fuel pq visited r :
  astar_inv adj start end_ factor heuristic_fn settled pq visited ->
  loop fuel (pq, visited) = Some r ->
  outcome_ok adj start end_ factor settled r.
Proof.
  revert pq visited. induction fuel as [|fuel IH]; intros pq visited Hinv; [done|].
  cbn [astar_loop]. destruct (step (pq, visited)) as [[pq' visited']|r'] eqn:E.
  - apply IH. eapply astar_inv_step; [done..|].
    intros f g v p rest -> Hv. by eapply settle.
  - intros [= <-]. apply astar_step_Stop in E
      as [[-> ->]|[(f & g & p & rest & -> & Hv & ->)
                  |(f & g & v & p & rest & it & exn & -> & Hv & Hne & Hit & Hsh & ->)]].
    + left. repeat split. intros (p & c & Hw).
      destruct (frontier_nonempty _ _ _ _ _ _ _ _ _ _ _ Hinv Hw) as [H|H]; [|done].
      by apply (inv_visited _ _ _ _ _ _ _ _ Hinv) in H as [? _].
    + right. destruct (inv_entry _ _ _ _ _ _ _ _ Hinv f g end_ p)
        as (_ & Hw & Hp & Hnd); [by left|].
      split; [done|]. split; [|by eapply settle].
      apply NoDup_app. split; [done|]. split; [|apply NoDup_singleton].
      intros x Hx ->%list_elem_of_singleton. by apply Hv, Hp.
    + intros Htr. apply Htr in Hit. congruence.
Qed.
End AstarLoop.

(** ** Optimality under a consistent heuristic *)

Section Optimality.
Context (adj : gmap node (list item)) (start end_ : node) (factor : string).
Context (heuristic_fn : node -> node -> Q).
Hypothesis Hcons : consistent adj factor heuristic_fn end_.

Local Abbreviation h := (est heuristic_fn end_).
Local Abbreviation inv :=
  (astar_inv adj start end_ factor heuristic_fn
     (lower_bound adj factor start)).

(** Every walk from the start either ends in a finalized node or is
    announced on the frontier by an entry whose estimate is no larger. *)
Lemma frontier_bound pq visited p x c :
  inv pq visited ->
  walk adj factor start p x c ->
  x ∈ visited
  \/ exists e, e ∈ pq /\ num_le (akey e) (num_add c (h x)).
Proof.
  intros Hinv Hw. induction Hw as [|p u c it Hw IH Hit].
  - destruct (inv_start _ _ _ _ _ _ _ _ Hinv) as [?|H]; [by left|].
    right. eexists. split; [exact H|]. apply num_le_refl.
  - destruct IH as [Hu|(e & He & Hle)].
    + destruct (inv_visited _ _ _ _ _ _ _ _ Hinv u Hu) as (_ & d & Hd & H).
      destruct (H it Hit) as [?|(f & p' & H')]; [by left|].
      right. eexists. split; [exact H'|].
      destruct (inv_entry _ _ _ _ _ _ _ _ Hinv _ _ _ _ H') as (-> & _).
      unfold akey. simpl.
      do 2 apply num_add_le_mono_l. by eapply Hd.
    + right. exists e. split; [done|].
      eapply num_le_trans; [exact Hle|].
      apply num_add_shift. by apply Hcons.
Qed.

(** The first entry popped for a node carries its least cost. *)
Lemma pop_optimal f g v p rest visited :
  inv ((f, g, v, p) :: rest) visited ->
  v ∉ visited ->
  lower_bound adj factor start v g.
Proof.
  intros Hinv Hv p' c Hw.
  destruct (frontier_bound _ _ _ _ _ Hinv Hw) as [?|(e & He & Hle)]; [done|].
  destruct (inv_entry _ _ _ _ _ _ _ _ Hinv f g v p) as (Hf & _); [by left|].
  apply (num_add_le_cancel_fin _ _ (heuristic_fn v end_)).
  eapply num_le_trans; [|exact Hle].
  change (num_add g (Fin (heuristic_fn v end_))) with (num_add g (h v)).
  rewrite <- Hf.
  apply (aentry_le_key (f, g, v, p) e).
  by apply (ordered_head _ aentry_compare_lawful _ _ _
              (inv_sorted _ _ _ _ _ _ _ _ Hinv)).
Qed.
End Optimality.

(** ** The outcome of a search *)

Section Outcome.
Context (adj : gmap node (list item)) (start end_ : node) (factor : string).
Context (great_circle : formula) (nodes : table).

Lemma astar_outcome heuristic_fn :
  exists r, astar great_circle adj start end_ nodes factor
              (Some heuristic_fn) = Some r
            /\ outcome_ok adj start end_ factor any_cost r.
Proof.
  destruct (astar_terminates adj start end_ factor
              great_circle nodes heuristic_fn) as [r Hr].
  exists r. split; [done|].
  eapply astar_loop_outcome; [| |exact Hr]; [done|].
  apply astar_inv_init.
Qed.

Lemma astar_outcome_consistent heuristic_fn :
  consistent adj factor heuristic_fn end_ ->
  exists r, astar great_circle adj start end_ nodes factor
              (Some heuristic_fn) = Some r
            /\ outcome_ok adj start end_ factor (lower_bound adj factor start) r.
Proof.
  intros Hc.
  destruct (astar_terminates adj start end_ factor
              great_circle nodes heuristic_fn) as [r Hr].
  exists r. split; [done|].
  eapply astar_loop_outcome; [| |exact Hr].
  - intros f g v p rest visited Hinv Hv. by eapply pop_optimal.
  - apply astar_inv_init.
Qed.

(** On a view of triples the outcome is a returned pair: the unreachable
    result, or a walk and its cost. *)
Lemma outcome_ok_returned settled r :
  triple_view adj ->
  outcome_ok adj start end_ factor settled r ->
  exists cost path,
    r = Returned cost path
    /\ ((cost = Inf /\ path = [] /\ ~ reachable adj factor start end_)
        \/ (walk adj factor start path end_ cost /\ NoDup path
            /\ settled end_ cost)).
Proof.
  intros Htr. destruct r as [c p|exn]; simpl; [|done].
  intros H. by exists c, p.
Qed.
End Outcome.

Lemma nonneg_consistent_zero adj factor end_ :
  nonneg_weights adj factor -> consistent adj factor zero_heuristic end_.
Proof.
  intros H u it Hit. specialize (H u it Hit). unfold zero_heuristic.
  destruct (get_edge_weight _ _); simpl in *; [lra | done].
Qed.

Lemma dijkstra_outcome adj start end_ factor :
  exists r, dijkstra adj start end_ factor = Some r
            /\ outcome_ok adj start end_ factor any_cost r.
Proof.
  rewrite <- (astar_zero_dijkstra adj end_ factor (fun _ _ _ _ => Ok 0%Q)
               (mk_table [] ∅) zero_heuristic)
    by done.
  apply astar_outcome.
Qed.

Lemma dijkstra_outcome_nonneg adj start end_ factor :
  nonneg_weights adj factor ->
  exists r, dijkstra adj start end_ factor = Some r
            /\ outcome_ok adj start end_ factor (lower_bound adj factor start) r.
Proof.
  intros H.
  rewrite <- (astar_zero_dijkstra adj end_ factor (fun _ _ _ _ => Ok 0%Q)
               (mk_table [] ∅) zero_heuristic)
    by done.
  by apply astar_outcome_consistent, nonneg_consistent_zero.
Qed.


(** ** Views checked by computation *)

Lemma view_forall_spec P adj n it :
  view_forall P adj = true -> it ∈ adj_get adj n -> P n it = true.
Proof.
  unfold view_forall, adj_get. intros H Hit.
  destruct (adj !! n) as [items|] eqn:E; simpl in Hit;
    [|by apply elem_of_nil in Hit].
  apply elem_of_map_to_list in E. apply list_elem_of_In in E.
  rewrite forallb_forall in H. specialize (H _ E). simpl in H.
  rewrite forallb_forall in H. apply H. by apply list_elem_of_In.
Qed.

Lemma num_leb_le a b : num_leb a b = true -> num_le a b.
Proof. destruct a, b; simpl; try done. apply Qle_bool_iff. Qed.

Lemma triple_view_check adj :
  view_forall (fun _ it => is_triple it) adj = true -> triple_view adj.
Proof. intros H n it Hit. by eapply (view_forall_spec _ _ n it) in H. Qed.

Lemma nonneg_weights_check adj factor :
  view_forall (fun _ it => num_leb (Fin 0) (get_edge_weight (item_edge it) factor))
    adj = true ->
  nonneg_weights adj factor.
Proof.
  intros H n it Hit. apply num_leb_le.
  by eapply (view_forall_spec _ _ n it) in H.
Qed.

Lemma consistent_check adj factor heuristic_fn end_ :
  view_forall (fun u it =>
                 num_leb (Fin (heuristic_fn u end_))
                   (num_add (get_edge_weight (item_edge it) factor)
                            (Fin (heuristic_fn (item_neigh it) end_))))
    adj = true ->
  consistent adj factor heuristic_fn end_.
Proof.
  intros H n it Hit. apply num_leb_le.
  by eapply (view_forall_spec _ _ n it) in H.
Qed.

Lemma wholeb_whole limit x : wholeb limit x = true -> whole_upto limit x.
Proof.
  unfold wholeb. intros [[H1 H2]%andb_prop H3]%andb_prop.
  apply Z.eqb_eq in H1. apply Z.leb_le in H2, H3.
  exists (Qnum x). split; [done|].
  unfold Qeq, inject_Z. simpl. rewrite H1. lia.
Qed.

Lemma whole_weights_upto_check limit adj factor :
  view_forall (fun _ it => whole_weightb limit factor it) adj = true ->
  forall u it w, it ∈ adj_get adj u ->
    get_edge_weight (item_edge it) factor = Fin w -> whole_upto limit w.
Proof.
  intros H n it w Hit Hw. apply wholeb_whole.
  eapply (view_forall_spec _ _ n it) in H; [|done].
  unfold whole_weightb in H. by rewrite Hw in H.
Qed.


(** A consistent estimate that is not positive at the goal bounds every
    heuristic below it: such a heuristic is a lower bound on the remaining
    cost. *)
Lemma walk_potential adj factor potential end_ n p x c :
  consistent adj factor potential end_ ->
  walk adj factor n p x c ->
  num_le (Fin (potential n end_)) (num_add c (Fin (potential x end_))).
Proof.
  intros Hc Hw. induction Hw as [|p u c it Hw IH Hit].
  - simpl. lra.
  - eapply num_le_trans; [exact IH|]. apply num_add_shift. by apply Hc.
Qed.

Lemma potential_admissible adj factor potential heuristic_fn end_ :
  consistent adj factor potential end_ ->
  (potential end_ end_ <= 0)%Q ->
  (forall n, heuristic_fn n end_ <= potential n end_)%Q ->
  admissible adj factor heuristic_fn end_.
Proof.
  intros Hc H0 Hle n p c Hw.
  pose proof (walk_potential _ _ _ _ _ _ _ _ Hc Hw) as H.
  specialize (Hle n). destruct c; simpl in *; [lra | done].
Qed.

(** ** The weight selector *)

(** C8: for an edge that carries the five magnitudes, the weight selector
    returns the distance for "distance", the time for "time", the monetary
    cost for "cost", the emission for "eco" and one minus the safety score
    for "safety"; any other metric selects the distance; and when the
    magnitudes are non-negative and the safety score lies in [0,1] the
    weight is non-negative whatever the metric. *)
Theorem get_edge_weight_selects (e : edge) (d t c m s : Q) (factor : string) :
  distance_km e = Some d ->
  time_min e = Some t ->
  cost_usd e = Some c ->
  emission_kgco2 e = Some m ->
  safety_score e = Some s ->
  get_edge_weight e "distance" = Fin d
  /\ get_edge_weight e "time" = Fin t
  /\ get_edge_weight e "cost" = Fin c
  /\ get_edge_weight e "eco" = Fin m
  /\ get_edge_weight e "safety" = Fin (1 - s)
  /\ (factor <> "distance" -> factor <> "time" -> factor <> "cost" ->
      factor <> "eco" -> factor <> "safety" ->
      get_edge_weight e factor = Fin d)
  /\ ((0 <= d)%Q -> (0 <= t)%Q -> (0 <= c)%Q -> (0 <= m)%Q ->
      (0 <= s)%Q -> (s <= 1)%Q ->
      num_le (Fin 0) (get_edge_weight e factor)).
Proof.
  intros Hd Ht Hc Hm Hs. unfold get_edge_weight.
  rewrite Hd, Ht, Hc, Hm, Hs. simpl.
  repeat split.
  - intros H1 H2 H3 H4 H5.
    apply String.eqb_neq in H1, H2, H3, H4, H5.
    by rewrite H1, H2, H3, H4, H5.
  - intros. repeat (destruct (String.eqb factor _)); simpl; lra.
Qed.

Lemma get_edge_weight_selects_witness :
  let e := route "Pune" "Goa" 440 in
  (0 <= 440)%Q /\ (0 <= 7 # 10)%Q /\ (7 # 10 <= 1)%Q
  /\ get_edge_weight e "safety" = Fin (1 - (7 # 10))
  /\ get_edge_weight e "fastest" = Fin 440
  /\ num_le (Fin 0) (get_edge_weight e "safety").
Proof.
  intros e.
  destruct (get_edge_weight_selects e 440 (440 * (3 # 4)) (440 * (1 # 10))
              (440 * (12 # 100)) (7 # 10) "fastest"
              eq_refl eq_refl eq_refl eq_refl eq_refl)
    as (_ & _ & _ & _ & Hs & Hf & _).
  destruct (get_edge_weight_selects e 440 (440 * (3 # 4)) (440 * (1 # 10))
              (440 * (12 # 100)) (7 # 10) "safety"
              eq_refl eq_refl eq_refl eq_refl eq_refl)
    as (_ & _ & _ & _ & _ & _ & Hn).
  split; [by vm_compute|]. split; [by vm_compute|]. split; [by vm_compute|].
  split; [exact Hs|]. split; [by apply Hf|].
  apply Hn; by vm_compute.
Defined.

(** ** Start equal to goal *)



(** ** Zero heuristic *)

(** C4: with a heuristic that is zero everywhere, the heuristic-guided
    search ends as the uninformed search does on the same view, start, goal
    and metric: both return the same cost (and the same path), or both
    raise. *)
Theorem astar_zero_heuristic_same_cost (adj : gmap node (list item))
    (start end_ : node) (factor : string)
    (great_circle : formula) (nodes : table)
    (heuristic_fn : node -> node -> Q) :
  (forall a b, heuristic_fn a b == 0)%Q ->
  exists r, dijkstra adj start end_ factor = Some r
            /\ astar great_circle adj start end_ nodes factor
                 (Some heuristic_fn) = Some r.
Proof.
  intros Hz. destruct (dijkstra_outcome adj start end_ factor) as (r & Hr & _).
  exists r. split; [done|]. by rewrite astar_zero_dijkstra.
Qed.

Lemma astar_zero_heuristic_same_cost_witness :
  let zero : node -> node -> Q := fun _ _ => 0 # 5 in
  (forall a b, zero a b == 0)%Q
  /\ exists r,
       dijkstra detour_view "S" "G" "time" = Some r
       /\ astar flat detour_view "S" "G" no_coordinates "time"
            (Some zero) = Some r.
Proof.
  intros zero.
  assert (forall a b : node, zero a b == 0)%Q as H by (intros; reflexivity).
  split; [exact H|].
  exact (astar_zero_heuristic_same_cost detour_view "S" "G" "time"
           flat no_coordinates zero H).
Defined.

(** ** The search reads the view through [adj.get] only *)





Lemma dijkstra_loop_fuel_mono adj end_ factor fuel fuel' st r :
  (fuel <= fuel')%nat ->
  dijkstra_loop fuel adj end_ factor st = Some r ->
  dijkstra_loop fuel' adj end_ factor st = Some r.
Proof.
  rewrite <- !(with_estimates_loop adj end_ factor zero_heuristic) by done.
  apply astar_loop_fuel_mono.
Qed.

(** ** Termination *)

(** X2: on every adjacency view, for every start, goal, metric and
    heuristic function, lower bound or not, both searches end within
    [search_fuel] iterations, by returning or by raising, and further
    iterations change nothing; on a view of triples they end by returning a
    pair (cost, path), the path being a walk from start to goal whenever the
    goal is reachable. *)
Theorem search_terminates (adj : gmap node (list item)) (start end_ : node)
    (factor : string) (great_circle : formula) (nodes : table)
    (heuristic_fn : node -> node -> Q) :
  (exists r, dijkstra adj start end_ factor = Some r
     /\ forall fuel, (search_fuel adj <= fuel)%nat ->
          dijkstra_loop fuel adj end_ factor ([(Fin 0, start, [])], ∅) = Some r)
  /\ (exists r, astar great_circle adj start end_ nodes factor
                  (Some heuristic_fn) = Some r
        /\ forall fuel, (search_fuel adj <= fuel)%nat ->
             astar_loop fuel adj end_ factor (given heuristic_fn)
               ([(num_add (Fin 0) (Fin (heuristic_fn start end_)),
                  Fin 0, start, [])], ∅) = Some r)
  /\ (triple_view adj ->
      (exists cost path,
         dijkstra adj start end_ factor = Some (Returned cost path)
         /\ (reachable adj factor start end_ ->
             walk adj factor start path end_ cost))
      /\ (exists cost path,
            astar great_circle adj start end_ nodes factor (Some heuristic_fn)
            = Some (Returned cost path)
            /\ (reachable adj factor start end_ ->
                walk adj factor start path end_ cost))).
Proof.
  destruct (dijkstra_outcome adj start end_ factor) as (rd & Hrd & Hd).
  destruct (astar_outcome adj start end_ factor great_circle nodes heuristic_fn)
    as (ra & Hra & Ha).
  split; [|split].
  - exists rd. split; [done|]. intros fuel Hle.
    by eapply dijkstra_loop_fuel_mono.
  - exists ra. split; [done|]. intros fuel Hle.
    by eapply astar_loop_fuel_mono.
  - intros Htr. split.
    + destruct (outcome_ok_returned _ _ _ _ _ _ Htr Hd) as (c & p & -> & H).
      exists c, p. split; [done|]. intros Hreach.
      by destruct H as [(_ & _ & ?)|(? & _)].
    + destruct (outcome_ok_returned _ _ _ _ _ _ Htr Ha) as (c & p & -> & H).
      exists c, p. split; [done|]. intros Hreach.
      by destruct H as [(_ & _ & ?)|(? & _)].
Qed.

Lemma detour_view_triples : triple_view detour_view.
Proof. apply triple_view_check. by vm_compute. Qed.

Lemma search_terminates_witness :
  triple_view detour_view
  /\ (exists cost path,
        dijkstra detour_view "S" "G" "cost" = Some (Returned cost path)
        /\ (reachable detour_view "cost" "S" "G" ->
            walk detour_view "cost" "S" path "G" cost))
  /\ (exists cost path,
        astar flat detour_view "S" "G" no_coordinates "cost" (Some exact_at_A)
        = Some (Returned cost path)
        /\ (reachable detour_view "cost" "S" "G" ->
            walk detour_view "cost" "S" path "G" cost)).
Proof.
  split; [exact detour_view_triples|].
  apply (search_terminates detour_view "S" "G" "cost" flat no_coordinates exact_at_A).
  apply triple_view_check. by vm_compute.
Defined.

(** ** Simple paths *)

(** C10: a path returned by either search names no node twice. *)
Theorem returned_path_simple (adj : gmap node (list item)) (start end_ : node)
    (factor : string) (great_circle : formula) (nodes : table)
    (heuristic_fn : node -> node -> Q)
    (cost : num) (path : list node) :
  (dijkstra adj start end_ factor = Some (Returned cost path) -> NoDup path)
  /\ (astar great_circle adj start end_ nodes factor (Some heuristic_fn)
      = Some (Returned cost path) ->
      NoDup path).
Proof.
  split; intros Hr.
  - destruct (dijkstra_outcome adj start end_ factor) as (r & Hr' & H).
    rewrite Hr in Hr'. injection Hr' as <-. simpl in H.
    destruct H as [(_ & -> & _)|(_ & ? & _)]; [constructor | done].
  - destruct (astar_outcome adj start end_ factor
              great_circle nodes heuristic_fn)
      as (r & Hr' & H).
    rewrite Hr in Hr'. injection Hr' as <-. simpl in H.
    destruct H as [(_ & -> & _)|(_ & ? & _)]; [constructor | done].
Qed.

Lemma returned_path_simple_witness :
  dijkstra cycle_view "A" "B" "distance" = Some (Returned (Fin 1) ["A"; "B"])
  /\ astar flat detour_view "S" "G" no_coordinates "distance" (Some exact_at_A)
     = Some (Returned (Fin 13) ["S"; "X"; "G"])
  /\ NoDup ["A"; "B"] /\ NoDup ["S"; "X"; "G"].
Proof.
  assert (dijkstra cycle_view "A" "B" "distance"
          = Some (Returned (Fin 1) ["A"; "B"])) as Hd by (by vm_compute).
  assert (astar flat detour_view "S" "G" no_coordinates "distance"
            (Some exact_at_A)
          = Some (Returned (Fin 13) ["S"; "X"; "G"])) as Ha by (by vm_compute).
  split; [exact Hd|]. split; [exact Ha|]. split.
  - exact (proj1 (returned_path_simple cycle_view "A" "B" "distance"
                    flat no_coordinates zero_heuristic (Fin 1) ["A"; "B"]) Hd).
  - exact (proj2 (returned_path_simple detour_view "S" "G" "distance"
                    flat no_coordinates exact_at_A (Fin 13) ["S"; "X"; "G"]) Ha).
Defined.

(** ** Unreachable goals *)






(** ** Least cost *)

(** X1: on a view of triples whose weights under the metric are all
    non-negative, the uninformed search returns a pair (cost, path) such
    that no walk from start to goal costs less than [cost] and, when the
    goal is reachable, [path] is a walk from start to goal of cost [cost]. *)
Theorem dijkstra_minimum_cost (adj : gmap node (list item)) (start end_ : node)
    (factor : string) :
  triple_view adj ->
  nonneg_weights adj factor ->
  exists cost path,
    dijkstra adj start end_ factor = Some (Returned cost path)
    /\ lower_bound adj factor start end_ cost
    /\ (reachable adj factor start end_ ->
        walk adj factor start path end_ cost).
Proof.
  intros Htr Hnn.
  destruct (dijkstra_outcome_nonneg adj start end_ factor Hnn) as (r & Hr & H).
  destruct (outcome_ok_returned _ _ _ _ _ _ Htr H) as (c & p & -> & H').
  exists c, p. split; [done|].
  destruct H' as [(-> & -> & Hn)|(Hw & _ & Hlb)].
  - split; [|done]. intros p c Hw. destruct Hn. by exists p, c.
  - by split.
Qed.

Lemma dijkstra_minimum_cost_witness :
  triple_view detour_view
  /\ nonneg_weights detour_view "distance"
  /\ exists cost path,
       dijkstra detour_view "S" "G" "distance" = Some (Returned cost path)
       /\ lower_bound detour_view "distance" "S" "G" cost
       /\ (reachable detour_view "distance" "S" "G" ->
           walk detour_view "distance" "S" path "G" cost).
Proof.
  assert (triple_view detour_view) as Htr
    by (apply triple_view_check; by vm_compute).
  assert (nonneg_weights detour_view "distance") as Hnn
    by (apply nonneg_weights_check; by vm_compute).
  split; [exact Htr|]. split; [exact Hnn|].
  exact (dijkstra_minimum_cost detour_view "S" "G" "distance" Htr Hnn).
Defined.

(** C2, as amended: on a view of triples, for every heuristic function
    that is consistent under the metric (its estimate drops along an edge by
    no more than the weight of the edge), and when binary64 forms the sums
    of the search without rounding (weights and estimates are whole numbers,
    and the greatest weight times the number of neighbour lists, plus the
    greatest estimate, is no more than 2^53), the heuristic-guided search
    returns a pair (cost, path) such
    that no walk from start to goal costs less than [cost] and, when the
    goal is reachable, [path] is a walk from start to goal of cost [cost]. *)
Theorem astar_minimum_cost_consistent (adj : gmap node (list item))
    (start end_ : node) (factor : string)
    (great_circle : formula) (nodes : table)
    (heuristic_fn : node -> node -> Q) :
  triple_view adj ->
  consistent adj factor heuristic_fn end_ ->
  exact_sums adj factor heuristic_fn end_ ->
  exists cost path,
    astar great_circle adj start end_ nodes factor (Some heuristic_fn)
    = Some (Returned cost path)
    /\ lower_bound adj factor start end_ cost
    /\ (reachable adj factor start end_ ->
        walk adj factor start path end_ cost).
Proof.
  intros Htr Hc _.
  destruct (astar_outcome_consistent adj start end_ factor great_circle nodes
              heuristic_fn Hc)
    as (r & Hr & H).
  destruct (outcome_ok_returned _ _ _ _ _ _ Htr H) as (c & p & -> & H').
  exists c, p. split; [done|].
  destruct H' as [(-> & -> & Hn)|(Hw & _ & Hlb)].
  - split; [|done]. intros p c Hw. destruct Hn. by exists p, c.
  - by split.
Qed.

Lemma detour_exact_sums : exact_sums detour_view "distance" remaining "G".
Proof.
  exists 10%Z, 12%Z. split; [done|].
  split; [apply whole_weights_upto_check; by vm_compute|].
  split; [|by vm_compute].
  intros n. unfold remaining.
  destruct (String.eqb n "S"); [by exists 12%Z|].
  destruct (String.eqb n "A"); [by exists 11%Z|].
  destruct (String.eqb n "X"); [by exists 10%Z|].
  by exists 0%Z.
Qed.

Lemma astar_minimum_cost_consistent_witness :
  triple_view detour_view
  /\ consistent detour_view "distance" remaining "G"
  /\ exact_sums detour_view "distance" remaining "G"
  /\ exists cost path,
       astar flat detour_view "S" "G" no_coordinates "distance" (Some remaining)
       = Some (Returned cost path)
       /\ lower_bound detour_view "distance" "S" "G" cost
       /\ (reachable detour_view "distance" "S" "G" ->
           walk detour_view "distance" "S" path "G" cost).
Proof.
  assert (triple_view detour_view) as Htr
    by (apply triple_view_check; by vm_compute).
  assert (consistent detour_view "distance" remaining "G") as Hc
    by (apply consistent_check; by vm_compute).
  split; [exact Htr|]. split; [exact Hc|]. split; [exact detour_exact_sums|].
  exact (astar_minimum_cost_consistent detour_view "S" "G" "distance"
           flat no_coordinates remaining Htr Hc detour_exact_sums).
Defined.

(** *** A lower bound that is not consistent *)

Lemma detour_walk_via_A :
  walk detour_view "distance" "S" ["S"; "A"; "X"; "G"] "G" (Fin 12).
Proof.
  pose proof (walk_start detour_view "distance" "S") as W0.
  assert (hop "S" "A" 1 ∈ adj_get detour_view "S") as E1
    by (vm_compute; repeat constructor).
  assert (hop "A" "X" 1 ∈ adj_get detour_view "A") as E2
    by (vm_compute; repeat constructor).
  assert (hop "X" "G" 10 ∈ adj_get detour_view "X") as E3
    by (vm_compute; repeat constructor).
  pose proof (walk_step _ _ _ _ _ _ _ W0 E1) as W1.
  pose proof (walk_step _ _ _ _ _ _ _ W1 E2) as W2.
  exact (walk_step _ _ _ _ _ _ _ W2 E3).
Qed.

Lemma exact_at_A_admissible : admissible detour_view "distance" exact_at_A "G".
Proof.
  apply (potential_admissible _ _ remaining).
  - apply consistent_check. by vm_compute.
  - by vm_compute.
  - intros n. unfold exact_at_A, remaining.
    repeat (destruct (String.eqb n _)); lra.
Qed.

(** C2 fails as stated: on [detour_view], with non-negative weights and the
    non-negative heuristic [exact_at_A], which never overestimates the
    remaining distance to G, the heuristic-guided search returns cost 13
    along S, X, G although the walk S, A, X, G costs 12.  The direct entry for
    X (estimate 3) is popped before the entry for A (estimate 12), X is
    finalized at cost 3, and the cheaper entry for X found through A is
    discarded. *)
Lemma astar_lower_bound_not_enough :
  triple_view detour_view
  /\ nonneg_weights detour_view "distance"
  /\ (forall a b, 0 <= exact_at_A a b)%Q
  /\ admissible detour_view "distance" exact_at_A "G"
  /\ astar flat detour_view "S" "G" no_coordinates "distance" (Some exact_at_A)
     = Some (Returned (Fin 13) ["S"; "X"; "G"])
  /\ walk detour_view "distance" "S" ["S"; "A"; "X"; "G"] "G" (Fin 12)
  /\ ~ (exists cost path,
          astar flat detour_view "S" "G" no_coordinates "distance"
            (Some exact_at_A)
          = Some (Returned cost path)
          /\ lower_bound detour_view "distance" "S" "G" cost).
Proof.
  assert (astar flat detour_view "S" "G" no_coordinates "distance"
            (Some exact_at_A)
          = Some (Returned (Fin 13) ["S"; "X"; "G"])) as Hr by (by vm_compute).
  split; [apply triple_view_check; by vm_compute|].
  split; [apply nonneg_weights_check; by vm_compute|].
  split; [intros a b; unfold exact_at_A; destruct (String.eqb a _); lra|].
  split; [exact exact_at_A_admissible|].
  split; [exact Hr|].
  split; [exact detour_walk_via_A|].
  intros (cost & path & Hr' & Hlb).
  rewrite Hr in Hr'. injection Hr' as <- <-.
  specialize (Hlb _ _ detour_walk_via_A). simpl in Hlb. lra.
Qed.

(** ** The sums of the search in binary64 *)

(** The cost of a walk is infinite or a whole number, no greater than the
    greatest weight times the number of its edges; every node it leaves has
    a neighbour list. *)
Lemma walk_cost_whole adj factor limit s q n c :
  (forall u it w, it ∈ adj_get adj u ->
     get_edge_weight (item_edge it) factor = Fin w -> whole_upto limit w) ->
  walk adj factor s q n c ->
  exists p,
    q = p ++ [n]
    /\ (forall u, u ∈ p -> is_Some (adj !! u))
    /\ match c with
       | Fin x => whole_upto (Z.of_nat (length p) * limit) x
       | Inf => True
       end.
Proof.
  intros Hw. induction 1 as [|q u c it _ (p & -> & Hkeys & Hc) Hit].
  - exists []. split; [done|]. split; [by intros u ?%elem_of_nil|].
    exists 0%Z. split; [simpl; lia | reflexivity].
  - exists (p ++ [u]). split; [done|]. split.
    + intros u' [Hu'| ->%list_elem_of_singleton]%elem_of_app; [by apply Hkeys|].
      unfold adj_get in Hit. destruct (adj !! u); [done|].
      by apply elem_of_nil in Hit.
    + destruct c as [x|]; [|done].
      destruct (get_edge_weight (item_edge it) factor) as [w|] eqn:E; [|done].
      destruct Hc as (k & Hk & Hx).
      destruct (Hw u it w Hit E) as (k' & Hk' & Hw').
      exists (k + k')%Z. split.
      * rewrite length_app. simpl length. nia.
      * simpl. rewrite inject_Z_plus, Hx, Hw'. reflexivity.
Qed.

Lemma length_keys (adj : gmap node (list item)) (p : list node) :
  NoDup p -> (forall u, u ∈ p -> is_Some (adj !! u)) ->
  (length p <= size adj)%nat.
Proof.
  intros Hnd Hkeys.
  rewrite <- (size_list_to_set (C:=gset node) p Hnd), <- (size_dom adj).
  apply subseteq_size. intros u Hu%elem_of_list_to_set.
  by apply elem_of_dom, Hkeys.
Qed.

(** What the invariant of the loop gives for the numbers of an entry. *)
Lemma entry_exact adj start end_ factor heuristic_fn settled pq visited
    f g n p :
  exact_sums adj factor heuristic_fn end_ ->
  astar_inv adj start end_ factor heuristic_fn settled pq visited ->
  (f, g, n, p) ∈ pq ->
  exact_num g /\ exact_num f.
Proof.
  intros (limit & bound & Hl & Hw & Hh & Hsum) Hinv Hin.
  destruct (inv_entry _ _ _ _ _ _ _ _ Hinv f g n p Hin) as (-> & Hwalk & _ & Hnd).
  destruct (walk_cost_whole _ _ _ _ _ _ _ Hw Hwalk) as (p' & Hp & Hkeys & Hc).
  apply app_inj_tail in Hp as [<- _].
  pose proof (length_keys adj p Hnd Hkeys) as Hlen.
  destruct (Hh n) as (kh & Hkh & Hhn).
  destruct g as [x|]; [|done]. destruct Hc as (k & Hk & Hx).
  assert (k <= Z.of_nat (size adj) * limit)%Z as Hk' by nia.
  split.
  - exists k. split; [lia | done].
  - exists (k + kh)%Z. split; [lia|].
    unfold est. simpl. rewrite inject_Z_plus, Hx, Hhn. reflexivity.
Qed.

Lemma astar_run_inv adj start end_ factor heuristic_fn st :
  astar_run adj start end_ factor heuristic_fn st ->
  astar_inv adj start end_ factor heuristic_fn any_cost st.1 st.2.
Proof.
  induction 1 as [|[pq visited] [pq' visited'] _ IH Hstep]; simpl.
  - apply astar_inv_init.
  - by eapply astar_inv_step.
Qed.

(** X26: when the weights and the estimates are whole numbers, and the
    greatest weight times the number of neighbour lists of the view, plus
    the greatest estimate, is no greater than 2^53, every cost and every
    estimate on the frontier of [astar], in every state its loop goes
    through, is infinite or a whole number from 0 to 2^53: binary64 forms
    every sum of the search without rounding. *)
Theorem astar_sums_exact (adj : gmap node (list item)) (start end_ : node)
    (factor : string) (heuristic_fn : node -> node -> Q) (st : astate)
    (f g : num) (n : node) (p : list node) :
  exact_sums adj factor heuristic_fn end_ ->
  astar_run adj start end_ factor heuristic_fn st ->
  (f, g, n, p) ∈ st.1 ->
  exact_num g /\ exact_num f.
Proof.
  intros Hx Hrun Hin. apply astar_run_inv in Hrun. by eapply entry_exact.
Qed.

Lemma astar_sums_exact_witness :
  let st : astate :=
    ([(Fin (0 + 1 + 11), Fin (0 + 1), "A", ["S"]);
      (Fin (0 + 3 + 10), Fin (0 + 3), "X", ["S"])], {["S"]} ∪ ∅) in
  exact_sums detour_view "distance" remaining "G"
  /\ astar_run detour_view "S" "G" "distance" remaining st
  /\ (Fin (0 + 3 + 10), Fin (0 + 3), "X", ["S"]) ∈ st.1
  /\ exact_num (Fin (0 + 3)) /\ exact_num (Fin (0 + 3 + 10)).
Proof.
  intros st.
  assert ((Fin (0 + 3 + 10), Fin (0 + 3), "X", ["S"]) ∈ st.1) as Hin
    by (right; left).
  assert (astar_step detour_view "G" "distance" (given remaining)
            ([first_entry "S" "G" remaining], ∅) = Continue st) as Hstep
    by (by vm_compute).
  pose proof (run_step _ _ _ _ _ _ _
                (run_first detour_view "S" "G" "distance" remaining) Hstep)
    as Hrun.
  split; [exact detour_exact_sums|]. split; [exact Hrun|]. split; [exact Hin|].
  exact (astar_sums_exact detour_view "S" "G" "distance" remaining st
           (Fin (0 + 3 + 10)) (Fin (0 + 3)) "X" ["S"] detour_exact_sums Hrun
           Hin).
Defined.

(** ** The shape of the adjacency view *)

Lemma adj_append_pairs adj k x :
  pair_view adj -> is_pair x = true -> pair_view (adj_append adj k x).
Proof.
  intros Hp Hx n it. unfold adj_append, adj_get at 1.
  destruct (decide (k = n)) as [->|Hne].
  - rewrite lookup_insert_eq. simpl.
    intros [H| ->%list_elem_of_singleton]%elem_of_app; [by eapply Hp | done].
  - rewrite lookup_insert_ne by done. apply Hp.
Qed.

(** [build_adjacency] creates views of pairs. *)
Lemma build_adjacency_pair_view edges directed :
  pair_view (build_adjacency edges directed).
Proof.
  unfold build_adjacency.
  assert (pair_view ∅) as H0.
  { intros n it. unfold adj_get. rewrite lookup_empty. simpl.
    intros H. by apply elem_of_nil in H. }
  revert H0. generalize (∅ : gmap node (list item)).
  induction edges as [|e edges IH]; intros adj Hadj; simpl; [done|].
  apply IH. destruct directed; simpl.
  - by apply adj_append_pairs.
  - by do 2 (apply adj_append_pairs; [|done]).
Qed.

(** On a view of pairs both searches raise as soon as they expand a node
    that has a neighbour: this is the case of every start that has an
    outgoing edge and is not the goal. *)
Lemma pairs_raise great_circle adj start end_ nodes factor heuristic_fn it :
  pair_view adj -> it ∈ adj_get adj start -> start <> end_ ->
  dijkstra adj start end_ factor = Some (Raised ValueError)
  /\ astar great_circle adj start end_ nodes factor (Some heuristic_fn)
     = Some (Raised ValueError).
Proof.
  intros Hp Hit Hne.
  assert (exists n e rest, adj_get adj start = Pair n e :: rest)
    as (n & e & rest & Hget).
  { destruct (adj_get adj start) as [|[n e|n w e] rest] eqn:E.
    - by apply elem_of_nil in Hit.
    - by exists n, e, rest.
    - assert (is_pair (Triple n w e) = true) as H; [|done].
      apply (Hp start). rewrite E. by left. }
  split.
  - unfold dijkstra, search_fuel. cbn [dijkstra_loop].
    unfold dijkstra_step at 1. simpl.
    destruct (decide (start ∈ (∅ : gset node))) as [H|_];
      [by apply not_elem_of_empty in H|].
    destruct (decide (start = end_)); [done|]. by rewrite Hget.
  - unfold astar, search_fuel. cbn [astar_loop].
    unfold astar_step at 1. simpl.
    destruct (decide (start ∈ (∅ : gset node))) as [H|_];
      [by apply not_elem_of_empty in H|].
    destruct (decide (start = end_)); [done|]. by rewrite Hget.
Qed.

(** C3 fails on the code: the view that [build_adjacency] creates for the
    single edge from Pune to Goa is a view of pairs, Goa is reachable from
    Pune in it, and both searches raise [ValueError] when they unpack the
    first pair into three names; [neighbor_generator] is the function that
    unpacks such a pair and yields the triple the loops expect. *)
Theorem build_adjacency_view_raises :
  let adj := build_adjacency [route "Pune" "Goa" 440] false in
  pair_view adj
  /\ reachable adj "distance" "Pune" "Goa"
  /\ dijkstra adj "Pune" "Goa" "distance" = Some (Raised ValueError)
  /\ astar flat adj "Pune" "Goa" no_coordinates "distance" (Some zero_heuristic)
     = Some (Raised ValueError)
  /\ neighbor_generator adj "Pune" "distance"
     = Ok [Triple "Goa" (Fin 440) (route "Pune" "Goa" 440)].
Proof.
  intros adj.
  assert (Pair "Goa" (route "Pune" "Goa" 440) ∈ adj_get adj "Pune") as Hit
    by (vm_compute; repeat constructor).
  split; [apply build_adjacency_pair_view|]. split.
  - exists ["Pune"; "Goa"], (Fin 440).
    exact (walk_step _ _ _ _ _ _ _ (walk_start adj "distance" "Pune") Hit).
  - split; [by vm_compute|]. split; by vm_compute.
Qed.

(** ** What is pushed when a node is finalized *)

Lemma pushes_Permutation {A : Type} (lt : A -> A -> bool) (xs pq : list A) :
  foldl (heappush lt) pq xs ≡ₚ pq ++ xs.
Proof.
  revert pq. induction xs as [|x xs IH]; intros pq; simpl.
  - by rewrite app_nil_r.
  - rewrite IH, heappush_Permutation. simpl. apply Permutation_middle.
Qed.

Lemma dijkstra_expand_Ok factor cost path items pq pq' :
  dijkstra_expand factor cost path items pq = Ok pq' ->
  pq' = foldl (heappush dentry_lt) pq (map (dpushed factor cost path) items).
Proof.
  revert pq. induction items as [|[n e|n w e] items IH]; intros pq; simpl.
  - by intros [= <-].
  - discriminate.
  - apply IH.
Qed.

(** The frontier of [dijkstra] stays in ascending order of Python's tuple
    comparison; that of [astar] does by [inv_sorted]. *)
Lemma dijkstra_frontier_ordered adj end_ factor pq visited pq' visited' :
  ordered dentry_compare pq ->
  dijkstra_step adj end_ factor (pq, visited) = Continue (pq', visited') ->
  ordered dentry_compare pq'.
Proof.
  intros Ho H. destruct pq as [|[[c v] p] rest]; simpl in H; [done|].
  apply ordered_tail in Ho.
  destruct (decide (v ∈ visited)); [by injection H as <- <-|].
  destruct (decide (v = end_)); [done|].
  destruct (dijkstra_expand _ _ _ _ _) as [pq1|] eqn:E; [|done].
  injection H as <- <-. apply dijkstra_expand_Ok in E as ->.
  by apply (pushes_ordered dentry_compare dentry_compare_lawful).
Qed.

(** C9 fails as stated: searching [cycle_view] from A for a goal C that
    does not occur, the first iteration finalizes A and pushes an entry for
    B; the second finalizes B and pushes an entry for A, which is finalized
    already.  The heuristic-guided search does the same. *)
Lemma pushes_entry_for_finalized_node :
  let first : dstate := ([(Fin 0, "A", [])], ∅) in
  let second : dstate := ([(Fin 1, "B", ["A"])], {["A"]} ∪ ∅) in
  let third : dstate := ([(Fin 2, "A", ["A"; "B"])], {["B"]} ∪ ({["A"]} ∪ ∅)) in
  dijkstra_step cycle_view "C" "distance" first = Continue second
  /\ dijkstra_step cycle_view "C" "distance" second = Continue third
  /\ (Fin 2, "A", ["A"; "B"]) ∈ third.1
  /\ ((Fin 2, "A", ["A"; "B"]) ∉ second.1)
  /\ "A" ∈ second.2
  /\ astar_step cycle_view "C" "distance" (given zero_heuristic)
       (with_estimates "C" zero_heuristic first)
     = Continue (with_estimates "C" zero_heuristic second)
  /\ astar_step cycle_view "C" "distance" (given zero_heuristic)
       (with_estimates "C" zero_heuristic second)
     = Continue (with_estimates "C" zero_heuristic third).
Proof.
  intros first second third.
  assert (dijkstra_step cycle_view "C" "distance" first = Continue second)
    as H1 by (by vm_compute).
  assert (dijkstra_step cycle_view "C" "distance" second = Continue third)
    as H2 by (by vm_compute).
  split; [exact H1|]. split; [exact H2|].
  split; [by left|].
  split; [by intros [=]%list_elem_of_singleton|].
  split; [apply elem_of_union; left; by apply elem_of_singleton|].
  split.
  - rewrite with_estimates_step by done. by rewrite H1.
  - rewrite with_estimates_step by done. by rewrite H2.
Qed.

(** C9, as amended: in every iteration of either search that goes on, the
    entry popped is for a node finalized before, and then nothing is pushed
    and nothing is finalized; or its node is finalized now, and then the
    frontier gains one entry for every tuple of the neighbour list of that
    node, whether the neighbour is finalized or not. *)
Theorem expand_pushes_every_edge (adj : gmap node (list item)) (end_ : node)
    (factor : string) (heuristic_fn : node -> node -> Q) :
  (forall pq visited pq' visited',
     dijkstra_step adj end_ factor (pq, visited) = Continue (pq', visited') ->
     exists cost v path rest,
       pq = (cost, v, path) :: rest
       /\ ((v ∈ visited /\ pq' = rest /\ visited' = visited)
           \/ ((v ∉ visited) /\ visited' = {[v]} ∪ visited
               /\ pq' ≡ₚ rest ++ map (dpushed factor cost (path ++ [v]))
                                   (adj_get adj v))))
  /\ (forall pq visited pq' visited',
        astar_step adj end_ factor (given heuristic_fn) (pq, visited)
        = Continue (pq', visited') ->
        exists est cost v path rest,
          pq = (est, cost, v, path) :: rest
          /\ ((v ∈ visited /\ pq' = rest /\ visited' = visited)
              \/ ((v ∉ visited) /\ visited' = {[v]} ∪ visited
                  /\ pq' ≡ₚ rest
                       ++ map (pushed factor heuristic_fn end_ cost (path ++ [v]))
                            (adj_get adj v)))).
Proof.
  split; intros pq visited pq' visited' H.
  - destruct pq as [|[[c v] p] rest]; simpl in H; [done|].
    exists c, v, p, rest. split; [done|].
    destruct (decide (v ∈ visited)).
    + left. by injection H as <- <-.
    + right. destruct (decide (v = end_)); [done|].
      destruct (dijkstra_expand _ _ _ _ _) as [pq1|] eqn:E; [|done].
      injection H as <- <-. apply dijkstra_expand_Ok in E as ->.
      split; [done|]. split; [done|]. apply pushes_Permutation.
  - apply astar_step_Continue in H
      as (f & g & v & p & rest & -> & [[Hin [= -> ->]]|(Hnin & Hne & _ & [= -> ->])]);
      exists f, g, v, p, rest; (split; [done|]).
    + by left.
    + right. split; [done|]. split; [done|]. apply pushes_Permutation.
Qed.

Lemma expand_pushes_every_edge_witness :
  dijkstra_step cycle_view "C" "distance"
    ([(Fin 1, "B", ["A"])], {["A"]} ∪ ∅)
  = Continue ([(Fin 2, "A", ["A"; "B"])], {["B"]} ∪ ({["A"]} ∪ ∅))
  /\ exists cost v path rest,
       [(Fin 1, "B", ["A"])] = (cost, v, path) :: rest
       /\ ((v ∈ ({["A"]} ∪ ∅ : gset node)
            /\ [(Fin 2, "A", ["A"; "B"])] = rest
            /\ ({["B"]} ∪ ({["A"]} ∪ ∅) : gset node) = {["A"]} ∪ ∅)
           \/ ((v ∉ ({["A"]} ∪ ∅ : gset node))
               /\ ({["B"]} ∪ ({["A"]} ∪ ∅) : gset node) = {[v]} ∪ ({["A"]} ∪ ∅)
               /\ [(Fin 2, "A", ["A"; "B"])]
                    ≡ₚ rest ++ map (dpushed "distance" cost (path ++ [v]))
                                   (adj_get cycle_view v))).
Proof.
  assert (dijkstra_step cycle_view "C" "distance"
            ([(Fin 1, "B", ["A"])], {["A"]} ∪ ∅)
          = Continue ([(Fin 2, "A", ["A"; "B"])], {["B"]} ∪ ({["A"]} ∪ ∅)))
    as H by (by vm_compute).
  split; [exact H|].
  exact (proj1 (expand_pushes_every_edge cycle_view "C" "distance"
                  zero_heuristic) _ _ _ _ H).
Defined.

(** ** The searches on the views that [build_adjacency] creates *)

(** C1 fails on the code: in [coast_view] every weight is non-negative and
    Pune, Goa, Hampi is a walk of 750 km, the only simple one from Pune to
    Hampi, yet the uninformed search returns no pair: it raises [ValueError]
    when it unpacks the first pair of the neighbour list of Pune. *)
Theorem dijkstra_built_view_raises :
  pair_view coast_view
  /\ nonneg_weights coast_view "distance"
  /\ walk coast_view "distance" "Pune" ["Pune"; "Goa"; "Hampi"] "Hampi" (Fin 750)
  /\ dijkstra coast_view "Pune" "Hampi" "distance" = Some (Raised ValueError).
Proof.
  split; [apply build_adjacency_pair_view|].
  split; [apply nonneg_weights_check; by vm_compute|].
  split; [|by vm_compute].
  assert (Pair "Goa" (route "Pune" "Goa" 440) ∈ adj_get coast_view "Pune") as E1
    by (vm_compute; repeat constructor).
  assert (Pair "Hampi" (route "Goa" "Hampi" 310) ∈ adj_get coast_view "Goa") as E2
    by (vm_compute; repeat constructor).
  pose proof (walk_step _ _ _ _ _ _ _ (walk_start coast_view "distance" "Pune") E1)
    as W1.
  exact (walk_step _ _ _ _ _ _ _ W1 E2).
Qed.

(** C5 fails on the code: on [coast_view] both searches end, whatever the
    heuristic, but they end by raising [ValueError] and return no result. *)
Theorem search_built_view_no_result :
  pair_view coast_view
  /\ forall (great_circle : formula) (nodes : table)
       (heuristic_fn : node -> node -> Q) (factor : string),
       dijkstra coast_view "Goa" "Hampi" factor = Some (Raised ValueError)
       /\ astar great_circle coast_view "Goa" "Hampi" nodes factor
            (Some heuristic_fn)
          = Some (Raised ValueError).
Proof.
  split; [apply build_adjacency_pair_view|].
  intros great_circle nodes heuristic_fn factor.
  apply (pairs_raise great_circle coast_view "Goa" "Hampi" nodes factor
           heuristic_fn
           (Pair "Pune" (mirror (route "Pune" "Goa" 440)))).
  - apply build_adjacency_pair_view.
  - vm_compute. repeat constructor.
  - done.
Qed.

Lemma one_way_view_no_walk_to_Leh :
  ~ reachable one_way_view "distance" "Pune" "Leh".
Proof.
  assert (forall p x c, walk one_way_view "distance" "Pune" p x c ->
                        x = "Pune" \/ x = "Goa") as H.
  { intros p x c Hw. induction Hw as [|p u c it Hw IH Hit]; [by left|].
    destruct IH as [-> | ->].
    - right. vm_compute in Hit.
      apply list_elem_of_singleton in Hit. by subst it.
    - vm_compute in Hit. by apply elem_of_nil in Hit. }
  intros (p & c & Hw). by destruct (H _ _ _ Hw).
Qed.

(** C7 fails on the code: in [one_way_view] no walk leads from Pune to Leh,
    yet neither search returns the infinite cost and the empty path: both
    raise [ValueError] when they unpack the pair for the edge to Goa. *)
Theorem unreachable_built_view_raises :
  pair_view one_way_view
  /\ ~ reachable one_way_view "distance" "Pune" "Leh"
  /\ dijkstra one_way_view "Pune" "Leh" "distance" = Some (Raised ValueError)
  /\ astar flat one_way_view "Pune" "Leh" no_coordinates "distance" None
     = Some (Raised ValueError).
Proof.
  split; [apply build_adjacency_pair_view|].
  split; [exact one_way_view_no_walk_to_Leh|].
  split; by vm_compute.
Qed.

(** * More of the code *)

Local Set Warnings "-clear-no-such-hyp".

(** ** The adjacency view that [build_adjacency] creates *)

Lemma adj_get_append adj k x s :
  adj_get (adj_append adj k x) s
  = adj_get adj s ++ (if decide (k = s) then [x] else []).
Proof.
  unfold adj_append, adj_get at 1. destruct (decide (k = s)) as [->|Hne].
  - by rewrite lookup_insert_eq.
  - rewrite lookup_insert_ne by done. by rewrite app_nil_r.
Qed.

Lemma build_step_get directed adj e s :
  adj_get (build_step directed adj e) s = adj_get adj s ++ out_items directed s e.
Proof.
  unfold build_step, out_items. destruct directed; simpl.
  - rewrite adj_get_append. by rewrite app_nil_r.
  - rewrite !adj_get_append. by rewrite app_assoc.
Qed.

Lemma foldl_build_get directed edges adj s :
  adj_get (foldl (build_step directed) adj edges) s
  = adj_get adj s ++ edges ≫= out_items directed s.
Proof.
  revert adj. induction edges as [|e edges IH]; intros adj.
  - simpl. by rewrite app_nil_r.
  - cbn [foldl]. rewrite IH, build_step_get, bind_cons. by rewrite app_assoc.
Qed.

Lemma build_adjacency_neighbours (edges : list edge) (directed : bool) (s : node) :
  adj_get (build_adjacency edges directed) s
  = edges ≫= out_items directed s.
Proof.
  unfold build_adjacency.
  change (adj_get (foldl (build_step directed) ∅ edges) s = edges ≫= out_items directed s).
  rewrite foldl_build_get. unfold adj_get at 1. by rewrite lookup_empty.
Qed.

(** size *)
Lemma total_items_lookup adj k :
  total_items adj = (length (adj_get adj k) + total_items (delete k adj))%nat.
Proof.
  unfold adj_get. destruct (adj !! k) as [l|] eqn:E; simpl.
  - rewrite <- (insert_delete_id adj k l E) at 1.
    rewrite total_items_insert; [done|]. apply lookup_delete_eq.
  - by rewrite delete_id.
Qed.

Lemma total_items_append adj k x :
  total_items (adj_append adj k x) = S (total_items adj).
Proof.
  unfold adj_append. rewrite <- insert_delete_eq.
  rewrite total_items_insert by apply lookup_delete_eq.
  rewrite (total_items_lookup adj k), length_app. simpl. lia.
Qed.

Lemma total_items_build_step directed adj e :
  total_items (build_step directed adj e)
  = ((if directed then 1 else 2) + total_items adj)%nat.
Proof.
  unfold build_step. destruct directed; simpl; by rewrite !total_items_append.
Qed.

Lemma total_items_foldl directed edges adj :
  total_items (foldl (build_step directed) adj edges)
  = ((if directed then 1 else 2) * length edges + total_items adj)%nat.
Proof.
  revert adj. induction edges as [|e edges IH]; intros adj; simpl; [lia|].
  rewrite IH, total_items_build_step. destruct directed; lia.
Qed.

(** X4: [build_adjacency] keeps every edge, in the order of the edge list.
    The neighbour list of a node [s] holds, edge by edge, the pair
    (target, edge) of an edge that leaves [s] and, unless [directed], the
    pair (source, mirrored edge) of an edge that arrives at [s]; parallel
    edges are never merged, so the view has one tuple per edge when
    [directed] and two otherwise. *)
Theorem build_adjacency_lists (edges : list edge) (directed : bool) :
  (forall s, adj_get (build_adjacency edges directed) s
             = edges ≫= out_items directed s)
  /\ total_items (build_adjacency edges directed)
     = ((if directed then 1 else 2) * length edges)%nat.
Proof.
  split; [intros s; apply build_adjacency_neighbours|].
  change (total_items (foldl (build_step directed) ∅ edges)
          = ((if directed then 1 else 2) * length edges)%nat).
  rewrite total_items_foldl. unfold total_items. rewrite map_fold_empty. lia.
Qed.

(** keys *)
Lemma adj_append_lookup adj k x n :
  adj_append adj k x !! n
  = if decide (k = n) then Some (adj_get adj k ++ [x]) else adj !! n.
Proof.
  unfold adj_append. destruct (decide (k = n)) as [->|Hne].
  - by rewrite lookup_insert_eq.
  - by rewrite lookup_insert_ne.
Qed.

Lemma adj_append_is_Some adj k x n :
  is_Some (adj_append adj k x !! n) <-> k = n \/ is_Some (adj !! n).
Proof.
  rewrite adj_append_lookup. destruct (decide (k = n)) as [->|Hne].
  - split; [by left | by eexists].
  - split; [by right | by intros [|]].
Qed.

Lemma build_step_is_Some directed adj e n :
  is_Some (build_step directed adj e !! n)
  <-> is_Some (adj !! n) \/ source e = n \/ (directed = false /\ target e = n).
Proof.
  unfold build_step. destruct directed; simpl.
  - rewrite adj_append_is_Some. intuition congruence.
  - rewrite !adj_append_is_Some. intuition congruence.
Qed.

Lemma foldl_build_is_Some directed edges adj n :
  is_Some (foldl (build_step directed) adj edges !! n)
  <-> is_Some (adj !! n)
      \/ exists e, e ∈ edges
                   /\ (source e = n \/ (directed = false /\ target e = n)).
Proof.
  revert adj. induction edges as [|e edges IH]; intros adj; simpl.
  - split; [by left|]. intros [H|(e & He & _)]; [done|]. by apply elem_of_nil in He.
  - rewrite IH, build_step_is_Some. split.
    + intros [[H|H]|(e' & He' & H)].
      * by left.
      * right. exists e. split; [by left | done].
      * right. exists e'. split; [by right | done].
    + intros [H|(e' & He' & H)]; [by left; left|].
      apply elem_of_cons in He' as [->|He'].
      * left. by right.
      * right. by exists e'.
Qed.

(** X5: a node is a key of the view that [build_adjacency] returns exactly
    when some edge leaves it or, in an undirected view, arrives at it; and
    the keys are the nodes with a non-empty neighbour list.  In a directed
    view a node that only receives edges is therefore absent, and is read
    through the default of [adj.get]. *)
Theorem build_adjacency_keys (edges : list edge) (directed : bool) (n : node) :
  (is_Some (build_adjacency edges directed !! n)
   <-> exists e, e ∈ edges
                 /\ (source e = n \/ (directed = false /\ target e = n)))
  /\ (is_Some (build_adjacency edges directed !! n)
      <-> adj_get (build_adjacency edges directed) n <> []).
Proof.
  assert (is_Some (build_adjacency edges directed !! n)
   <-> exists e, e ∈ edges
                 /\ (source e = n \/ (directed = false /\ target e = n))) as Hk.
  { change (is_Some (foldl (build_step directed) ∅ edges !! n) <-> exists e, e ∈ edges
                 /\ (source e = n \/ (directed = false /\ target e = n))).
    rewrite foldl_build_is_Some, lookup_empty. split; [|by right].
    intros [[? H]|H]; done. }
  split; [done|]. rewrite Hk, build_adjacency_neighbours. split.
  - intros (e & He & H) Hnil.
    assert (forall x, x ∈ out_items directed n e -> False) as Hno.
    { intros x Hx. assert (x ∈ edges ≫= out_items directed n) as Hin.
      { apply list_elem_of_bind. by exists e. }
      rewrite Hnil in Hin. by apply elem_of_nil in Hin. }
    unfold out_items in Hno. destruct H as [H|[-> H]].
    + destruct (decide (source e = n)); [|done]. apply (Hno (Pair (target e) e)).
      apply elem_of_app. left. by left.
    + destruct (decide (target e = n)); [|done].
      apply (Hno (Pair (source e) (mirror e))). apply elem_of_app. right. by left.
  - intros Hne. destruct (edges ≫= out_items directed n) as [|x l] eqn:E; [done|].
    assert (x ∈ edges ≫= out_items directed n) as Hin by (rewrite E; by left).
    apply list_elem_of_bind in Hin as (e & Hx & He). exists e. split; [done|].
    unfold out_items in Hx. apply elem_of_app in Hx as [Hx|Hx].
    + destruct (decide (source e = n)); [by left|]. by apply elem_of_nil in Hx.
    + destruct directed; [by apply elem_of_nil in Hx|].
      destruct (decide (target e = n)); [by right|]. by apply elem_of_nil in Hx.
Qed.


(** ** Walks of an undirected view *)

(** walks *)
Lemma walk_head adj factor s p t c :
  walk adj factor s p t c -> exists q, p = s :: q.
Proof.
  induction 1 as [|p u c it _ [q ->] _]; [by exists []|].
  by exists (q ++ [item_neigh it]).
Qed.

Lemma walk_last adj factor s p t c :
  walk adj factor s p t c -> last p = Some t.
Proof. induction 1; [done|]. by rewrite last_snoc. Qed.









Lemma mirror_mirror e : mirror (mirror e) = e.
Proof. by destruct e. Qed.

Lemma get_edge_weight_mirror e factor :
  get_edge_weight (mirror e) factor = get_edge_weight e factor.
Proof. done. Qed.

Lemma build_adjacency_elem edges directed s it :
  it ∈ adj_get (build_adjacency edges directed) s
  <-> exists e, e ∈ edges
        /\ ((source e = s /\ it = Pair (target e) e)
            \/ (directed = false /\ target e = s
                /\ it = Pair (source e) (mirror e))).
Proof.
  rewrite build_adjacency_neighbours, list_elem_of_bind. split.
  - intros (e & Hit & He). exists e. split; [done|]. unfold out_items in Hit.
    apply elem_of_app in Hit as [Hit|Hit].
    + destruct (decide (source e = s)); [|by apply elem_of_nil in Hit].
      apply list_elem_of_singleton in Hit. by left.
    + destruct directed; [by apply elem_of_nil in Hit|].
      destruct (decide (target e = s)); [|by apply elem_of_nil in Hit].
      apply list_elem_of_singleton in Hit. by right.
  - intros (e & He & H). exists e. split; [|done]. unfold out_items.
    apply elem_of_app. destruct H as [[E ->]|(-> & E & ->)].
    + left. rewrite decide_True by done. by left.
    + right. rewrite decide_True by done. by left.
Qed.





(** ** The triples that [neighbor_generator] yields *)

Lemma neighbor_items_Ok factor items l :
  neighbor_items factor items = Ok l
  <-> (forall it, it ∈ items -> is_pair it = true)
      /\ l = map (as_triple factor) items.
Proof.
  revert l. induction items as [|[n e|n w e] items IH]; intros l; simpl.
  - split.
    + intros [= <-]. split; [|done]. intros it H. by apply elem_of_nil in H.
    + by intros [_ ->].
  - destruct (neighbor_items factor items) as [l'|exn].
    + destruct (IH l') as [[Hp ->] _]; [done|]. split.
      * intros [= <-]. split; [|done].
        intros it [->|H]%elem_of_cons; [done | by apply Hp].
      * by intros [_ ->].
    + split; [done|]. intros [Hp ->]. exfalso.
      assert (Err exn = Ok (map (as_triple factor) items)) as H; [|done].
      apply IH. split; [|done]. intros it H. apply Hp. by right.
  - split; [done|]. intros [Hp _].
    assert (is_pair (Triple n w e) = true) as H; [|done]. apply Hp. by left.
Qed.

Lemma neighbor_items_Err factor items exn :
  neighbor_items factor items = Err exn -> exn = ValueError.
Proof.
  induction items as [|[n e|n w e] items IH]; simpl; [done| |congruence].
  destruct (neighbor_items factor items); [done|]. intros [= <-]. by apply IH.
Qed.

(** X7: consumed to its end, [neighbor_generator] yields for a neighbour
    list of pairs one triple (neighbour, [get_edge_weight(edge, factor)],
    edge) for each pair, in order; it raises [ValueError] when the list
    holds a triple; and it yields nothing for a node that is not a key of
    the view. *)
Theorem neighbor_generator_outcome (adj : gmap node (list item)) (n : node)
    (factor : string) :
  ((forall it, it ∈ adj_get adj n -> is_pair it = true) ->
   neighbor_generator adj n factor
   = Ok (map (as_triple factor) (adj_get adj n)))
  /\ ((exists it, it ∈ adj_get adj n /\ is_triple it = true) ->
      neighbor_generator adj n factor = Err ValueError)
  /\ (adj !! n = None -> neighbor_generator adj n factor = Ok []).
Proof.
  unfold neighbor_generator. split; [|split].
  - intros Hp. by apply neighbor_items_Ok.
  - intros (it & Hit & Ht).
    destruct (neighbor_items factor (adj_get adj n)) as [l|exn] eqn:E;
      [|by apply neighbor_items_Err in E as ->].
    apply neighbor_items_Ok in E as [Hp _]. specialize (Hp it Hit).
    by destruct it.
  - intros Hn. unfold adj_get. by rewrite Hn.
Qed.

Lemma adj_get_generated adj factor n :
  adj_get (generated adj factor) n = map (as_triple factor) (adj_get adj n).
Proof.
  unfold adj_get, generated. rewrite lookup_fmap. by destruct (adj !! n).
Qed.

Lemma same_edges_sym adj view : same_edges adj view -> same_edges view adj.
Proof. intros H n. by rewrite H. Qed.

Lemma same_edges_elem adj view n it :
  same_edges adj view -> it ∈ adj_get adj n ->
  exists it', it' ∈ adj_get view n /\ item_neigh it' = item_neigh it
              /\ item_edge it' = item_edge it.
Proof.
  intros Hs Hit.
  apply (list_elem_of_fmap_2 (fun it => (item_neigh it, item_edge it))) in Hit.
  rewrite Hs in Hit. apply list_elem_of_fmap in Hit as (it' & [= E1 E2] & Hit').
  by exists it'.
Qed.

Lemma same_edges_walk adj view factor s p t c :
  same_edges adj view -> walk adj factor s p t c -> walk view factor s p t c.
Proof.
  intros Hs. induction 1 as [|p u c it _ IH Hit]; [apply walk_start|].
  destruct (same_edges_elem _ _ _ _ Hs Hit) as (it' & Hit' & <- & <-).
  by eapply walk_step.
Qed.

Lemma generated_same_edges adj factor : same_edges adj (generated adj factor).
Proof.
  intros n. rewrite adj_get_generated, map_map. by apply map_ext.
Qed.

Lemma generated_view_same_edges adj view factor :
  (forall n, neighbor_generator adj n factor = Ok (adj_get view n)) ->
  same_edges adj view /\ triple_view view.
Proof.
  intros H. split.
  - intros n. specialize (H n). apply neighbor_items_Ok in H as [_ ->].
    rewrite map_map. by apply map_ext.
  - intros n it Hit. specialize (H n). apply neighbor_items_Ok in H as [_ E].
    rewrite E in Hit. apply list_elem_of_fmap in Hit as (it' & -> & _). done.
Qed.

(** X8: [build_adjacency], [neighbor_generator] and [dijkstra] compose.
    When [view] holds for every node the triples that [neighbor_generator]
    yields from the view of [build_adjacency], and no edge has a negative
    weight under the metric, [dijkstra] on [view] returns a pair (cost,
    path) such that no walk of the built view from start to goal costs less
    than [cost] and, when the goal is reachable, [path] is such a walk of
    cost [cost]. *)
Theorem dijkstra_through_neighbor_generator (edges : list edge)
    (directed : bool) (factor : string) (view : gmap node (list item))
    (start end_ : node) :
  (forall n, neighbor_generator (build_adjacency edges directed) n factor
             = Ok (adj_get view n)) ->
  (forall e, e ∈ edges -> num_le (Fin 0) (get_edge_weight e factor)) ->
  exists cost path,
    dijkstra view start end_ factor = Some (Returned cost path)
    /\ lower_bound (build_adjacency edges directed) factor start end_ cost
    /\ (reachable (build_adjacency edges directed) factor start end_ ->
        walk (build_adjacency edges directed) factor start path end_ cost).
Proof.
  intros Hgen Hnn.
  destruct (generated_view_same_edges _ _ _ Hgen) as [Hs Htr].
  assert (nonneg_weights view factor) as Hview.
  { intros u it Hit.
    destruct (same_edges_elem _ _ _ _ (same_edges_sym _ _ Hs) Hit)
      as (it' & Hit' & _ & <-).
    apply build_adjacency_elem in Hit' as (e & He & [[_ ->]|(_ & _ & ->)]);
      simpl; rewrite ?get_edge_weight_mirror; by apply Hnn. }
  destruct (dijkstra_outcome_nonneg view start end_ factor Hview) as (r & Hr & Hok).
  destruct (outcome_ok_returned view start end_ factor _ r Htr Hok)
    as (cost & path & -> & H).
  exists cost, path. split; [done|].
  destruct H as [(-> & -> & Hno)|(Hw & _ & Hlb)].
  - split.
    + intros p c Hp. exfalso. apply Hno. exists p, c.
      by eapply same_edges_walk.
    + intros (p & c & Hreach). exfalso. apply Hno. exists p, c.
      by eapply same_edges_walk.
  - split.
    + intros p c Hp. apply (Hlb p). by eapply same_edges_walk.
    + intros _. eapply same_edges_walk; [|done]. by apply same_edges_sym.
Qed.


Lemma neighbor_generator_generated adj factor n :
  pair_view adj ->
  neighbor_generator adj n factor = Ok (adj_get (generated adj factor) n).
Proof.
  intros Hp. rewrite adj_get_generated. apply neighbor_items_Ok.
  split; [apply Hp | done].
Qed.

Lemma coast_weights factor :
  factor ∈ ["distance"; "time"; "cost"; "eco"; "safety"] ->
  forall e, e ∈ coast -> num_le (Fin 0) (get_edge_weight e factor).
Proof.
  intros Hf e He.
  repeat (apply elem_of_cons in He as [->|He]);
    [| |by apply elem_of_nil in He];
    repeat (apply elem_of_cons in Hf as [->|Hf]);
    try (by apply elem_of_nil in Hf); by vm_compute.
Qed.

Lemma dijkstra_through_neighbor_generator_witness :
  let adj := build_adjacency coast false in
  let view := generated adj "time" in
  (forall n, neighbor_generator adj n "time" = Ok (adj_get view n))
  /\ (forall e, e ∈ coast -> num_le (Fin 0) (get_edge_weight e "time"))
  /\ exists cost path,
       dijkstra view "Pune" "Hampi" "time" = Some (Returned cost path)
       /\ lower_bound adj "time" "Pune" "Hampi" cost
       /\ (reachable adj "time" "Pune" "Hampi" ->
           walk adj "time" "Pune" path "Hampi" cost).
Proof.
  intros adj view.
  assert (forall n, neighbor_generator adj n "time" = Ok (adj_get view n)) as H1.
  { intros n. apply neighbor_generator_generated, build_adjacency_pair_view. }
  assert (forall e, e ∈ coast -> num_le (Fin 0) (get_edge_weight e "time")) as H2.
  { apply coast_weights. right. by left. }
  split; [exact H1|]. split; [exact H2|].
  exact (dijkstra_through_neighbor_generator coast false "time" view
           "Pune" "Hampi" H1 H2).
Defined.

(** ** What the two searches return *)

Lemma num_le_antisym a b : num_le a b -> num_le b a -> num_eqv a b.
Proof. num_cases. Qed.

Lemma walk_factor adj factor factor' s p t c :
  walk adj factor s p t c -> exists c', walk adj factor' s p t c'.
Proof.
  induction 1 as [|p u c it _ [c' IH] Hit].
  - exists (Fin 0). apply walk_start.
  - eexists. by eapply walk_step.
Qed.

Lemma reachable_factor adj factor factor' s t :
  reachable adj factor s t -> reachable adj factor' s t.
Proof.
  intros (p & c & Hw). destruct (walk_factor _ _ factor' _ _ _ _ Hw) as [c' H].
  by exists p, c'.
Qed.

Lemma walk_endpoints adj factor s p t c :
  walk adj factor s p t c -> p <> [] /\ head p = Some s /\ last p = Some t.
Proof.
  intros Hw. destruct (walk_head _ _ _ _ _ _ Hw) as [q ->].
  split; [done|]. split; [done|]. by eapply walk_last.
Qed.

Lemma returned_shape adj start end_ factor settled c p :
  outcome_ok adj start end_ factor settled (Returned c p) ->
  (p = [] <-> ~ reachable adj factor start end_)
  /\ (p <> [] -> head p = Some start /\ last p = Some end_).
Proof.
  intros [(-> & -> & Hno)|(Hw & _ & _)].
  - split; [done|]. by intros [].
  - destruct (walk_endpoints _ _ _ _ _ _ Hw) as (Hne & Hh & Hl). split.
    + split; [done|]. intros []. by exists p, c.
    + done.
Qed.

(** X9: on a view of triples the path that a search returns is empty
    exactly when no walk leads from the start to the goal, whatever the
    metric and the heuristic function: [dijkstra] under one metric and
    [astar] under another find a path for the same pairs of nodes.  A path
    that is not empty begins with the start and ends with the goal. *)
Theorem path_found_iff_reachable (adj : gmap node (list item))
    (start end_ : node) (factor factor' : string)
    (great_circle : formula) (nodes : table)
    (heuristic_fn : node -> node -> Q) :
  triple_view adj ->
  exists cost path cost' path',
    dijkstra adj start end_ factor = Some (Returned cost path)
    /\ astar great_circle adj start end_ nodes factor' (Some heuristic_fn)
       = Some (Returned cost' path')
    /\ (path = [] <-> ~ reachable adj factor start end_)
    /\ (path' = [] <-> path = [])
    /\ (path <> [] -> head path = Some start /\ last path = Some end_)
    /\ (path' <> [] -> head path' = Some start /\ last path' = Some end_).
Proof.
  intros Htr.
  destruct (dijkstra_outcome adj start end_ factor) as (rd & Hrd & Hd).
  destruct (astar_outcome adj start end_ factor'
              great_circle nodes heuristic_fn)
    as (ra & Hra & Ha).
  destruct (outcome_ok_returned _ _ _ _ _ _ Htr Hd) as (c & p & -> & _).
  destruct (outcome_ok_returned _ _ _ _ _ _ Htr Ha) as (c' & p' & -> & _).
  apply returned_shape in Hd as [Hd1 Hd2]. apply returned_shape in Ha as [Ha1 Ha2].
  exists c, p, c', p'. split; [done|]. split; [done|]. split; [done|].
  split; [|by split].
  split; intros H.
  - apply Hd1. intros Hr. apply Ha1 in H. apply H. by eapply reachable_factor.
  - apply Ha1. intros Hr. apply Hd1 in H. apply H. by eapply reachable_factor.
Qed.

Lemma path_found_iff_reachable_witness :
  triple_view detour_view
  /\ exists cost path cost' path',
       dijkstra detour_view "S" "G" "distance" = Some (Returned cost path)
       /\ astar flat detour_view "S" "G" no_coordinates "time" (Some exact_at_A)
          = Some (Returned cost' path')
       /\ (path = [] <-> ~ reachable detour_view "distance" "S" "G")
       /\ (path' = [] <-> path = [])
       /\ (path <> [] -> head path = Some "S" /\ last path = Some "G")
       /\ (path' <> [] -> head path' = Some "S" /\ last path' = Some "G").
Proof.
  assert (triple_view detour_view) as Htr
    by (apply triple_view_check; by vm_compute).
  split; [exact Htr|].
  exact (path_found_iff_reachable detour_view "S" "G" "distance" "time"
           flat no_coordinates exact_at_A Htr).
Defined.

(** X10: on a view of triples without negative weights, [astar] never
    returns a cost below the cost that [dijkstra] returns, whatever the
    heuristic function; with a consistent heuristic function the two costs
    are equal when binary64 forms the sums of the search without
    rounding. *)
Theorem astar_against_dijkstra (adj : gmap node (list item))
    (start end_ : node) (factor : string)
    (great_circle : formula) (nodes : table)
    (heuristic_fn : node -> node -> Q) :
  triple_view adj ->
  nonneg_weights adj factor ->
  exists cost path cost' path',
    dijkstra adj start end_ factor = Some (Returned cost path)
    /\ astar great_circle adj start end_ nodes factor (Some heuristic_fn)
       = Some (Returned cost' path')
    /\ num_le cost cost'
    /\ (consistent adj factor heuristic_fn end_ ->
        exact_sums adj factor heuristic_fn end_ ->
        num_eqv cost cost').
Proof.
  intros Htr Hnn.
  destruct (dijkstra_outcome_nonneg adj start end_ factor Hnn) as (rd & Hrd & Hd).
  destruct (astar_outcome adj start end_ factor great_circle nodes heuristic_fn)
    as (ra & Hra & Ha).
  destruct (outcome_ok_returned _ _ _ _ _ _ Htr Hd) as (c & p & -> & Hd').
  destruct (outcome_ok_returned _ _ _ _ _ _ Htr Ha) as (c' & p' & -> & Ha').
  exists c, p, c', p'. split; [done|]. split; [done|].
  assert (num_le c c') as Hle.
  { destruct Ha' as [(-> & _)|(Hw' & _)]; [by destruct c|].
    destruct Hd' as [(_ & _ & Hno)|(_ & _ & Hlb)].
    - destruct Hno. by exists p', c'.
    - by apply (Hlb p'). }
  split; [done|]. intros Hc _. apply num_le_antisym; [done|].
  destruct (astar_outcome_consistent adj start end_ factor great_circle nodes
              heuristic_fn Hc)
    as (ra' & Hra' & Hac).
  rewrite Hra in Hra'. injection Hra' as <-.
  destruct Hd' as [(-> & _)|(Hw & _)]; [by destruct c'|].
  destruct Hac as [(_ & _ & Hno)|(_ & _ & Hlb)].
  - destruct Hno. by exists p, c.
  - by apply (Hlb p).
Qed.

Lemma astar_against_dijkstra_witness :
  triple_view detour_view
  /\ nonneg_weights detour_view "distance"
  /\ consistent detour_view "distance" remaining "G"
  /\ exact_sums detour_view "distance" remaining "G"
  /\ exists cost path cost' path',
       dijkstra detour_view "S" "G" "distance" = Some (Returned cost path)
       /\ astar flat detour_view "S" "G" no_coordinates "distance"
            (Some remaining)
          = Some (Returned cost' path')
       /\ num_le cost cost'
       /\ num_eqv cost cost'.
Proof.
  assert (triple_view detour_view) as Htr
    by (apply triple_view_check; by vm_compute).
  assert (nonneg_weights detour_view "distance") as Hnn
    by (apply nonneg_weights_check; by vm_compute).
  assert (consistent detour_view "distance" remaining "G") as Hc
    by (apply consistent_check; by vm_compute).
  split; [exact Htr|]. split; [exact Hnn|]. split; [exact Hc|].
  split; [exact detour_exact_sums|].
  destruct (astar_against_dijkstra detour_view "S" "G" "distance" flat
              no_coordinates remaining Htr Hnn)
    as (cost & path & cost' & path' & Hd & Ha & Hle & Heq).
  exists cost, path, cost', path'.
  split; [exact Hd|]. split; [exact Ha|]. split; [exact Hle|].
  exact (Heq Hc detour_exact_sums).
Defined.

Lemma adj_get_fmap (g : list item -> list item) adj n :
  g [] = [] -> adj_get (g <$> adj) n = g (adj_get adj n).
Proof.
  intros Hg. unfold adj_get. rewrite lookup_fmap. by destruct (adj !! n).
Qed.

Lemma total_items_fmap (g : list item -> list item) adj :
  (forall l, length (g l) = length l) ->
  total_items (g <$> adj) = total_items adj.
Proof.
  intros Hg. induction adj as [|k items adj Hk IH] using map_ind.
  - by rewrite fmap_empty.
  - rewrite fmap_insert, !total_items_insert, IH, Hg; [done..|].
    by rewrite lookup_fmap, Hk.
Qed.

Lemma dijkstra_expand_restamp f factor cost path items pq :
  dijkstra_expand factor cost path (map (restamp f) items) pq
  = dijkstra_expand factor cost path items pq.
Proof.
  revert pq. induction items as [|[n e|n w e] items IH]; intros pq; simpl; auto.
Qed.

Lemma astar_expand_restamp f factor heuristic_fn end_ cost path items pq :
  astar_expand factor heuristic_fn end_ cost path (map (restamp f) items) pq
  = astar_expand factor heuristic_fn end_ cost path items pq.
Proof.
  revert pq. induction items as [|[n e|n w e] items IH]; intros pq; simpl;
    [done..|].
  destruct (heuristic_fn n end_); auto.
Qed.

Lemma dijkstra_loop_restamp f fuel adj end_ factor st :
  dijkstra_loop fuel (map (restamp f) <$> adj) end_ factor st
  = dijkstra_loop fuel adj end_ factor st.
Proof.
  revert st. induction fuel as [|fuel IH]; intros [pq visited]; [done|].
  cbn [dijkstra_loop]. unfold dijkstra_step.
  destruct (heappop pq) as [[[[cost n] path] pq']|]; [|done].
  destruct (decide (n ∈ visited)); [apply IH|].
  destruct (decide (n = end_)); [done|].
  rewrite adj_get_fmap, dijkstra_expand_restamp by done.
  destruct (dijkstra_expand _ _ _ _ _); [apply IH | done].
Qed.

Lemma astar_loop_restamp f fuel adj end_ factor heuristic_fn st :
  astar_loop fuel (map (restamp f) <$> adj) end_ factor heuristic_fn st
  = astar_loop fuel adj end_ factor heuristic_fn st.
Proof.
  revert st. induction fuel as [|fuel IH]; intros [pq visited]; [done|].
  cbn [astar_loop]. unfold astar_step.
  destruct (heappop pq) as [[[[[f' cost] n] path] pq']|]; [|done].
  destruct (decide (n ∈ visited)); [apply IH|].
  destruct (decide (n = end_)); [done|].
  rewrite adj_get_fmap, astar_expand_restamp by done.
  destruct (astar_expand _ _ _ _ _ _ _); [apply IH | done].
Qed.

(** X11: neither search reads the weight stored in a triple: replacing
    the second component of every triple changes the outcome of neither,
    so a view whose triples were made for one metric serves every
    metric. *)
Theorem stored_weight_ignored (adj : gmap node (list item))
    (f : node -> edge -> num) (start end_ : node) (factor : string)
    (great_circle : formula) (nodes : table)
    (heuristic_fn : option (node -> node -> Q)) :
  dijkstra (map (restamp f) <$> adj) start end_ factor
  = dijkstra adj start end_ factor
  /\ astar great_circle (map (restamp f) <$> adj) start end_ nodes factor
       heuristic_fn
     = astar great_circle adj start end_ nodes factor heuristic_fn.
Proof.
  unfold dijkstra, astar, search_fuel.
  rewrite total_items_fmap by apply length_map.
  split; [apply dijkstra_loop_restamp|].
  match goal with
  | |- context [match ?h start end_ with _ => _ end] =>
      destruct (h start end_); [apply astar_loop_restamp | done]
  end.
Qed.


Lemma edge_get_text e m :
  text_key m = true -> exists s, edge_get e m = Some (Text s).
Proof.
  unfold text_key, edge_get.
  destruct (String.eqb m "source"); [by eexists|].
  destruct (String.eqb m "target"); [by eexists|].
  destruct (String.eqb m "mode"); [by eexists|]. done.
Qed.

Lemma edge_get_number e m v :
  text_key m = false -> edge_get e m = Some v -> exists x, v = Number x.
Proof.
  unfold text_key, edge_get.
  destruct (String.eqb m "source"); [done|].
  destruct (String.eqb m "target"); [done|].
  destruct (String.eqb m "mode"); [done|]. intros _.
  repeat match goal with
         | |- context [if ?b then _ else _] => destruct b
         | |- context [Number <$> ?o] => destruct o; simpl
         end; intros [= <-]; by eexists.
Qed.

Lemma edge_get_norm_key e m : edge_get e (norm_key m) = None.
Proof. done. Qed.

Lemma text_key_norm_key m : text_key (norm_key m) = false.
Proof. done. Qed.

Lemma norm_key_inj m m' : norm_key m = norm_key m' -> m = m'.
Proof. unfold norm_key. simpl. by intros [= ?]. Qed.


(** ** The values that [normalize_edges] stores *)

Lemma is_lt_Qcompare x y : is_lt (x ?= y)%Q = true <-> (x < y)%Q.
Proof.
  rewrite Qlt_alt. destruct (x ?= y)%Q; simpl; split; done.
Qed.

Lemma py_min_number q qs :
  exists a, py_min (Number q) (Number <$> qs) = Number a
            /\ a ∈ q :: qs
            /\ forall x, x ∈ q :: qs -> (a <= x)%Q.
Proof.
  unfold py_min. revert q. induction qs as [|y qs IH]; intros q.
  2: rewrite fmap_cons; cbn [foldl];
     change (value_ltb (Number y) (Number q)) with (is_lt (y ?= q)%Q).
  - exists q. split; [done|]. split; [by left|].
    intros x ->%list_elem_of_singleton. lra.
  - destruct (is_lt (y ?= q)%Q) eqn:E.
    + apply is_lt_Qcompare in E.
      destruct (IH y) as (a & -> & Ha & Hle). exists a. split; [done|].
      split; [by right|]. intros x [->|Hx]%elem_of_cons; [|by apply Hle].
      assert (a <= y)%Q by (apply Hle; by left). lra.
    + assert (~ (y < q)%Q) as Hn.
      { intros H%is_lt_Qcompare. congruence. }
      destruct (IH q) as (a & -> & Ha & Hle). exists a. split; [done|]. split.
      * apply elem_of_cons in Ha as [->|Ha]; [by left | by do 2 right].
      * intros x [->|[->|Hx]%elem_of_cons]%elem_of_cons.
        -- apply Hle. by left.
        -- assert (a <= q)%Q by (apply Hle; by left). lra.
        -- apply Hle. by right.
Qed.

Lemma py_max_number q qs :
  exists b, py_max (Number q) (Number <$> qs) = Number b
            /\ b ∈ q :: qs
            /\ forall x, x ∈ q :: qs -> (x <= b)%Q.
Proof.
  unfold py_max. revert q. induction qs as [|y qs IH]; intros q.
  2: rewrite fmap_cons; cbn [foldl];
     change (value_ltb (Number q) (Number y)) with (is_lt (q ?= y)%Q).
  - exists q. split; [done|]. split; [by left|].
    intros x ->%list_elem_of_singleton. lra.
  - destruct (is_lt (q ?= y)%Q) eqn:E.
    + apply is_lt_Qcompare in E.
      destruct (IH y) as (a & -> & Ha & Hle). exists a. split; [done|].
      split; [by right|]. intros x [->|Hx]%elem_of_cons; [|by apply Hle].
      assert (y <= a)%Q by (apply Hle; by left). lra.
    + assert (~ (q < y)%Q) as Hn.
      { intros H%is_lt_Qcompare. congruence. }
      destruct (IH q) as (a & -> & Ha & Hle). exists a. split; [done|]. split.
      * apply elem_of_cons in Ha as [->|Ha]; [by left | by do 2 right].
      * intros x [->|[->|Hx]%elem_of_cons]%elem_of_cons.
        -- apply Hle. by left.
        -- assert (q <= a)%Q by (apply Hle; by left). lra.
        -- apply Hle. by right.
Qed.

(** The values a numeric key has in the edges. *)
Lemma values_numbers (edges : list edge) m :
  text_key m = false ->
  exists qs, omap (fun e => edge_get e m) edges = Number <$> qs
             /\ forall x, x ∈ qs <->
                  exists e, e ∈ edges /\ edge_get e m = Some (Number x).
Proof.
  intros Hm. induction edges as [|e edges (qs & IH & Hqs)].
  - exists []. split; [done|]. intros x. split.
    + by intros ?%elem_of_nil.
    + by intros (e & ?%elem_of_nil & _).
  - destruct (edge_get e m) as [v|] eqn:E.
    + destruct (edge_get_number e m v Hm E) as [x ->].
      exists (x :: qs). split.
      { rewrite fmap_cons, <- IH. simpl. by rewrite E. }
      intros y. split.
      * intros [->|Hy]%elem_of_cons.
        -- exists e. split; [by left | done].
        -- apply Hqs in Hy as (e' & He' & Hg). exists e'. split; [by right | done].
      * intros (e' & [->|He']%elem_of_cons & Hg).
        -- rewrite E in Hg. injection Hg as ->. by left.
        -- right. apply Hqs. by exists e'.
    + exists qs. split.
      { rewrite <- IH. simpl. by rewrite E. }
      intros y. rewrite Hqs. split.
      * intros (e' & He' & Hg). exists e'. split; [by right | done].
      * intros (e' & [->|He']%elem_of_cons & Hg); [congruence|]. by exists e'.
Qed.

(** The bounds of a numeric key: the least and the greatest value an edge
    gives it, or 0 and 1 when no edge has the key. *)
Lemma bounds_number edges m :
  text_key m = false ->
  exists a b,
    bounds edges m = (Number a, Number b)
    /\ (a <= b)%Q
    /\ (forall e x, e ∈ edges -> edge_get e m = Some (Number x) ->
          (a <= x <= b)%Q)
    /\ ((forall e, e ∈ edges -> edge_get e m = None) -> a = 0%Q /\ b = 1%Q)
    /\ ((exists e, e ∈ edges /\ edge_get e m <> None) ->
        exists lo hi, lo ∈ edges /\ hi ∈ edges
                      /\ edge_get lo m = Some (Number a)
                      /\ edge_get hi m = Some (Number b)).
Proof.
  intros Hm. destruct (values_numbers edges m Hm) as (qs & Hv & Hqs).
  unfold bounds. rewrite Hv. destruct qs as [|q qs]; [simpl|rewrite fmap_cons].
  - exists 0%Q, 1%Q. split; [done|]. split; [lra|]. split; [|split; [done|]].
    + intros e x He Hg. exfalso.
      assert (x ∈ ([] : list Q)) as H by (apply Hqs; by exists e).
      by apply elem_of_nil in H.
    + intros (e & He & Hg). exfalso. destruct (edge_get e m) as [v|] eqn:E; [|done].
      destruct (edge_get_number e m v Hm E) as [x ->].
      assert (x ∈ ([] : list Q)) as H by (apply Hqs; by exists e).
      by apply elem_of_nil in H.
  - destruct (py_min_number q qs) as (a & -> & Ha & Hle).
    destruct (py_max_number q qs) as (b & -> & Hb & Hge).
    exists a, b. split; [done|]. split; [by apply Hle|]. split; [|split].
    + intros e x He Hg. assert (x ∈ q :: qs) as Hx by (apply Hqs; by exists e).
      split; [by apply Hle | by apply Hge].
    + intros Hnone. exfalso.
      assert (q ∈ q :: qs) as (e & He & Hg)%Hqs by by left.
      rewrite (Hnone e He) in Hg. done.
    + intros _. apply Hqs in Ha as (lo & Hlo & Hga).
      apply Hqs in Hb as (hi & Hhi & Hgb). by exists lo, hi.
Qed.

Lemma is_lt_false_not_Gt (s t : string) :
  is_lt (String.compare s t) = false -> String.compare t s <> Gt.
Proof.
  rewrite (String.compare_antisym t s). by destruct (String.compare s t).
Qed.

Lemma py_min_text s ss :
  exists a, py_min (Text s) (Text <$> ss) = Text a
            /\ a ∈ s :: ss
            /\ forall x, x ∈ s :: ss -> String.compare a x <> Gt.
Proof.
  pose proof string_compare_lawful as Hlaw.
  unfold py_min. revert s. induction ss as [|y ss IH]; intros s.
  2: rewrite fmap_cons; cbn [foldl];
     change (value_ltb (Text y) (Text s)) with (is_lt (String.compare y s)).
  - exists s. split; [done|]. split; [by left|].
    intros x ->%list_elem_of_singleton. by rewrite (law_refl _ Hlaw).
  - destruct (is_lt (String.compare y s)) eqn:E.
    + destruct (IH y) as (a & -> & Ha & Hle). exists a. split; [done|].
      split; [by right|]. intros x [->|Hx]%elem_of_cons; [|by apply Hle].
      apply (law_le_trans _ Hlaw a y s); [apply Hle; by left|].
      destruct (String.compare y s); simpl in E; done.
    + destruct (IH s) as (a & -> & Ha & Hle). exists a. split; [done|]. split.
      * apply elem_of_cons in Ha as [->|Ha]; [by left | by do 2 right].
      * intros x [->|[->|Hx]%elem_of_cons]%elem_of_cons.
        -- apply Hle. by left.
        -- apply (law_le_trans _ Hlaw a s y); [apply Hle; by left|].
           by apply is_lt_false_not_Gt.
        -- apply Hle. by right.
Qed.

Lemma py_max_text s ss :
  exists b, py_max (Text s) (Text <$> ss) = Text b
            /\ b ∈ s :: ss
            /\ forall x, x ∈ s :: ss -> String.compare x b <> Gt.
Proof.
  pose proof string_compare_lawful as Hlaw.
  unfold py_max. revert s. induction ss as [|y ss IH]; intros s.
  2: rewrite fmap_cons; cbn [foldl];
     change (value_ltb (Text s) (Text y)) with (is_lt (String.compare s y)).
  - exists s. split; [done|]. split; [by left|].
    intros x ->%list_elem_of_singleton. by rewrite (law_refl _ Hlaw).
  - destruct (is_lt (String.compare s y)) eqn:E.
    + destruct (IH y) as (a & -> & Ha & Hle). exists a. split; [done|].
      split; [by right|]. intros x [->|Hx]%elem_of_cons; [|by apply Hle].
      apply (law_le_trans _ Hlaw s y a); [|apply Hle; by left].
      destruct (String.compare s y); simpl in E; done.
    + destruct (IH s) as (a & -> & Ha & Hle). exists a. split; [done|]. split.
      * apply elem_of_cons in Ha as [->|Ha]; [by left | by do 2 right].
      * intros x [->|[->|Hx]%elem_of_cons]%elem_of_cons.
        -- apply Hle. by left.
        -- apply (law_le_trans _ Hlaw y s a); [|apply Hle; by left].
           by apply is_lt_false_not_Gt.
        -- apply Hle. by right.
Qed.

Lemma values_texts (edges : list edge) m :
  text_key m = true ->
  exists ss, omap (fun e => edge_get e m) edges = Text <$> ss
             /\ length ss = length edges
             /\ forall x, x ∈ ss <->
                  exists e, e ∈ edges /\ edge_get e m = Some (Text x).
Proof.
  intros Hm. induction edges as [|e edges (ss & IH & Hlen & Hss)].
  - exists []. split; [done|]. split; [done|]. intros x. split.
    + by intros ?%elem_of_nil.
    + by intros (e & ?%elem_of_nil & _).
  - destruct (edge_get_text e m Hm) as [s E].
    exists (s :: ss). split; [|split].
    + rewrite fmap_cons, <- IH. simpl. by rewrite E.
    + simpl. by rewrite Hlen.
    + intros y. split.
      * intros [->|Hy]%elem_of_cons.
        -- exists e. split; [by left | done].
        -- apply Hss in Hy as (e' & He' & Hg). exists e'. split; [by right | done].
      * intros (e' & [->|He']%elem_of_cons & Hg).
        -- rewrite E in Hg. injection Hg as ->. by left.
        -- right. apply Hss. by exists e'.
Qed.

(** The bounds of a text key: the least and the greatest string, which are
    the same string exactly when all edges agree on the key. *)
Lemma bounds_text (edges : list edge) m e :
  text_key m = true -> e ∈ edges ->
  exists a b lo hi,
    bounds edges m = (Text a, Text b)
    /\ lo ∈ edges /\ hi ∈ edges
    /\ edge_get lo m = Some (Text a) /\ edge_get hi m = Some (Text b)
    /\ (a = b -> forall e', e' ∈ edges -> edge_get e' m = Some (Text a)).
Proof.
  pose proof string_compare_lawful as Hlaw.
  intros Hm He. destruct (values_texts edges m Hm) as (ss & Hv & Hlen & Hss).
  unfold bounds. rewrite Hv. destruct ss as [|s ss].
  { destruct edges; [by apply elem_of_nil in He | done]. }
  rewrite fmap_cons.
  destruct (py_min_text s ss) as (a & -> & Ha & Hle).
  destruct (py_max_text s ss) as (b & -> & Hb & Hge).
  pose proof Ha as (lo & Hlo & Hga)%Hss. pose proof Hb as (hi & Hhi & Hgb)%Hss.
  exists a, b, lo, hi. repeat (split; [done|]).
  intros <- e' He'. destruct (edge_get_text e' m Hm) as [x Hx].
  assert (x ∈ s :: ss) as Hin by (apply Hss; by exists e').
  specialize (Hle x Hin). specialize (Hge x Hin).
  rewrite (law_opp _ Hlaw) in Hge.
  destruct (String.compare a x) eqn:E; [|done..].
  apply String.compare_eq_iff in E. by subst.
Qed.

Lemma unit_scale a b x :
  (a <= x <= b)%Q -> Qeq_bool b a = false ->
  (0 <= (x - a) / (b - a) <= 1)%Q.
Proof.
  intros Hx Hne.
  assert (~ b == a)%Q as Hne' by (intros H%Qeq_bool_iff; congruence).
  assert (0 < b - a)%Q as Hpos by lra.
  split.
  - apply Qle_shift_div_l; [done | lra].
  - apply Qle_shift_div_r; [done | lra].
Qed.

Lemma nedge_get_number e m v :
  text_key m = false -> nedge_get e m = Some v -> exists x, v = Number x.
Proof.
  intros Hm. unfold nedge_get. destruct (norms e !! m) as [x|].
  - intros [= <-]. by exists x.
  - by apply edge_get_number.
Qed.

(** The value [normalize_edges] stores under [norm_<m>] for a numeric key. *)
Lemma normalized_value_number edges e m a b :
  text_key m = false ->
  base e ∈ edges -> norms_ok e ->
  bounds edges m = (Number a, Number b) ->
  exists v, normalized_value e m (Number a) (Number b) = Ok v
            /\ (0 <= v <= 1)%Q.
Proof.
  intros Hm He Hok Hb. unfold normalized_value. simpl.
  destruct (Qeq_bool b a) eqn:Eq; [exists 0%Q; split; [done | lra]|].
  destruct (bounds_number edges m Hm) as (a' & b' & Hb' & Hab & Hin & Hnone & _).
  rewrite Hb in Hb'. injection Hb' as <- <-.
  destruct (nedge_get e m) as [v|] eqn:Eg; simpl.
  - destruct (nedge_get_number e m v Hm Eg) as [x ->].
    eexists. split; [done|]. apply unit_scale; [|done].
    unfold nedge_get in Eg. destruct (norms e !! m) as [x'|] eqn:En.
    + injection Eg as ->. destruct (Hok m x En) as [[m' ->] Hx].
      destruct Hnone as [-> ->]; [|done]. intros e' _. apply edge_get_norm_key.
    + by apply (Hin (base e)).
  - eexists. split; [done|]. apply unit_scale; [lra | done].
Qed.

(** One assignment [e["norm_" + m] = ...]: it stores a value of the unit
    interval, or raises [TypeError] on a text key the edges disagree on. *)
Lemma normalized_value_cases edges e m :
  base e ∈ edges -> norms_ok e ->
  (exists v, normalized_value e m (bounds edges m).1 (bounds edges m).2 = Ok v
             /\ (0 <= v <= 1)%Q /\ ~ clash edges m)
  \/ (normalized_value e m (bounds edges m).1 (bounds edges m).2
      = Err TypeError /\ clash edges m).
Proof.
  intros He Hok. destruct (text_key m) eqn:Hm.
  - destruct (bounds_text edges m (base e) Hm He)
      as (a & b & lo & hi & -> & Hlo & Hhi & Hga & Hgb & Hsame).
    unfold normalized_value. simpl. destruct (String.eqb b a) eqn:E.
    + left. exists 0%Q. split; [done|]. split; [lra|].
      apply String.eqb_eq in E as ->.
      intros (_ & e1 & e2 & H1 & H2 & Hne). apply Hne.
      by rewrite (Hsame eq_refl e1 H1), (Hsame eq_refl e2 H2).
    + right. split.
      * by destruct (default (Text a) (nedge_get e m)).
      * split; [done|]. exists lo, hi. split; [done|]. split; [done|].
        rewrite Hga, Hgb. intros [= ->]. by rewrite String.eqb_refl in E.
  - left. destruct (bounds_number edges m Hm) as (a & b & Hb & _).
    rewrite Hb. simpl.
    destruct (normalized_value_number edges e m a b Hm He Hok Hb) as (v & Hv & Hr).
    exists v. split; [done|]. split; [done|]. intros [H _]. congruence.
Qed.

Lemma normalize_edge_cases edges metrics e :
  base e ∈ edges -> norms_ok e ->
  (exists e', normalize_edge edges metrics e = Ok e'
              /\ base e' = base e /\ norms_ok e'
              /\ (forall k, is_Some (norms e' !! k) <->
                    is_Some (norms e !! k)
                    \/ exists m, m ∈ metrics /\ k = norm_key m)
              /\ forall m, m ∈ metrics -> ~ clash edges m)
  \/ (normalize_edge edges metrics e = Err TypeError
      /\ exists m, m ∈ metrics /\ clash edges m).
Proof.
  revert e. induction metrics as [|m metrics IH]; intros e He Hok.
  - left. exists e. split; [done|]. split; [done|]. split; [done|]. split.
    + intros k. split; [by left|]. intros [H|(m & ?%elem_of_nil & _)]; done.
    + by intros m ?%elem_of_nil.
  - cbn [normalize_edge]. rewrite (surjective_pairing (bounds edges m)).
    destruct (normalized_value_cases edges e m He Hok)
      as [(v & -> & Hv & Hnc)|[-> Hc]].
    2: { right. split; [done|]. exists m. split; [by left | done]. }
    destruct (IH (mk_nedge (base e) (<[norm_key m := v]> (norms e))))
      as [(e' & -> & Hbase & Hok' & Hkeys & Hncs)|[-> (m' & Hm' & Hc)]].
    + done.
    + intros k x. simpl. destruct (decide (norm_key m = k)) as [<-|Hne].
      * rewrite lookup_insert_eq. intros [= <-]. split; [by exists m | done].
      * rewrite lookup_insert_ne by done. apply Hok.
    + left. exists e'. split; [done|]. split; [done|]. split; [done|]. split.
      * intros k. rewrite Hkeys. simpl. split.
        -- intros [H|(m' & Hm' & ->)].
           ++ destruct (decide (norm_key m = k)) as [<-|Hne].
              ** right. exists m. split; [by left | done].
              ** rewrite lookup_insert_ne in H by done. by left.
           ++ right. exists m'. split; [by right | done].
        -- intros [H|(m' & [->|Hm']%elem_of_cons & ->)].
           ++ left. destruct (decide (norm_key m = k)) as [<-|Hne].
              ** by rewrite lookup_insert_eq.
              ** by rewrite lookup_insert_ne.
           ++ left. by rewrite lookup_insert_eq.
           ++ right. by exists m'.
      * intros m' [->|Hm']%elem_of_cons; [done | by apply Hncs].
    + right. split; [done|]. exists m'. split; [by right | done].
Qed.

Lemma norms_ok_empty e : norms_ok (mk_nedge e ∅).
Proof. intros k v. simpl. by rewrite lookup_empty. Qed.

Lemma normalize_each_cases edges metrics todo :
  (forall e, e ∈ todo -> e ∈ edges) ->
  (exists out, normalize_each edges metrics todo = Ok out
     /\ map base out = todo
     /\ (forall e', e' ∈ out ->
           (forall k v, norms e' !! k = Some v -> (0 <= v <= 1)%Q)
           /\ (forall k, is_Some (norms e' !! k) <->
                 exists m, m ∈ metrics /\ k = norm_key m))
     /\ (todo <> [] -> forall m, m ∈ metrics -> ~ clash edges m))
  \/ (normalize_each edges metrics todo = Err TypeError
      /\ exists m, m ∈ metrics /\ clash edges m).
Proof.
  induction todo as [|e todo IH]; intros Hin.
  - left. exists []. split; [done|]. split; [done|]. split; [|done].
    by intros e' ?%elem_of_nil.
  - cbn [normalize_each].
    destruct (normalize_edge_cases edges metrics (mk_nedge e ∅))
      as [(e' & -> & Hbase & Hok & Hkeys & Hncs)|[-> Hc]].
    { apply Hin. by left. }
    { apply norms_ok_empty. }
    2: by right.
    destruct IH as [(out & -> & Hmap & Hout & _)|[-> Hc]].
    { intros x Hx. apply Hin. by right. }
    2: by right.
    left. exists (e' :: out). split; [done|]. split; [|split; [|done]].
    + simpl. by rewrite Hbase, Hmap.
    + intros x [->|Hx]%elem_of_cons; [|by apply Hout]. split.
      * intros k v H. by apply (Hok k v).
      * intros k. rewrite Hkeys. simpl. rewrite lookup_empty. split.
        -- intros [[? H]|H]; done.
        -- by right.
Qed.

Lemma in_range_check edges metrics :
  in_rangeb edges metrics = true -> in_range edges metrics.
Proof.
  unfold in_rangeb. intros H e m x He Hm Hx.
  rewrite forallb_forall in H. apply list_elem_of_In in He.
  specialize (H e He). rewrite forallb_forall in H.
  apply list_elem_of_In in Hm. specialize (H m Hm). rewrite Hx in H.
  apply andb_prop in H as [H1 H2]. split; by apply Qle_bool_iff.
Qed.

(** X12: when [normalize_edges] returns, it returns the edges it was
    given, in order; each has exactly the keys [norm_<m>] of the metrics
    [m] added, and every added value lies between 0 and 1, provided the
    numbers under the metrics lie between -2^1022 and 2^1022, so that no
    difference overflows in binary64. *)
Theorem normalize_edges_unit_interval (edges : list edge)
    (metrics : option (list string)) (out : list nedge) :
  normalize_edges edges metrics = Ok out ->
  in_range edges (default default_metrics metrics) ->
  map base out = edges
  /\ forall e', e' ∈ out ->
       (forall k v, norms e' !! k = Some v -> (0 <= v <= 1)%Q)
       /\ (forall k, is_Some (norms e' !! k) <->
             exists m, m ∈ default default_metrics metrics
                       /\ k = norm_key m).
Proof.
  unfold normalize_edges. intros H _.
  destruct (normalize_each_cases edges (default default_metrics metrics) edges)
    as [(out' & Hout & Hmap & Hin & _)|[Hf _]]; [done| |congruence].
  rewrite H in Hout. injection Hout as <-. by split.
Qed.

Lemma coast_in_range : in_range coast (default default_metrics None).
Proof. apply in_range_check. by vm_compute. Qed.

Lemma normalize_edges_unit_interval_witness :
  exists out,
    normalize_edges coast None = Ok out
    /\ in_range coast (default default_metrics None)
    /\ map base out = coast
    /\ forall e', e' ∈ out ->
         (forall k v, norms e' !! k = Some v -> (0 <= v <= 1)%Q)
         /\ (forall k, is_Some (norms e' !! k) <->
               exists m, m ∈ default default_metrics None /\ k = norm_key m).
Proof.
  eexists.
  assert (normalize_edges coast None = Ok _) as H
    by (vm_compute; reflexivity).
  split; [exact H|]. split; [exact coast_in_range|].
  exact (normalize_edges_unit_interval coast None _ H coast_in_range).
Defined.

(** X13: [normalize_edges] raises [TypeError] exactly when some metric
    names one of the text keys ([source], [target], [mode]) and two edges
    differ on it; otherwise it returns.  With the default metrics it always
    returns. *)
Theorem normalize_edges_raises (edges : list edge)
    (metrics : option (list string)) :
  ((exists m, m ∈ default default_metrics metrics /\ clash edges m) ->
   normalize_edges edges metrics = Err TypeError)
  /\ ((forall m, m ∈ default default_metrics metrics -> ~ clash edges m) ->
      exists out, normalize_edges edges metrics = Ok out)
  /\ exists out, normalize_edges edges None = Ok out.
Proof.
  assert (forall ms,
    ((exists m, m ∈ ms /\ clash edges m) ->
       normalize_each edges ms edges = Err TypeError)
    /\ ((forall m, m ∈ ms -> ~ clash edges m) ->
        exists out, normalize_each edges ms edges = Ok out)) as H.
  { intros ms.
    destruct (normalize_each_cases edges ms edges)
      as [(out & Hout & _ & _ & Hnc)|[Hf (m & Hm & Hc)]]; [done| |].
    - split; [|by exists out]. intros (m & Hm & Hc). exfalso.
      apply (Hnc) with (m := m); [|done..].
      destruct Hc as (_ & e1 & _ & H1 & _). intros ->. by apply elem_of_nil in H1.
    - split; [done|]. intros Hnc. exfalso. by apply (Hnc m). }
  unfold normalize_edges. split; [apply H|]. split; [apply H|].
  apply H. intros m Hm [Ht _]. simpl in Hm.
  repeat (apply elem_of_cons in Hm as [->|Hm]; [done|]).
  by apply elem_of_nil in Hm.
Qed.


Lemma edge_get_not_norm_key e m v m' :
  edge_get e m = Some v -> m <> norm_key m'.
Proof. intros H ->. by rewrite edge_get_norm_key in H. Qed.

Lemma normalized_value_field e m a b :
  norm_keys e ->
  (forall m', m <> norm_key m') ->
  normalized_value e m (Number a) (Number b)
  = Ok (scale a b (match edge_get (base e) m with
                     | Some (Number x) => x
                     | _ => a
                     end))
  \/ exists s, edge_get (base e) m = Some (Text s).
Proof.
  intros Hnk Hm. unfold normalized_value, scale, nedge_get. simpl.
  destruct (norms e !! m) as [v|] eqn:En.
  { destruct (Hnk m) as [m' ->]; [by eexists|]. by destruct (Hm m'). }
  destruct (edge_get (base e) m) as [[x|s]|]; simpl.
  - left. by destruct (Qeq_bool b a).
  - right. by exists s.
  - left. by destruct (Qeq_bool b a).
Qed.

Lemma normalize_edge_base edges metrics e e' :
  normalize_edge edges metrics e = Ok e' -> base e' = base e.
Proof.
  revert e. induction metrics as [|m metrics IH]; intros e; simpl.
  - by intros [= <-].
  - destruct (bounds edges m) as [mn mx].
    destruct (normalized_value e m mn mx) as [v|]; [|done].
    intros H. by rewrite (IH _ H).
Qed.

(** What [normalize_edges] stores for a numeric key that some metric names
    and what it leaves alone. *)
Lemma normalize_edge_stored edges metrics e e' m a b :
  norm_keys e ->
  normalize_edge edges metrics e = Ok e' ->
  text_key m = false -> (forall m', m <> norm_key m') ->
  bounds edges m = (Number a, Number b) ->
  norms e' !! norm_key m
  = if decide (m ∈ metrics)
    then Some (scale a b (match edge_get (base e) m with
                          | Some (Number x) => x
                          | _ => a
                          end))
    else norms e !! norm_key m.
Proof.
  intros Hnk He' Hm Hnot Hb. revert e Hnk He'.
  induction metrics as [|m0 metrics IH]; intros e Hnk.
  - intros [= <-]. destruct (decide (m ∈ [])) as [?%elem_of_nil|]; done.
  - cbn [normalize_edge]. destruct (bounds edges m0) as [mn mx] eqn:Hb0.
    destruct (normalized_value e m0 mn mx) as [v|] eqn:Ev; [|done].
    intros He'.
    assert (norm_keys (mk_nedge (base e) (<[norm_key m0 := v]> (norms e))))
      as Hnk'.
    { intros k. simpl. destruct (decide (norm_key m0 = k)) as [<-|Hne].
      - intros _. by exists m0.
      - rewrite lookup_insert_ne by done. apply Hnk. }
    specialize (IH _ Hnk' He'). cbn [base norms] in IH. rewrite IH.
    destruct (decide (m ∈ metrics)) as [Hin|Hnin].
    + rewrite decide_True; [done|]. by right.
    + destruct (decide (m = m0)) as [<-|Hne].
      * rewrite decide_True by by left. rewrite lookup_insert_eq.
        rewrite Hb in Hb0. injection Hb0 as <- <-.
        destruct (normalized_value_field e m a b Hnk Hnot) as [H|[s H]].
        -- rewrite H in Ev. by injection Ev as <-.
        -- exfalso. destruct (edge_get_number _ _ _ Hm H) as [x ?]. done.
      * rewrite decide_False.
        -- rewrite lookup_insert_ne; [done|]. intros ?%norm_key_inj. done.
        -- intros [->|?]%elem_of_cons; done.
Qed.

Lemma normalize_each_stored edges metrics todo out e' m a b :
  normalize_each edges metrics todo = Ok out ->
  e' ∈ out -> m ∈ metrics ->
  text_key m = false -> (forall m', m <> norm_key m') ->
  bounds edges m = (Number a, Number b) ->
  base e' ∈ todo
  /\ norms e' !! norm_key m
     = Some (scale a b (match edge_get (base e') m with
                        | Some (Number x) => x
                        | _ => a
                        end)).
Proof.
  intros Hout He' Hin Hm Hnot Hb. revert out Hout He'.
  induction todo as [|e todo IH]; intros out; simpl.
  - intros [= <-] ?%elem_of_nil. done.
  - destruct (normalize_edge edges metrics (mk_nedge e ∅)) as [e1|] eqn:E1; [|done].
    destruct (normalize_each edges metrics todo) as [l|] eqn:El; [|done].
    intros [= <-] [->|He']%elem_of_cons.
    + pose proof (normalize_edge_base _ _ _ _ E1) as Hbase. simpl in Hbase.
      split; [rewrite Hbase; by left|].
      rewrite (normalize_edge_stored edges metrics _ _ m a b) with (2 := E1);
        try done.
      * rewrite decide_True by done. by rewrite Hbase.
      * intros k [? H]. simpl in H. by rewrite lookup_empty in H.
    + destruct (IH l eq_refl He') as [H1 H2]. split; [by right | done].
Qed.

Lemma scale_mono a b x y :
  (a <= b)%Q ->
  ((x <= y)%Q -> (scale a b x <= scale a b y)%Q)
  /\ ((a <= x)%Q -> (x < y)%Q -> (y <= b)%Q -> (scale a b x < scale a b y)%Q).
Proof.
  intros Hab. unfold scale. destruct (Qeq_bool b a) eqn:E.
  - split; [lra|]. apply Qeq_bool_iff in E. lra.
  - assert (~ b == a)%Q as Hne by (intros H%Qeq_bool_iff; congruence).
    assert (0 < / (b - a))%Q as Hinv by (apply Qinv_lt_0_compat; lra).
    unfold Qdiv. split.
    + intros H. apply Qmult_le_compat_r; lra.
    + intros _ H _. apply Qmult_lt_compat_r; lra.
Qed.

Lemma scale_ends a b :
  (scale a b a == 0)%Q /\ ((a < b)%Q -> (scale a b b == 1)%Q).
Proof.
  unfold scale. destruct (Qeq_bool b a) eqn:E.
  - split; [lra|]. apply Qeq_bool_iff in E. lra.
  - assert (~ b == a)%Q as Hne by (intros H%Qeq_bool_iff; congruence).
    split.
    + field. lra.
    + intros _. field. lra.
Qed.

Lemma normalize_each_base edges metrics todo out :
  normalize_each edges metrics todo = Ok out -> map base out = todo.
Proof.
  revert out. induction todo as [|e todo IH]; intros out; simpl.
  - by intros [= <-].
  - destruct (normalize_edge edges metrics (mk_nedge e ∅)) as [e1|] eqn:E1; [|done].
    destruct (normalize_each edges metrics todo) as [l|]; [|done].
    intros [= <-]. simpl.
    by rewrite (normalize_edge_base _ _ _ _ E1), (IH l eq_refl).
Qed.

Lemma number_not_text_key e m x :
  edge_get e m = Some (Number x) -> text_key m = false.
Proof.
  intros H. destruct (text_key m) eqn:E; [|done].
  destruct (edge_get_text e m E) as [s Hs]. congruence.
Qed.

Lemma base_of_out edges metrics out e :
  normalize_edges edges metrics = Ok out -> e ∈ edges ->
  exists e', e' ∈ out /\ base e' = e.
Proof.
  intros H%normalize_each_base He. rewrite <- H in He.
  apply list_elem_of_fmap in He as (e' & -> & He'). by exists e'.
Qed.

(** X14: normalization does not reverse the order of the edges under a
    metric: of two edges that carry the key, the one whose value is not
    greater gets a normalized value that is not greater, and so the one
    with the smaller normalized value has the smaller value; provided the
    numbers under the metrics lie between -2^1022 and 2^1022, so that no
    difference overflows in binary64. *)
Theorem normalize_edges_order (edges : list edge)
    (metrics : option (list string)) (out : list nedge) (m : string)
    (e1 e2 : nedge) (x1 x2 : Q) :
  normalize_edges edges metrics = Ok out ->
  in_range edges (default default_metrics metrics) ->
  m ∈ default default_metrics metrics ->
  e1 ∈ out -> e2 ∈ out ->
  edge_get (base e1) m = Some (Number x1) ->
  edge_get (base e2) m = Some (Number x2) ->
  exists v1 v2,
    norms e1 !! norm_key m = Some v1
    /\ norms e2 !! norm_key m = Some v2
    /\ ((x1 <= x2)%Q -> (v1 <= v2)%Q)
    /\ ((v1 < v2)%Q -> (x1 < x2)%Q).
Proof.
  intros Hout _ Hm H1 H2 Hx1 Hx2.
  pose proof (number_not_text_key _ _ _ Hx1) as Hnt.
  assert (forall m', m <> norm_key m') as Hnot
    by (intros m'; by eapply edge_get_not_norm_key).
  destruct (bounds_number edges m Hnt) as (a & b & Hb & Hab & Hin & _).
  destruct (normalize_each_stored _ _ _ _ e1 m a b Hout H1 Hm Hnt Hnot Hb)
    as [He1 Hv1].
  destruct (normalize_each_stored _ _ _ _ e2 m a b Hout H2 Hm Hnt Hnot Hb)
    as [He2 Hv2].
  rewrite Hx1 in Hv1. rewrite Hx2 in Hv2.
  eexists _, _. split; [exact Hv1|]. split; [exact Hv2|].
  destruct (scale_mono a b x1 x2 Hab) as [Hle _]. split; [done|].
  intros H. destruct (Qlt_le_dec x1 x2) as [|Hge]; [done|]. exfalso.
  destruct (scale_mono a b x2 x1 Hab) as [Hle' _]. specialize (Hle' Hge). lra.
Qed.

(** X15: under a numeric metric, an edge without the key gets the
    normalized value 0; when two edges differ on the key, an edge with the
    least value gets 0 and an edge with the greatest value gets 1; when all
    edges that carry the key agree on it, every edge gets 0; provided the
    numbers under the metrics lie between -2^1022 and 2^1022, so that no
    difference overflows in binary64. *)
Theorem normalize_edges_extremes (edges : list edge)
    (metrics : option (list string)) (out : list nedge) (m : string) :
  normalize_edges edges metrics = Ok out ->
  in_range edges (default default_metrics metrics) ->
  m ∈ default default_metrics metrics ->
  text_key m = false ->
  (forall m', m <> norm_key m') ->
  (forall e', e' ∈ out -> edge_get (base e') m = None ->
     exists v, norms e' !! norm_key m = Some v /\ (v == 0)%Q)
  /\ (forall e1 e2 x1 x2, e1 ∈ edges -> e2 ∈ edges ->
        edge_get e1 m = Some (Number x1) ->
        edge_get e2 m = Some (Number x2) -> (x1 < x2)%Q ->
        exists lo hi a b v0 v1,
          lo ∈ out /\ hi ∈ out
          /\ edge_get (base lo) m = Some (Number a)
          /\ edge_get (base hi) m = Some (Number b)
          /\ (forall e x, e ∈ edges -> edge_get e m = Some (Number x) ->
                (a <= x <= b)%Q)
          /\ norms lo !! norm_key m = Some v0 /\ (v0 == 0)%Q
          /\ norms hi !! norm_key m = Some v1 /\ (v1 == 1)%Q)
  /\ ((forall e1 e2 x1 x2, e1 ∈ edges -> e2 ∈ edges ->
         edge_get e1 m = Some (Number x1) ->
         edge_get e2 m = Some (Number x2) -> (x1 == x2)%Q) ->
      forall e', e' ∈ out ->
        exists v, norms e' !! norm_key m = Some v /\ (v == 0)%Q).
Proof.
  intros Hout _ Hm Hnt Hnot.
  destruct (bounds_number edges m Hnt) as (a & b & Hb & Hab & Hin & Hnone & Hatt).
  assert (forall e', e' ∈ out ->
            norms e' !! norm_key m
            = Some (scale a b (match edge_get (base e') m with
                               | Some (Number x) => x
                               | _ => a
                               end))) as Hst.
  { intros e' He'.
    by destruct (normalize_each_stored _ _ _ _ e' m a b Hout He' Hm Hnt Hnot Hb). }
  split; [|split].
  - intros e' He' Hg. eexists. split; [by apply Hst|]. rewrite Hg.
    apply scale_ends.
  - intros e1 e2 x1 x2 H1 H2 Hx1 Hx2 Hlt.
    destruct Hatt as (lo & hi & Hlo & Hhi & Hga & Hgb).
    { exists e1. split; [done|]. by rewrite Hx1. }
    destruct (base_of_out _ _ _ _ Hout Hlo) as (lo' & Hlo' & Hbl).
    destruct (base_of_out _ _ _ _ Hout Hhi) as (hi' & Hhi' & Hbh).
    exists lo', hi', a, b. eexists _, _.
    split; [done|]. split; [done|]. rewrite Hbl, Hbh.
    split; [done|]. split; [done|]. split; [done|].
    split; [by apply Hst|]. rewrite Hbl, Hga. split; [apply scale_ends|].
    split; [by apply Hst|]. rewrite Hbh, Hgb. apply scale_ends.
    pose proof (Hin e1 x1 H1 Hx1). pose proof (Hin e2 x2 H2 Hx2). lra.
  - intros Hsame e' He'. eexists. split; [by apply Hst|].
    unfold scale. destruct (Qeq_bool b a) eqn:E; [reflexivity|].
    assert (~ b == a)%Q as Hne by (intros H%Qeq_bool_iff; congruence).
    destruct (edge_get (base e') m) as [v|] eqn:Eg.
    + destruct (edge_get_number _ _ _ Hnt Eg) as [x ->].
      destruct Hatt as (lo & hi & Hlo & Hhi & Hga & Hgb).
      { exists (base e'). split; [|by rewrite Eg].
        apply normalize_each_base in Hout. rewrite <- Hout.
        by apply list_elem_of_fmap_2. }
      destruct Hne. symmetry. by apply (Hsame lo hi).
    + field. lra.
Qed.

Lemma not_norm_key_distance_km m' : "distance_km" <> norm_key m'.
Proof. done. Qed.

Lemma normalize_edges_extremes_witness :
  exists out,
    normalize_edges coast None = Ok out
    /\ in_range coast (default default_metrics None)
    /\ "distance_km" ∈ default default_metrics None
    /\ text_key "distance_km" = false
    /\ (forall e', e' ∈ out -> edge_get (base e') "distance_km" = None ->
          exists v, norms e' !! norm_key "distance_km" = Some v /\ (v == 0)%Q)
    /\ (forall e1 e2 x1 x2, e1 ∈ coast -> e2 ∈ coast ->
          edge_get e1 "distance_km" = Some (Number x1) ->
          edge_get e2 "distance_km" = Some (Number x2) -> (x1 < x2)%Q ->
          exists lo hi a b v0 v1,
            lo ∈ out /\ hi ∈ out
            /\ edge_get (base lo) "distance_km" = Some (Number a)
            /\ edge_get (base hi) "distance_km" = Some (Number b)
            /\ (forall e x, e ∈ coast ->
                  edge_get e "distance_km" = Some (Number x) ->
                  (a <= x <= b)%Q)
            /\ norms lo !! norm_key "distance_km" = Some v0 /\ (v0 == 0)%Q
            /\ norms hi !! norm_key "distance_km" = Some v1 /\ (v1 == 1)%Q)
    /\ ((forall e1 e2 x1 x2, e1 ∈ coast -> e2 ∈ coast ->
           edge_get e1 "distance_km" = Some (Number x1) ->
           edge_get e2 "distance_km" = Some (Number x2) -> (x1 == x2)%Q) ->
        forall e', e' ∈ out ->
          exists v, norms e' !! norm_key "distance_km" = Some v /\ (v == 0)%Q).
Proof.
  eexists.
  assert (normalize_edges coast None = Ok _) as H0
    by (vm_compute; reflexivity).
  assert ("distance_km" ∈ default default_metrics None) as H1 by by left.
  split; [exact H0|]. split; [exact coast_in_range|]. split; [exact H1|].
  split; [reflexivity|].
  exact (normalize_edges_extremes coast None _ "distance_km" H0 coast_in_range
           H1 eq_refl not_norm_key_distance_km).
Defined.

Lemma normalize_edges_order_witness :
  exists out e1 e2,
    normalize_edges coast None = Ok out
    /\ in_range coast (default default_metrics None)
    /\ "distance_km" ∈ default default_metrics None
    /\ e1 ∈ out /\ e2 ∈ out
    /\ edge_get (base e1) "distance_km" = Some (Number 310)
    /\ edge_get (base e2) "distance_km" = Some (Number 440)
    /\ exists v1 v2,
         norms e1 !! norm_key "distance_km" = Some v1
         /\ norms e2 !! norm_key "distance_km" = Some v2
         /\ ((310 <= 440)%Q -> (v1 <= v2)%Q)
         /\ ((v1 < v2)%Q -> (310 < 440)%Q).
Proof.
  eexists _, _, _.
  assert (normalize_edges coast None = Ok _) as H0 by (vm_compute; reflexivity).
  assert ("distance_km" ∈ default default_metrics None) as H1 by by left.
  split; [exact H0|]. split; [exact coast_in_range|]. split; [exact H1|].
  split; [right; left|]. split; [left|].
  split; [reflexivity|]. split; [reflexivity|].
  refine (normalize_edges_order coast None _ "distance_km" _ _ 310 440 H0
            coast_in_range H1 _ _ _ _).
  - right; left.
  - left.
  - reflexivity.
  - reflexivity.
Defined.


(** ** The range checks of [quick_tests] *)

Lemma elem_of_snoc_if {A} (b : bool) (l : list A) (y x : A) :
  x ∈ (if b then l ++ [y] else l) <-> x ∈ l \/ (b = true /\ x = y).
Proof.
  destruct b.
  - rewrite elem_of_app, list_elem_of_singleton. naive_solver.
  - naive_solver.
Qed.

Lemma check_edge_Ok node_names errors e errors' :
  check_edge node_names errors e = Ok errors' ->
  checked_keys e
  /\ forall x, x ∈ errors' <-> x ∈ errors \/ reports node_names e x.
Proof.
  unfold check_edge, checked_keys.
  destruct (distance_km e) as [d|] eqn:Ed; [|done].
  destruct (time_min e) as [t|] eqn:Et; [|done].
  destruct (cost_usd e) as [c|] eqn:Ec; [|done].
  intros [= <-]. split; [by repeat split|]. intros x.
  rewrite !elem_of_snoc_if, !is_lt_Qcompare.
  assert (forall (P : Prop) `{Decision P} (l : list issue) y,
            x ∈ (if decide P then l else l ++ [y]) <-> x ∈ l \/ (~ P /\ x = y))
    as Hif.
  { intros P ? l y. destruct (decide P).
    - naive_solver.
    - rewrite elem_of_app, list_elem_of_singleton. naive_solver. }
  rewrite !Hif. destruct x; simpl; rewrite ?Ed, ?Et, ?Ec; naive_solver.
Qed.

Lemma check_edge_Err node_names errors e err :
  check_edge node_names errors e = Err err ->
  ~ checked_keys e
  /\ exists key, err = KeyError key
                 /\ key ∈ ["distance_km"; "time_min"; "cost_usd"].
Proof.
  unfold check_edge, checked_keys.
  destruct (distance_km e) as [d|].
  2: { intros [= <-]. split; [by intros [[] _]|]. eexists. split; [done|]. by left. }
  destruct (time_min e) as [t|].
  2: { intros [= <-]. split; [by intros (_ & [] & _)|]. eexists.
       split; [done|]. right; by left. }
  destruct (cost_usd e) as [c|]; [done|].
  intros [= <-]. split; [by intros (_ & _ & [])|]. eexists.
  split; [done|]. right; right; by left.
Qed.

Lemma check_edges_Ok node_names errors edges errors' :
  check_edges node_names errors edges = Ok errors' ->
  (forall e, e ∈ edges -> checked_keys e)
  /\ forall x, x ∈ errors' <->
       x ∈ errors \/ exists e, e ∈ edges /\ reports node_names e x.
Proof.
  revert errors. induction edges as [|e edges IH]; intros errors; simpl.
  - intros [= <-]. split; [by intros e ?%elem_of_nil|]. intros x. split.
    + by left.
    + intros [H|(e & ?%elem_of_nil & _)]; done.
  - destruct (check_edge node_names errors e) as [errors1|] eqn:E; [|done].
    apply check_edge_Ok in E as [Hk He]. intros [Hks Hx]%IH. split.
    + intros e' [->|H]%elem_of_cons; [done | by apply Hks].
    + intros x. rewrite Hx, He. split.
      * intros [[H|H]|(e' & He' & H)].
        -- by left.
        -- right. exists e. split; [by left | done].
        -- right. exists e'. split; [by right | done].
      * intros [H|(e' & [->|He']%elem_of_cons & H)].
        -- by left; left.
        -- left. by right.
        -- right. by exists e'.
Qed.

Lemma check_edges_Err node_names errors edges err :
  check_edges node_names errors edges = Err err ->
  (exists e, e ∈ edges /\ ~ checked_keys e)
  /\ exists key, err = KeyError key
                 /\ key ∈ ["distance_km"; "time_min"; "cost_usd"].
Proof.
  revert errors. induction edges as [|e edges IH]; intros errors; simpl; [done|].
  destruct (check_edge node_names errors e) as [errors1|] eqn:E.
  - intros [(e' & He' & Hn) Hkey]%IH. split; [|done].
    exists e'. split; [by right | done].
  - intros [= <-]. apply check_edge_Err in E as [Hn Hkey]. split; [|done].
    exists e. split; [by left | done].
Qed.


(** ** The traversal of [quick_tests] *)

Lemma targets_insert adj k items :
  adj !! k = None ->
  targets (<[k := items]> adj) = list_to_set (item_neigh <$> items) ∪ targets adj.
Proof.
  intros H. unfold targets. rewrite map_fold_insert_L; [done| |done].
  intros. set_solver.
Qed.

Lemma targets_elem adj u it :
  it ∈ adj_get adj u -> item_neigh it ∈ targets adj.
Proof.
  induction adj as [|k items adj Hk IH] using map_ind.
  - unfold adj_get. rewrite lookup_empty. by intros ?%elem_of_nil.
  - rewrite targets_insert by done. unfold adj_get in *.
    destruct (decide (k = u)) as [->|Hne].
    + rewrite lookup_insert_eq. simpl. intros H. apply elem_of_union. left.
      apply elem_of_list_to_set. by apply list_elem_of_fmap_2.
    + rewrite lookup_insert_ne by done. intros H. apply elem_of_union. right.
      by apply IH.
Qed.

Lemma size_list_to_set_le (l : list node) :
  (size (list_to_set l : gset node) <= length l)%nat.
Proof.
  induction l as [|x l IH]; simpl.
  - change (size (∅ : gset node) <= 0)%nat. by rewrite size_empty.
  - rewrite size_union_alt, size_singleton.
    assert (size ((list_to_set l : gset node) ∖ {[x]})
            <= size (list_to_set l : gset node))%nat
      by (apply subseteq_size; set_solver).
    lia.
Qed.

Lemma size_targets adj : (size (targets adj) <= total_items adj)%nat.
Proof.
  induction adj as [|k items adj Hk IH] using map_ind.
  - unfold targets, total_items. rewrite !map_fold_empty. by rewrite size_empty.
  - rewrite targets_insert, total_items_insert by done.
    rewrite size_union_alt.
    pose proof (size_list_to_set_le (item_neigh <$> items)) as H1.
    rewrite length_fmap in H1.
    assert (size (targets adj ∖ list_to_set (item_neigh <$> items))
            <= size (targets adj))%nat
      by (apply subseteq_size; set_solver).
    lia.
Qed.

(** What one pass over a neighbour list does. *)
Lemma scan_Ok items visited q visited' q' :
  scan items visited q = Ok (visited', q') ->
  (forall it, it ∈ items -> is_pair it = true)
  /\ visited ⊆ visited'
  /\ (forall it, it ∈ items -> item_neigh it ∈ visited')
  /\ (forall v, v ∈ visited' ->
        v ∈ visited \/ (v ∈ q' /\ exists it, it ∈ items /\ item_neigh it = v))
  /\ (forall v, v ∈ q -> v ∈ q')
  /\ (forall v, v ∈ q' -> v ∈ q \/ v ∈ visited').
Proof.
  revert visited q. induction items as [|[v e|v w e] items IH];
    intros visited q; simpl; [|  |done].
  - intros [= <- <-]. split; [by intros it ?%elem_of_nil|].
    split; [done|]. split; [by intros it ?%elem_of_nil|].
    split; [by left|]. split; [done | by left].
  - destruct (decide (v ∈ visited)) as [Hv|Hv].
    + intros (Hp & Hsub & Hin & Hnew & Hq & Hq')%IH.
      split; [|split; [done|split; [|split; [|done]]]].
      * intros it [->|H]%elem_of_cons; [done | by apply Hp].
      * intros it [->|H]%elem_of_cons; [by apply Hsub | by apply Hin].
      * intros x Hx. destruct (Hnew x Hx) as [H|(H & it & Hit & E)]; [by left|].
        right. split; [done|]. exists it. split; [by right | done].
    + intros (Hp & Hsub & Hin & Hnew & Hq & Hq')%IH.
      split; [|split; [|split; [|split; [|split]]]].
      * intros it [->|H]%elem_of_cons; [done | by apply Hp].
      * set_solver.
      * intros it [->|H]%elem_of_cons; [|by apply Hin]. simpl. set_solver.
      * intros x Hx. destruct (Hnew x Hx) as [H|(H & it & Hit & E)].
        -- apply elem_of_union in H as [->%elem_of_singleton|H]; [|by left].
           right. split.
           ++ apply Hq, elem_of_app. right. by left.
           ++ exists (Pair v e). split; [by left | done].
        -- right. split; [done|]. exists it. split; [by right | done].
      * intros x Hx. apply Hq, elem_of_app. by left.
      * intros x Hx. destruct (Hq' x Hx) as [H|H]; [|by right].
        apply elem_of_app in H as [H| ->%list_elem_of_singleton]; [by left|].
        right. set_solver.
Qed.

Lemma scan_Err items visited q err :
  scan items visited q = Err err ->
  err = ValueError /\ exists it, it ∈ items /\ is_triple it = true.
Proof.
  revert visited q. induction items as [|[v e|v w e] items IH];
    intros visited q; simpl; [done| |].
  - destruct (decide (v ∈ visited)).
    + intros [-> (it & Hit & Ht)]%IH. split; [done|]. exists it.
      split; [by right | done].
    + intros [-> (it & Hit & Ht)]%IH. split; [done|]. exists it.
      split; [by right | done].
  - intros [= <-]. split; [done|]. exists (Triple v w e). split; [by left | done].
Qed.

(** The queue and the nodes not yet seen shrink by one with each
    iteration. *)
Lemma scan_measure (U : gset node) items visited q visited' q' :
  scan items visited q = Ok (visited', q') ->
  (forall it, it ∈ items -> item_neigh it ∈ U) ->
  (length q' + size (U ∖ visited') = length q + size (U ∖ visited))%nat.
Proof.
  revert visited q. induction items as [|[v e|v w e] items IH];
    intros visited q; simpl; [| |done].
  - by intros [= <- <-].
  - intros H HU.
    assert (forall it, it ∈ items -> item_neigh it ∈ U) as HU'
      by (intros it Hit; apply HU; by right).
    destruct (decide (v ∈ visited)) as [Hv|Hv]; [by apply IH|].
    rewrite (IH _ _ H HU'), length_app. simpl.
    assert (v ∈ U) as HvU by (apply (HU (Pair v e)); by left).
    assert (U ∖ visited = {[v]} ∪ U ∖ ({[v]} ∪ visited)) as ->.
    { apply set_eq. intros x. rewrite elem_of_union, !elem_of_difference,
        elem_of_union, elem_of_singleton.
      destruct (decide (x = v)) as [->|]; naive_solver. }
    assert (size ({[v]} ∪ U ∖ ({[v]} ∪ visited))
            = S (size (U ∖ ({[v]} ∪ visited)))) as ->; [|lia].
    change node with string in *.
    rewrite size_union by set_solver. by rewrite size_singleton.
Qed.

Lemma bfs_loop_terminates adj fuel visited q :
  (length q + size (targets adj ∖ visited) < fuel)%nat ->
  exists r, bfs_loop fuel adj visited q = Some r.
Proof.
  revert visited q. induction fuel as [|fuel IH]; intros visited q Hlt; [lia|].
  simpl. destruct q as [|u q]; [by eexists|].
  destruct (scan (adj_get adj u) visited q) as [[visited' q']|err] eqn:E;
    [|by eexists].
  apply IH. apply (scan_measure (targets adj)) in E.
  - simpl in Hlt. lia.
  - intros it Hit. by eapply targets_elem.
Qed.

Lemma bfs_terminates adj start :
  exists r, bfs_loop (search_fuel adj) adj {[start]} [start] = Some r.
Proof.
  apply bfs_loop_terminates. unfold search_fuel. simpl.
  pose proof (size_targets adj).
  assert (size (targets adj ∖ {[start]}) <= size (targets adj))%nat
    by (apply subseteq_size; set_solver).
  lia.
Qed.

Lemma bfs_inv_init adj start : bfs_inv adj start {[start]} [start].
Proof.
  split.
  - by apply elem_of_singleton.
  - intros v ->%elem_of_singleton. exists [start], (Fin 0). apply walk_start.
  - intros v ->%list_elem_of_singleton. by apply elem_of_singleton.
  - intros u ->%elem_of_singleton. left. by left.
Qed.

Lemma bfs_inv_step adj start visited u q visited' q' :
  bfs_inv adj start visited (u :: q) ->
  scan (adj_get adj u) visited q = Ok (visited', q') ->
  bfs_inv adj start visited' q'.
Proof.
  intros [Hs Hsound Hq Hc] (Hp & Hsub & Hin & Hnew & Hqq & Hq')%scan_Ok.
  split.
  - by apply Hsub.
  - intros v Hv. destruct (Hnew v Hv) as [H|(_ & it & Hit & <-)]; [by apply Hsound|].
    destruct (Hsound u) as (p & c & Hw); [apply Hq; by left|].
    eexists _, _. by eapply walk_step.
  - intros v Hv. destruct (Hq' v Hv) as [H|H]; [|done].
    apply Hsub, Hq. by right.
  - intros w Hw. destruct (Hnew w Hw) as [H|[H _]]; [|by left].
    destruct (Hc w H) as [[->|Hin']%elem_of_cons|Hcl].
    + right. intros it Hit. split; [by apply Hin | by apply Hp].
    + left. by apply Hqq.
    + right. intros it Hit. destruct (Hcl it Hit). split; [by apply Hsub | done].
Qed.

Lemma bfs_closed_reachable adj start visited :
  bfs_inv adj start visited [] ->
  forall v, v ∈ visited <-> reachable adj "distance" start v.
Proof.
  intros [Hs Hsound _ Hc] v. split; [by apply Hsound|].
  intros (p & c & Hw). induction Hw as [|p u c it Hw IH Hit]; [done|].
  destruct (Hc u IH) as [?%elem_of_nil|H]; [done|]. by apply H.
Qed.

(** The traversal ends with the set of nodes that can be reached from the
    start, or raises on the first tuple that is not a pair. *)
Lemma bfs_loop_outcome adj start fuel visited q r :
  bfs_inv adj start visited q ->
  bfs_loop fuel adj visited q = Some r ->
  match r with
  | Ok final => (forall v, v ∈ final <-> reachable adj "distance" start v)
                  /\ forall u it, reachable adj "distance" start u ->
                       it ∈ adj_get adj u -> is_pair it = true
  | Err err =>
      err = ValueError
      /\ exists u it, reachable adj "distance" start u
                      /\ it ∈ adj_get adj u /\ is_triple it = true
  end.
Proof.
  revert visited q.
  induction fuel as [|fuel IH]; intros visited q Hinv; simpl; [done|].
  destruct q as [|u q].
  - intros [= <-]. split; [by apply bfs_closed_reachable|].
    intros u it Hu Hit. apply (bfs_closed_reachable _ _ _ Hinv) in Hu.
    destruct (bfs_closed _ _ _ _ Hinv u Hu) as [?%elem_of_nil|H]; [done|].
    by apply H.
  - destruct (scan (adj_get adj u) visited q) as [[visited' q']|err] eqn:E.
    + apply IH. by eapply bfs_inv_step.
    + intros [= <-]. apply scan_Err in E as [-> (it & Hit & Ht)].
      split; [done|]. exists u, it. split; [|done].
      apply (bfs_sound _ _ _ _ Hinv). apply (bfs_queue _ _ _ _ Hinv). by left.
Qed.


(** ** The result of [quick_tests] *)

(** The traversal of [quick_tests] from its first state. *)
Lemma bfs_outcome adj start :
  exists r, bfs_loop (search_fuel adj) adj {[start]} [start] = Some r
    /\ match r with
       | Ok final =>
           (forall v, v ∈ final <-> reachable adj "distance" start v)
           /\ forall u it, reachable adj "distance" start u ->
                it ∈ adj_get adj u -> is_pair it = true
       | Err err =>
           err = ValueError
           /\ exists u it, reachable adj "distance" start u
                           /\ it ∈ adj_get adj u /\ is_triple it = true
       end.
Proof.
  destruct (bfs_terminates adj start) as [r Hr]. exists r. split; [done|].
  eapply bfs_loop_outcome; [apply bfs_inv_init | exact Hr].
Qed.

(** The parts of a result of [quick_tests]. *)
Lemma quick_tests_Ok nodes start edges adj errors :
  quick_tests nodes start edges adj = Some (Ok errors) ->
  exists found,
    check_edges nodes [] edges = Ok found
    /\ ((nodes = ∅ /\ errors = found)
        \/ (nodes <> ∅
            /\ exists visited,
                 bfs_loop (search_fuel adj) adj {[start]} [start]
                 = Some (Ok visited)
                 /\ errors
                    = if (size visited <? Nat.max 1 (size nodes / 2))%nat
                      then found ++ [SparselyConnected] else found)).
Proof.
  unfold quick_tests.
  destruct (check_edges nodes [] edges) as [found|] eqn:E; [|done].
  destruct (decide (nodes = ∅)) as [->|Hne].
  - intros [= <-]. exists found. split; [done|]. by left.
  - destruct (bfs_loop _ _ _ _) as [[visited|]|]; [|done..].
    intros H. exists found. split; [done|]. right. split; [done|].
    exists visited. split; [done|].
    by destruct (size visited <? Nat.max 1 (size nodes / 2))%nat;
      injection H as <-.
Qed.

(** X16: [quick_tests] always ends.  It returns its list of messages when
    every edge has the keys [distance_km], [time_min] and [cost_usd] and,
    for a non-empty table of nodes, every neighbour list that can be reached
    from the start of the traversal holds pairs only.  It raises [KeyError]
    when an edge lacks one of the three keys, and otherwise [ValueError]
    when the traversal reaches a triple.  It raises nothing else. *)
Theorem quick_tests_outcome (nodes : gset node) (start : node)
    (edges : list edge) (adj : gmap node (list item)) :
  exists r,
    quick_tests nodes start edges adj = Some r
    /\ match r with
       | Ok errors =>
           (forall e, e ∈ edges -> checked_keys e)
           /\ (nodes <> ∅ ->
               forall u it, reachable adj "distance" start u ->
                 it ∈ adj_get adj u -> is_pair it = true)
       | Err (KeyError key) =>
           key ∈ ["distance_km"; "time_min"; "cost_usd"]
           /\ exists e, e ∈ edges /\ ~ checked_keys e
       | Err ValueError =>
           nodes <> ∅
           /\ (forall e, e ∈ edges -> checked_keys e)
           /\ exists u it, reachable adj "distance" start u
                           /\ it ∈ adj_get adj u /\ is_triple it = true
       | Err TypeError => False
       end.
Proof.
  unfold quick_tests.
  destruct (check_edges nodes [] edges) as [found|err] eqn:E.
  - apply check_edges_Ok in E as [Hk _].
    destruct (decide (nodes = ∅)) as [->|Hne].
    { eexists. split; [done|]. by split. }
    destruct (bfs_outcome adj start) as ([visited|err] & -> & H).
    + destruct H as [_ Hp].
      destruct (size visited <? Nat.max 1 (size nodes / 2))%nat;
        (eexists; split; [done|]; by split).
    + destruct H as [-> H]. eexists. split; [done|].
      split; [done|]. by split.
  - apply check_edges_Err in E as [He (key & -> & Hkey)].
    eexists. split; [done|]. by split.
Qed.

(** X17: what [quick_tests] reports.  A message about an edge is in the
    list exactly when the edge is in the edge list and its source or target
    is not in the table of nodes, or its distance, time or cost is
    negative.  The message on sparse connection is in the list exactly when
    the table is not empty and fewer than max(1, n // 2) nodes can be
    reached from the start of the traversal, n being the number of nodes of
    the table. *)
Theorem quick_tests_reports (nodes : gset node) (start : node)
    (edges : list edge) (adj : gmap node (list item)) (errors : list issue) :
  quick_tests nodes start edges adj = Some (Ok errors) ->
  (forall x, x <> SparselyConnected ->
     (x ∈ errors <-> exists e, e ∈ edges /\ reports nodes e x))
  /\ (SparselyConnected ∈ errors <->
      nodes <> ∅
      /\ exists visited : gset node,
           (forall v, v ∈ visited <-> reachable adj "distance" start v)
           /\ (size visited < Nat.max 1 (size nodes / 2))%nat).
Proof.
  intros (found & Hf & H)%quick_tests_Ok.
  apply check_edges_Ok in Hf as [_ Hfound].
  assert (SparselyConnected ∉ found) as Hns.
  { by intros [?%elem_of_nil|(e & _ & [])]%Hfound. }
  assert (forall x, x ∈ found <-> exists e, e ∈ edges /\ reports nodes e x)
    as Hfound'.
  { intros x. rewrite Hfound. split; [|by right].
    intros [?%elem_of_nil|?]; done. }
  destruct H as [[-> ->]|(Hne & visited & Hbfs & ->)].
  { split; [intros x _; apply Hfound'|]. split; [done | by intros [[] _]]. }
  destruct (bfs_outcome adj start) as (r & Hr & Hspec).
  rewrite Hbfs in Hr. injection Hr as <-. destruct Hspec as [Hvis _].
  destruct (size visited <? Nat.max 1 (size nodes / 2))%nat eqn:E.
  - apply Nat.ltb_lt in E. split.
    + intros x Hx. rewrite elem_of_app, list_elem_of_singleton, Hfound'.
      split; [intros [?|?]; done | by left].
    + split; [|intros _; apply elem_of_app; right; by left].
      intros _. split; [done|]. by exists visited.
  - apply Nat.ltb_ge in E. split; [intros x _; apply Hfound'|].
    split; [done|]. intros (_ & visited' & Hvis' & Hlt).
    assert (visited' = visited) as ->; [|lia].
    apply set_eq. intros v. by rewrite Hvis, Hvis'.
Qed.


Lemma quick_tests_reports_witness :
  let nodes : gset node := {["Pune"]} in
  let adj := build_adjacency [back_road] false in
  exists errors,
    quick_tests nodes "Pune" [back_road] adj = Some (Ok errors)
    /\ (forall x, x <> SparselyConnected ->
          (x ∈ errors <-> exists e, e ∈ [back_road] /\ reports nodes e x))
    /\ (SparselyConnected ∈ errors <->
        nodes <> ∅
        /\ exists visited : gset node,
             (forall v, v ∈ visited <-> reachable adj "distance" "Pune" v)
             /\ (size visited < Nat.max 1 (size nodes / 2))%nat).
Proof.
  intros nodes adj. eexists.
  assert (quick_tests nodes "Pune" [back_road] adj = Some (Ok _)) as H
    by (vm_compute; reflexivity).
  split; [exact H|].
  exact (quick_tests_reports nodes "Pune" [back_road] adj _ H).
Defined.

Lemma dijkstra_expand_pair factor cost path items pq it :
  it ∈ items -> is_pair it = true ->
  dijkstra_expand factor cost path items pq = Err ValueError.
Proof.
  intros Hit Hp. revert pq.
  induction items as [|[n e|n w e] items IH]; intros pq; simpl.
  - by apply elem_of_nil in Hit.
  - done.
  - apply IH. apply elem_of_cons in Hit as [->|Hit]; done.
Qed.

Lemma astar_expand_pair factor heuristic_fn end_ cost path items pq it :
  it ∈ items -> is_pair it = true ->
  exists exn,
    astar_expand factor heuristic_fn end_ cost path items pq = Err exn
    /\ (exn = ValueError \/ exists neigh, heuristic_fn neigh end_ = Err exn).
Proof.
  intros Hit Hp. revert pq.
  induction items as [|[n e|n w e] items IH]; intros pq; simpl.
  - by apply elem_of_nil in Hit.
  - exists ValueError. split; [done | by left].
  - destruct (heuristic_fn n end_) as [h|exn] eqn:E.
    + apply IH. apply elem_of_cons in Hit as [->|Hit]; done.
    + exists exn. split; [done|]. right. by exists n.
Qed.

(** A pair among the neighbours of the start makes both searches raise. *)
Lemma start_pair_raises great_circle adj start end_ nodes factor it :
  it ∈ adj_get adj start -> is_pair it = true -> start <> end_ ->
  dijkstra adj start end_ factor = Some (Raised ValueError)
  /\ (forall heuristic_fn,
        astar great_circle adj start end_ nodes factor (Some heuristic_fn)
        = Some (Raised ValueError))
  /\ exists exn,
       astar great_circle adj start end_ nodes factor None = Some (Raised exn)
       /\ (exn = ValueError
           \/ exists a, heuristic great_circle a end_ nodes = Err exn).
Proof.
  intros Hit Hp Hne.
  assert (forall h est,
            exists exn,
              astar_loop (search_fuel adj) adj end_ factor h
                ([(est, Fin 0, start, [])], ∅) = Some (Raised exn)
              /\ (exn = ValueError \/ exists a, h a end_ = Err exn)) as Hloop.
  { intros h est. unfold search_fuel. cbn [astar_loop].
    unfold astar_step at 1. simpl.
    destruct (decide (start ∈ (∅ : gset node))) as [H|_];
      [by apply not_elem_of_empty in H|].
    destruct (decide (start = end_)); [done|].
    match goal with
    | |- context [astar_expand ?a ?b ?c ?d ?e ?f ?g] =>
        destruct (astar_expand_pair a b c d e f g it Hit Hp)
          as (exn & -> & Hexn)
    end.
    by exists exn. }
  split; [|split].
  - unfold dijkstra, search_fuel. cbn [dijkstra_loop].
    unfold dijkstra_step at 1. simpl.
    destruct (decide (start ∈ (∅ : gset node))) as [H|_];
      [by apply not_elem_of_empty in H|].
    destruct (decide (start = end_)); [done|].
    by rewrite (dijkstra_expand_pair _ _ _ _ _ it).
  - intros heuristic_fn. unfold astar. cbn [given].
    destruct (Hloop (given heuristic_fn)
                (num_add (Fin 0) (Fin (heuristic_fn start end_))))
      as (exn & -> & [->|[a Ha]]); done.
  - unfold astar.
    destruct (heuristic great_circle start end_ nodes) as [h|exn] eqn:E.
    + apply Hloop.
    + exists exn. split; [done|]. right. by exists start.
Qed.

Lemma scan_triple items visited q it :
  it ∈ items -> is_triple it = true ->
  scan items visited q = Err ValueError.
Proof.
  intros Hit Ht.
  destruct (scan items visited q) as [[visited' q']|err] eqn:E.
  - apply scan_Ok in E as (Hp & _). specialize (Hp it Hit). by destruct it.
  - by apply scan_Err in E as [-> _].
Qed.

Lemma check_edges_keys node_names errors edges :
  (forall e, e ∈ edges -> checked_keys e) ->
  exists found, check_edges node_names errors edges = Ok found.
Proof.
  intros Hk. destruct (check_edges node_names errors edges) as [found|err] eqn:E;
    [by exists found|].
  apply check_edges_Err in E as [(e & He & Hn) _]. destruct Hn. by apply Hk.
Qed.

(** X19: [quick_tests] and the searches expect different tuples.  For a
    tuple in the neighbour list of the start: if it is a pair, [dijkstra]
    and [astar] raise for every other goal, [ValueError] unless the default
    heuristic of [astar] raises first; if it is a triple, [quick_tests]
    raises [ValueError] when it starts its traversal there.  No view with
    an edge out of that node serves both. *)
Theorem quick_tests_expects_pairs (great_circle : formula)
    (adj : gmap node (list item)) (nodes : gset node) (start end_ : node)
    (edges : list edge) (coordinates : table) (factor : string) (it : item) :
  it ∈ adj_get adj start ->
  start <> end_ ->
  nodes <> ∅ ->
  (forall e, e ∈ edges -> checked_keys e) ->
  (is_pair it = true ->
   dijkstra adj start end_ factor = Some (Raised ValueError)
   /\ (forall heuristic_fn,
         astar great_circle adj start end_ coordinates factor
           (Some heuristic_fn)
         = Some (Raised ValueError))
   /\ exists exn,
        astar great_circle adj start end_ coordinates factor None
        = Some (Raised exn)
        /\ (exn = ValueError
            \/ exists a, heuristic great_circle a end_ coordinates = Err exn))
  /\ (is_triple it = true ->
      quick_tests nodes start edges adj = Some (Err ValueError)).
Proof.
  intros Hit Hne Hnodes Hk. split.
  - intros Hp. by eapply start_pair_raises.
  - intros Ht. unfold quick_tests.
    destruct (check_edges_keys nodes [] edges Hk) as [found ->].
    rewrite decide_False by done.
    unfold search_fuel. cbn [bfs_loop].
    by rewrite (scan_triple _ _ _ it).
Qed.

Lemma quick_tests_expects_pairs_witness :
  let nodes : gset node := {["Pune"]} in
  let pair := Pair "Goa" (route "Pune" "Goa" 440) in
  (pair ∈ adj_get coast_view "Pune"
   /\ is_pair pair = true
   /\ dijkstra coast_view "Pune" "Hampi" "distance" = Some (Raised ValueError)
   /\ astar flat coast_view "Pune" "Hampi" villages "distance"
        (Some zero_heuristic)
      = Some (Raised ValueError)
   /\ astar flat coast_view "Pune" "Hampi" villages "distance" None
      = Some (Raised ValueError)
   /\ quick_tests nodes "Pune" coast coast_view
      = Some (Ok [MissingTarget "Goa"; MissingSource "Goa";
                  MissingTarget "Hampi"]))
  /\ (as_triple "distance" pair ∈ adj_get (generated coast_view "distance") "Pune"
      /\ is_triple (as_triple "distance" pair) = true
      /\ dijkstra (generated coast_view "distance") "Pune" "Hampi" "distance"
         = Some (Returned (Fin (0 + 440 + 310)) ["Pune"; "Goa"; "Hampi"])
      /\ quick_tests nodes "Pune" coast (generated coast_view "distance")
         = Some (Err ValueError)).
Proof.
  intros nodes pair.
  assert (pair ∈ adj_get coast_view "Pune") as H1 by (vm_compute; left).
  assert (as_triple "distance" pair
            ∈ adj_get (generated coast_view "distance") "Pune") as H1'
    by (vm_compute; left).
  assert ("Pune" <> "Hampi") as H2 by done.
  assert (nodes <> ∅) as H3.
  { intros H. apply (not_elem_of_empty (C:=gset node) "Pune"). rewrite <- H.
    by apply elem_of_singleton. }
  assert (forall e, e ∈ coast -> checked_keys e) as H4.
  { intros e [->|[->|He%elem_of_nil]%elem_of_cons]%elem_of_cons;
      [| |done]; repeat split; by eexists. }
  destruct (quick_tests_expects_pairs flat coast_view nodes "Pune" "Hampi"
              coast villages "distance" pair H1 H2 H3 H4) as [Hp _].
  destruct (Hp eq_refl) as (Hd & Ha & _).
  destruct (quick_tests_expects_pairs flat (generated coast_view "distance")
              nodes "Pune" "Hampi" coast villages "distance"
              (as_triple "distance" pair) H1' H2 H3 H4) as [_ Ht].
  split.
  - split; [exact H1|]. split; [done|]. split; [exact Hd|].
    split; [apply Ha|]. split; by vm_compute.
  - split; [exact H1'|]. split; [done|]. split; [by vm_compute|].
    by apply Ht.
Defined.

(** The weight of an edge under one of the three metrics that
    [quick_tests] checks. *)
Lemma checked_weight e factor :
  factor ∈ ["distance"; "time"; "cost"] ->
  get_edge_weight e factor
  = get_or_inf (if String.eqb factor "distance" then distance_km e
                else if String.eqb factor "time" then time_min e
                else cost_usd e).
Proof.
  intros [->|[->|[->|?%elem_of_nil]%elem_of_cons]%elem_of_cons]%elem_of_cons;
    done.
Qed.

(** X18: when [quick_tests] reports nothing about the edges, the view
    that [build_adjacency] creates from them, directed or not, joins nodes
    of the table only, every edge in it has the keys [distance_km],
    [time_min] and [cost_usd], and no weight in it is negative under the
    metrics distance, time and cost.  The range checks compare with
    [< 0]: that a weight is not negative is all they establish. *)
Theorem quick_tests_validates (nodes : gset node) (start : node)
    (edges : list edge) (adj : gmap node (list item)) (errors : list issue)
    (directed : bool) (factor : string) :
  quick_tests nodes start edges adj = Some (Ok errors) ->
  (forall x, x ∈ errors -> x = SparselyConnected) ->
  factor ∈ ["distance"; "time"; "cost"] ->
  forall u it, it ∈ adj_get (build_adjacency edges directed) u ->
    u ∈ nodes /\ item_neigh it ∈ nodes
    /\ checked_keys (item_edge it)
    /\ ~ num_lt (get_edge_weight (item_edge it) factor) (Fin 0).
Proof.
  intros (found & Hf & H)%quick_tests_Ok Hclean Hfactor.
  apply check_edges_Ok in Hf as [Hk Hfound].
  assert (forall x, x ∈ found -> x ∈ errors) as Hsub.
  { intros x Hx. destruct H as [[_ ->]|(_ & visited & _ & ->)]; [done|].
    destruct (size visited <? _)%nat; [|done]. apply elem_of_app. by left. }
  assert (forall e x, e ∈ edges -> reports nodes e x -> False) as Hno.
  { intros e x He Hr.
    assert (x ∈ found) as Hx by (apply Hfound; right; by exists e).
    apply Hsub, Hclean in Hx as ->. done. }
  assert (forall e, e ∈ edges ->
            source e ∈ nodes /\ target e ∈ nodes
            /\ checked_keys e
            /\ ~ num_lt (get_edge_weight e factor) (Fin 0)) as Hedge.
  { intros e He. split; [|split; [|split]].
    - destruct (decide (source e ∈ nodes)) as [|Hn]; [done|].
      destruct (Hno e (MissingSource (source e)) He). by split.
    - destruct (decide (target e ∈ nodes)) as [|Hn]; [done|].
      destruct (Hno e (MissingTarget (target e)) He). by split.
    - by apply Hk.
    - destruct (Hk e He) as ([d Hd] & [t Ht] & [c Hc]).
      rewrite checked_weight by done.
      assert (~ (d < 0)%Q) as Hd'.
      { intros Hlt. apply (Hno e (NegativeDistance e) He). split; [done|].
        by exists d. }
      assert (~ (t < 0)%Q) as Ht'.
      { intros Hlt. apply (Hno e (NegativeTime e) He). split; [done|].
        by exists t. }
      assert (~ (c < 0)%Q) as Hc'.
      { intros Hlt. apply (Hno e (NegativeCost e) He). split; [done|].
        by exists c. }
      rewrite Hd, Ht, Hc.
      by destruct (String.eqb factor "distance");
        [|destruct (String.eqb factor "time")]. }
  intros u it (e & He & [[<- ->]|(_ & <- & ->)])%build_adjacency_elem;
    destruct (Hedge e He) as (Hs & Ht & Hkeys & Hw); simpl.
  - done.
  - by rewrite get_edge_weight_mirror.
Qed.

Lemma quick_tests_validates_witness :
  let nodes : gset node := {["Pune"; "Goa"; "Hampi"]} in
  let adj := build_adjacency coast false in
  let it := Pair "Goa" (route "Pune" "Goa" 440) in
  quick_tests nodes "Goa" coast adj = Some (Ok [])
  /\ (forall x, x ∈ ([] : list issue) -> x = SparselyConnected)
  /\ "cost" ∈ ["distance"; "time"; "cost"]
  /\ it ∈ adj_get (build_adjacency coast true) "Pune"
  /\ "Pune" ∈ nodes /\ item_neigh it ∈ nodes
  /\ checked_keys (item_edge it)
  /\ ~ num_lt (get_edge_weight (item_edge it) "cost") (Fin 0).
Proof.
  intros nodes adj it.
  assert (forall x, x ∈ ([] : list issue) -> x = SparselyConnected) as H2
    by (intros x Hx; by apply elem_of_nil in Hx).
  assert ("cost" ∈ ["distance"; "time"; "cost"]) as H3
    by (right; right; left).
  assert (it ∈ adj_get (build_adjacency coast true) "Pune") as H4
    by (vm_compute; left).
  assert (quick_tests nodes "Goa" coast adj = Some (Ok [])) as H1
    by (vm_compute; reflexivity).
  split; [exact H1|]. split; [exact H2|]. split; [exact H3|].
  split; [exact H4|].
  exact (quick_tests_validates nodes "Goa" coast adj [] true "cost" H1 H2 H3
           "Pune" it H4).
Defined.

Lemma check_edge_about f node_names errors e :
  same_checked e (f e) ->
  check_edge node_names (map (about f) errors) (f e)
  = result_map (map (about f)) (check_edge node_names errors e).
Proof.
  intros (Hs & Ht & Hd & Hti & Hc). unfold check_edge.
  rewrite <- Hs, <- Ht, <- Hd, <- Hti, <- Hc.
  destruct (distance_km e) as [d|]; [|done].
  destruct (time_min e) as [t|]; [|done].
  destruct (cost_usd e) as [c|]; [|done]. simpl. f_equal.
  destruct (decide (source e ∈ node_names)), (decide (target e ∈ node_names)),
    (is_lt (d ?= 0)%Q), (is_lt (t ?= 0)%Q), (is_lt (c ?= 0)%Q);
    by rewrite ?map_app.
Qed.

Lemma check_edges_about f node_names errors edges :
  (forall e, e ∈ edges -> same_checked e (f e)) ->
  check_edges node_names (map (about f) errors) (map f edges)
  = result_map (map (about f)) (check_edges node_names errors edges).
Proof.
  revert errors. induction edges as [|e edges IH]; intros errors Hf; [done|].
  simpl. rewrite check_edge_about by (apply Hf; by left).
  destruct (check_edge node_names errors e) as [errors1|]; simpl; [|done].
  apply IH. intros e' He'. apply Hf. by right.
Qed.

(** X20: [quick_tests] reads the source, target, distance, time and cost
    of an edge and nothing else: changing the other fields of the edges
    (mode, emission, safety score, accessibility) changes the result only
    in the edges that the messages print. *)
Theorem quick_tests_reads (nodes : gset node) (start : node)
    (edges : list edge) (adj : gmap node (list item)) (f : edge -> edge) :
  (forall e, e ∈ edges -> same_checked e (f e)) ->
  quick_tests nodes start (map f edges) adj
  = result_map (map (about f)) <$> quick_tests nodes start edges adj.
Proof.
  intros Hf. unfold quick_tests.
  pose proof (check_edges_about f nodes [] edges Hf) as H.
  change (map (about f) []) with ([] : list issue) in H. rewrite H.
  destruct (check_edges nodes [] edges) as [found|]; [|done].
  cbn [result_map].
  destruct (decide (nodes = ∅)); [done|].
  destruct (bfs_loop (search_fuel adj) adj {[start]} [start])
    as [[visited|]|]; [|done..].
  destruct (size visited <? Nat.max 1 (size nodes / 2))%nat; [|done].
  cbn. by rewrite map_app.
Qed.


Lemma quick_tests_reads_witness :
  let nodes : gset node := {["Pune"]} in
  (forall e, e ∈ [back_road] -> same_checked e (on_foot e))
  /\ quick_tests nodes "Pune" (map on_foot [back_road]) ∅
     = result_map (map (about on_foot))
         <$> quick_tests nodes "Pune" [back_road] ∅.
Proof.
  intros nodes.
  assert (forall e, e ∈ [back_road] -> same_checked e (on_foot e)) as H
    by (intros e _; by repeat split).
  split; [exact H|].
  exact (quick_tests_reads nodes "Pune" [back_road] ∅ on_foot H).
Defined.


(** ** The graphs that [gen_edges.py] generates *)

Lemma TRANSPORT_MODES_Some mode params :
  TRANSPORT_MODES mode = Some params ->
  (0 < speed_kmh params)%Q /\ (0 <= cost_per_km params)%Q
  /\ (0 <= emission_per_km params)%Q /\ (0 <= safety params <= 1)%Q.
Proof.
  unfold TRANSPORT_MODES.
  repeat match goal with
         | |- context [if ?b then _ else _] => destruct b
         end; intros [= <-]; simpl; repeat split; lra.
Qed.

Lemma make_edge_Ok round a b dist m e :
  make_edge round a b dist m = Ok e ->
  source e = a /\ target e = b /\ mode e = m
  /\ is_Some (TRANSPORT_MODES m) /\ checked_keys e.
Proof.
  unfold make_edge. destruct (TRANSPORT_MODES m) as [params|]; [|done].
  intros [= <-]. simpl. repeat split; by eexists.
Qed.

Lemma make_edge_known round a b dist m :
  is_Some (TRANSPORT_MODES m) ->
  exists e, make_edge round a b dist m = Ok e.
Proof. intros [params H]. unfold make_edge. rewrite H. by eexists. Qed.


Lemma make_edge_weights round a b dist m e factor :
  keeps_sign round -> (0 <= dist)%Q ->
  make_edge round a b dist m = Ok e ->
  exists w, get_edge_weight e factor = Fin w /\ (0 <= w)%Q.
Proof.
  intros Hr Hd. unfold make_edge.
  destruct (TRANSPORT_MODES m) as [params|] eqn:Hp; [|done].
  apply TRANSPORT_MODES_Some in Hp as (Hs & Hc & He & Hsf).
  intros [= <-]. unfold get_edge_weight. simpl.
  assert (0 <= dist / speed_kmh params * 60)%Q as Ht.
  { apply Qmult_le_0_compat; [|lra].
    apply Qle_shift_div_l; [done | lra]. }
  assert (0 <= dist * cost_per_km params)%Q as Hc'
    by (by apply Qmult_le_0_compat).
  assert (0 <= dist * emission_per_km params)%Q as He'
    by (by apply Qmult_le_0_compat).
  repeat match goal with
         | |- context [if ?b then _ else _] => destruct b
         end;
    eexists; (split; [done|]); first [by apply Hr | lra].
Qed.

(** [for m in modes: edges.append(make_edge(a, b, dist, m))] *)
Lemma add_modes_known round a b dist modes edges :
  (forall m, m ∈ modes -> is_Some (TRANSPORT_MODES m)) ->
  exists new,
    add_modes round a b dist modes edges = Ok (edges ++ new)
    /\ Forall2 (fun e m => make_edge round a b dist m = Ok e) new modes.
Proof.
  unfold add_modes. revert edges.
  induction modes as [|m modes IH]; intros edges Hk; simpl.
  - exists []. by rewrite app_nil_r.
  - destruct (make_edge_known round a b dist m) as [e He]; [apply Hk; by left|].
    rewrite He.
    destruct (IH (edges ++ [e])) as (new & -> & Hnew).
    { intros m' Hm'. apply Hk. by right. }
    exists (e :: new). rewrite <- app_assoc. split; [done|]. by constructor.
Qed.

Lemma add_modes_Ok round a b dist modes edges edges' :
  add_modes round a b dist modes edges = Ok edges' ->
  (forall m, m ∈ modes -> is_Some (TRANSPORT_MODES m))
  /\ exists new,
       edges' = edges ++ new
       /\ Forall2 (fun e m => make_edge round a b dist m = Ok e) new modes.
Proof.
  unfold add_modes. revert edges.
  induction modes as [|m modes IH]; intros edges; simpl.
  - intros [= <-]. split; [by intros m ?%elem_of_nil|]. exists [].
    by rewrite app_nil_r.
  - destruct (make_edge round a b dist m) as [e|] eqn:He; [|done].
    intros (Hk & new & -> & Hnew)%IH. split.
    + intros m' [->|Hm']%elem_of_cons; [|by apply Hk].
      by apply make_edge_Ok in He as (_ & _ & _ & ? & _).
    + exists (e :: new). rewrite <- app_assoc. split; [done|]. by constructor.
Qed.

Lemma add_modes_Err round a b dist modes edges err :
  add_modes round a b dist modes edges = Err err ->
  exists m, m ∈ modes /\ TRANSPORT_MODES m = None /\ err = KeyError m.
Proof.
  unfold add_modes. revert edges.
  induction modes as [|m modes IH]; intros edges; simpl; [done|].
  unfold make_edge at 1. destruct (TRANSPORT_MODES m) as [params|] eqn:Hp.
  - intros (m' & Hm' & H)%IH. exists m'. split; [by right | done].
  - intros [= <-]. exists m. split; [by left | done].
Qed.

Lemma full_row_Ok great_circle round nodes a modes later edges edges' :
  for_each (full_pair great_circle round nodes modes a) later edges
  = Ok edges' ->
  exists new,
    edges' = edges ++ new
    /\ Forall2 (makes great_circle round nodes) new
         (((fun b => (a, b)) <$> later) ≫= fun ab => (fun m => (ab, m)) <$> modes).
Proof.
  revert edges. induction later as [|b later IH]; intros edges; simpl.
  - intros [= <-]. exists []. by rewrite app_nil_r.
  - unfold full_pair at 1.
    destruct (heuristic great_circle a b nodes) as [dist|] eqn:Eh; [|done].
    destruct (add_modes round a b dist modes edges) as [edges1|] eqn:E; [|done].
    apply add_modes_Ok in E as (_ & new1 & -> & H1).
    intros (new & -> & Hnew)%IH. exists (new1 ++ new).
    rewrite <- app_assoc. split; [done|].
    apply Forall2_app; [|done].
    apply Forall2_fmap_r. eapply Forall2_impl; [exact H1|].
    intros e m He. by exists dist.
Qed.

Lemma full_row_Err great_circle round nodes a modes later edges exn :
  for_each (full_pair great_circle round nodes modes a) later edges
  = Err exn ->
  (exists m, m ∈ modes /\ TRANSPORT_MODES m = None /\ exn = KeyError m)
  \/ (exists b, b ∈ later /\ heuristic great_circle a b nodes = Err exn).
Proof.
  revert edges. induction later as [|b later IH]; intros edges; simpl; [done|].
  unfold full_pair at 1.
  destruct (heuristic great_circle a b nodes) as [dist|exn'] eqn:Eh.
  - destruct (add_modes round a b dist modes edges) as [edges1|] eqn:E.
    + intros [H|(b' & Hb' & H)]%IH; [by left|].
      right. exists b'. split; [by right | done].
    + intros [= <-]. left. by eapply add_modes_Err.
  - intros [= <-]. right. exists b. split; [by left | done].
Qed.

Lemma full_rows_Ok great_circle round nodes modes node_list edges edges' :
  full_rows great_circle round nodes modes node_list edges = Ok edges' ->
  exists new,
    edges' = edges ++ new
    /\ Forall2 (makes great_circle round nodes) new (planned node_list modes).
Proof.
  revert edges. induction node_list as [|a later IH]; intros edges.
  - intros [= <-]. exists []. by rewrite app_nil_r.
  - cbn [full_rows].
    destruct (for_each _ later edges) as [edges1|] eqn:E; [|done].
    apply full_row_Ok in E as (new1 & -> & H1).
    intros (new & -> & Hnew)%IH. exists (new1 ++ new).
    rewrite <- app_assoc. split; [done|].
    unfold planned. cbn [pairs]. rewrite bind_app. by apply Forall2_app.
Qed.

Lemma full_rows_Err great_circle round nodes modes node_list edges exn :
  full_rows great_circle round nodes modes node_list edges = Err exn ->
  (exists m, m ∈ modes /\ TRANSPORT_MODES m = None /\ exn = KeyError m)
  \/ (exists a b, (a, b) ∈ pairs node_list
                  /\ heuristic great_circle a b nodes = Err exn).
Proof.
  revert edges. induction node_list as [|a later IH]; intros edges; [done|].
  cbn [full_rows pairs].
  destruct (for_each _ later edges) as [edges1|] eqn:E.
  - intros [H|(a' & b' & Hab & H)]%IH; [by left|].
    right. exists a', b'. split; [|done]. apply elem_of_app. by right.
  - intros [= <-]. apply full_row_Err in E as [H|(b & Hb & H)]; [by left|].
    right. exists a, b. split; [|done]. apply elem_of_app. left.
    by apply (list_elem_of_fmap_2 (fun b => (a, b))).
Qed.

Lemma length_pairs node_list :
  (2 * length (pairs node_list)
   = length node_list * (length node_list - 1))%nat.
Proof.
  induction node_list as [|a later IH]; [done|].
  cbn [pairs]. rewrite length_app, length_fmap. simpl length.
  destruct later as [|b later]; [done|].
  simpl length in *. nia.
Qed.

Lemma length_planned node_list modes :
  length (planned node_list modes)
  = (length (pairs node_list) * length modes)%nat.
Proof.
  unfold planned. induction (pairs node_list) as [|ab l IH]; [done|].
  rewrite bind_cons, length_app, length_fmap, IH. simpl. lia.
Qed.

Lemma elem_of_pairs node_list a b :
  (a, b) ∈ pairs node_list -> a ∈ node_list /\ b ∈ node_list.
Proof.
  induction node_list as [|c later IH]; simpl; [by intros ?%elem_of_nil|].
  intros [H|H]%elem_of_app.
  - apply list_elem_of_fmap in H as (b' & [= -> ->] & Hb).
    split; [by left | by right].
  - destruct (IH H). split; by right.
Qed.

Lemma pairs_NoDup node_list a b :
  NoDup node_list -> (a, b) ∈ pairs node_list -> a <> b.
Proof.
  induction 1 as [|c later Hc Hnd IH]; simpl; [by intros ?%elem_of_nil|].
  intros [H|H]%elem_of_app; [|by apply IH].
  apply list_elem_of_fmap in H as (b' & [= -> ->] & Hb). by intros ->.
Qed.

Lemma pairs_either node_list a b :
  a ∈ node_list -> b ∈ node_list -> a <> b ->
  (a, b) ∈ pairs node_list \/ (b, a) ∈ pairs node_list.
Proof.
  induction node_list as [|c later IH]; [by intros ?%elem_of_nil|].
  intros [->|Ha]%elem_of_cons [->|Hb]%elem_of_cons Hne; simpl; [done|..].
  - left. apply elem_of_app. left. by apply (list_elem_of_fmap_2 (fun b => (c, b))).
  - right. apply elem_of_app. left. by apply (list_elem_of_fmap_2 (fun b => (c, b))).
  - destruct (IH Ha Hb Hne); [left | right]; apply elem_of_app; by right.
Qed.

Lemma elem_of_planned node_list modes a b m :
  (a, b, m) ∈ planned node_list modes <-> (a, b) ∈ pairs node_list /\ m ∈ modes.
Proof.
  unfold planned. rewrite list_elem_of_bind. split.
  - intros ([a' b'] & H & Hab). apply list_elem_of_fmap in H as (m' & [= -> -> ->] & Hm).
    done.
  - intros [Hab Hm]. exists (a, b). split; [|done].
    by apply (list_elem_of_fmap_2 (fun m => ((a, b), m))).
Qed.

(** X23: [build_full_graph] returns when every mode is a key of
    [TRANSPORT_MODES] and [heuristic] returns for every pair of nodes.  The
    result has one edge for each pair of nodes (the one that comes first in
    the table is the source) and each mode, row by row, made from the
    distance [heuristic] returned: n (n - 1) / 2 times the number of modes
    edges for n nodes, none of them from a node to itself.  When it raises,
    it raises [KeyError] for a mode that is not such a key, or what
    [heuristic] raised for a pair of nodes; with fewer than two nodes it
    returns no edge, whatever the modes. *)
Theorem build_full_graph_edges (great_circle : formula) (round : Q -> Z -> Q)
    (nodes : table) (modes : list string) :
  ((forall m, m ∈ modes -> is_Some (TRANSPORT_MODES m)) ->
   (forall a b, (a, b) ∈ pairs (keys nodes) -> measured great_circle nodes a b) ->
   exists edges, build_full_graph great_circle round nodes modes = Ok edges)
  /\ (forall edges,
        build_full_graph great_circle round nodes modes = Ok edges ->
        Forall2 (makes great_circle round nodes) edges
          (planned (keys nodes) modes)
        /\ (2 * length edges
            = length (keys nodes) * (length (keys nodes) - 1) * length modes)%nat
        /\ (NoDup (keys nodes) -> forall e, e ∈ edges -> source e <> target e))
  /\ (forall exn,
        build_full_graph great_circle round nodes modes = Err exn ->
        (exists m, m ∈ modes /\ TRANSPORT_MODES m = None /\ exn = KeyError m)
        \/ (exists a b, (a, b) ∈ pairs (keys nodes)
                        /\ heuristic great_circle a b nodes = Err exn))
  /\ ((length (keys nodes) < 2)%nat ->
      build_full_graph great_circle round nodes modes = Ok []).
Proof.
  unfold build_full_graph. split; [|split; [|split]].
  - intros Hk Hm.
    destruct (full_rows great_circle round nodes modes (keys nodes) [])
      as [edges|exn] eqn:E; [by exists edges|].
    apply full_rows_Err in E as [(m & Hin & Hn & _)|(a & b & Hab & Hn)].
    + destruct (Hk m Hin) as [? ?]. congruence.
    + destruct (Hm a b Hab) as [? ?]. congruence.
  - intros edges (new & -> & Hnew)%full_rows_Ok. simpl.
    split; [done|]. split.
    + rewrite (Forall2_length _ _ _ Hnew), length_planned.
      pose proof (length_pairs (keys nodes)). nia.
    + intros Hnd e He.
      apply list_elem_of_lookup in He as [i Hi].
      destruct (Forall2_lookup_l _ _ _ _ _ Hnew Hi)
        as ([[a b] m] & Hp & dist & _ & Hmk).
      apply list_elem_of_lookup_2, elem_of_planned in Hp as [Hab _].
      apply make_edge_Ok in Hmk as (-> & -> & _). simpl.
      by eapply pairs_NoDup.
  - intros exn. apply full_rows_Err.
  - intros Hlt. destruct (keys nodes) as [|a [|b l]]; [done|done|simpl in Hlt; lia].
Qed.

(** A table with a latitude and no longitude in a row: the graph is not
    made. *)
Example build_full_graph_raises :
  build_full_graph flat no_rounding
    (mk_table ["Pune"; "Goa"]
       (<["Pune" := mk_place (Some (1852 # 100)) (Some (7386 # 100))]>
          (places half_located)))
    ["car"]
  = Err TypeError.
Proof. by vm_compute. Qed.


(** In the undirected view of a full graph every node is a neighbour of
    every other node. *)
Lemma full_graph_adjacent great_circle round nodes modes edges a b :
  build_full_graph great_circle round nodes modes = Ok edges ->
  modes <> [] -> a ∈ keys nodes -> b ∈ keys nodes -> a <> b ->
  exists it, it ∈ adj_get (build_adjacency edges false) a /\ item_neigh it = b.
Proof.
  unfold build_full_graph.
  intros (new & -> & Hnew)%full_rows_Ok Hm Ha Hb Hne. simpl.
  destruct modes as [|m modes]; [done|].
  assert (forall x y, (x, y) ∈ pairs (keys nodes) ->
            exists e, e ∈ new /\ source e = x /\ target e = y) as Hedge.
  { intros x y Hxy.
    assert ((x, y, m) ∈ planned (keys nodes) (m :: modes)) as Hp.
    { apply elem_of_planned. split; [done | by left]. }
    apply list_elem_of_lookup in Hp as [i Hi].
    destruct (Forall2_lookup_r _ _ _ _ _ Hnew Hi) as (e & He & dist & _ & Hmk).
    apply make_edge_Ok in Hmk as (Hs & Ht & _). exists e.
    split; [by eapply list_elem_of_lookup_2 | done]. }
  destruct (pairs_either _ _ _ Ha Hb Hne) as [H|H];
    destruct (Hedge _ _ H) as (e & He & Hs & Ht).
  - exists (Pair b e). split; [|done]. apply build_adjacency_elem.
    exists e. split; [done|]. left. by rewrite Ht.
  - exists (Pair b (mirror e)). split; [|done]. apply build_adjacency_elem.
    exists e. split; [done|]. right. by rewrite Hs.
Qed.

Lemma full_graph_edge great_circle round nodes modes edges e :
  build_full_graph great_circle round nodes modes = Ok edges -> e ∈ edges ->
  source e ∈ keys nodes /\ target e ∈ keys nodes
  /\ makes great_circle round nodes e (source e, target e, mode e).
Proof.
  unfold build_full_graph.
  intros (new & -> & Hnew)%full_rows_Ok He. simpl in He.
  apply list_elem_of_lookup in He as [i Hi].
  destruct (Forall2_lookup_l _ _ _ _ _ Hnew Hi) as ([[a b] m] & Hp & Hmk).
  apply list_elem_of_lookup_2, elem_of_planned in Hp as [Hab _].
  apply elem_of_pairs in Hab as [Ha Hb].
  pose proof Hmk as (dist & _ & (-> & -> & -> & _)%make_edge_Ok). done.
Qed.

(** X24: [build_full_graph], [build_adjacency] and [quick_tests] compose.
    On the edges of a full graph with at least one mode and their
    undirected view, [quick_tests] returns, whatever node its traversal
    starts from; it reports no missing node and no sparse connection, and
    it reports nothing at all when the distances [heuristic] returns are
    not negative and rounding makes no number negative. *)
Theorem full_graph_passes_quick_tests (great_circle : formula)
    (round : Q -> Z -> Q) (nodes : table) (modes : list string)
    (edges : list edge) (start : node) :
  build_full_graph great_circle round nodes modes = Ok edges ->
  modes <> [] ->
  start ∈ keys nodes ->
  exists errors,
    quick_tests (list_to_set (keys nodes)) start edges
      (build_adjacency edges false) = Some (Ok errors)
    /\ (forall x, x ∈ errors ->
          exists e, e ∈ edges
                    /\ (x = NegativeDistance e \/ x = NegativeTime e
                        \/ x = NegativeCost e))
    /\ (keeps_sign round ->
        (forall a b dist,
           heuristic great_circle a b nodes = Ok dist -> (0 <= dist)%Q) ->
        errors = []).
Proof.
  intros Hfull Hm Hstart.
  set (adj := build_adjacency edges false).
  set (node_names := list_to_set (keys nodes) : gset node).
  assert (forall e, e ∈ edges -> checked_keys e) as Hk.
  { intros e He. destruct (full_graph_edge _ _ _ _ _ _ Hfull He)
      as (_ & _ & dist & _ & Hmk).
    by apply make_edge_Ok in Hmk as (_ & _ & _ & _ & ?). }
  destruct (check_edges_keys node_names [] edges Hk) as [found Hfound].
  pose proof (check_edges_Ok _ _ _ _ Hfound) as [_ Hin].
  assert (node_names <> ∅) as Hne.
  { intros H. apply (not_elem_of_empty (C:=gset node) start). rewrite <- H.
    by apply elem_of_list_to_set. }
  destruct (bfs_outcome adj start) as ([visited|err] & Hbfs & Hspec).
  2: { destruct Hspec as (_ & u & it & _ & Hit & Ht). exfalso.
       pose proof (build_adjacency_pair_view edges false u it Hit).
       by destruct it. }
  destruct Hspec as [Hvis _].
  assert (node_names ⊆ visited) as Hsub.
  { intros v Hv%elem_of_list_to_set. apply Hvis.
    destruct (decide (v = start)) as [->|Hvs].
    - exists [start], (Fin 0). apply walk_start.
    - destruct (full_graph_adjacent _ _ _ _ _ start v Hfull Hm Hstart Hv)
        as (it & Hit & <-); [done|].
      eexists _, _. eapply walk_step; [apply walk_start | done]. }
  assert ((size visited <? Nat.max 1 (size node_names / 2))%nat = false) as Hsz.
  { apply Nat.ltb_ge. apply subseteq_size in Hsub.
    assert (size node_names <> 0)%nat as Hpos.
    { intros H0%size_empty_inv. apply Hne. by apply leibniz_equiv. }
    assert (size node_names / 2 <= size node_names)%nat
      by (apply Nat.Div0.div_le_upper_bound; lia).
    lia. }
  exists found. split; [|split].
  - unfold quick_tests. fold node_names. rewrite Hfound.
    rewrite decide_False by done. fold adj. by rewrite Hbfs, Hsz.
  - intros x [?%elem_of_nil|(e & He & Hr)]%Hin; [done|].
    destruct (full_graph_edge _ _ _ _ _ _ Hfull He) as (Hs & Ht & _).
    exists e. split; [done|].
    destruct x as [n|n|e'|e'|e'|]; simpl in Hr.
    + destruct Hr as [-> Hn]. destruct Hn. by apply elem_of_list_to_set.
    + destruct Hr as [-> Hn]. destruct Hn. by apply elem_of_list_to_set.
    + destruct Hr as [-> _]. by left.
    + destruct Hr as [-> _]. right. by left.
    + destruct Hr as [-> _]. by do 2 right.
    + done.
  - intros Hr Hd. destruct found as [|x found]; [done|]. exfalso.
    assert (x ∈ x :: found) as Hx by by left.
    apply Hin in Hx as [?%elem_of_nil|(e & He & Hrep)]; [done|].
    destruct (full_graph_edge _ _ _ _ _ _ Hfull He)
      as (Hs & Ht & dist & Hdist & Hmk).
    simpl in Hdist, Hmk.
    assert (forall factor, exists w,
              get_edge_weight e factor = Fin w /\ (0 <= w)%Q) as Hw.
    { intros factor. eapply make_edge_weights; [done| |exact Hmk].
      by eapply Hd. }
    destruct x as [n|n|e'|e'|e'|]; simpl in Hrep.
    + destruct Hrep as [-> Hn]. destruct Hn. by apply elem_of_list_to_set.
    + destruct Hrep as [-> Hn]. destruct Hn. by apply elem_of_list_to_set.
    + destruct Hrep as (_ & d & Hd' & Hlt). destruct (Hw "distance") as (w & Hw' & ?).
      unfold get_edge_weight in Hw'. simpl in Hw'. rewrite Hd' in Hw'.
      injection Hw' as <-. lra.
    + destruct Hrep as (_ & d & Hd' & Hlt). destruct (Hw "time") as (w & Hw' & ?).
      unfold get_edge_weight in Hw'. simpl in Hw'. rewrite Hd' in Hw'.
      injection Hw' as <-. lra.
    + destruct Hrep as (_ & d & Hd' & Hlt). destruct (Hw "cost") as (w & Hw' & ?).
      unfold get_edge_weight in Hw'. simpl in Hw'. rewrite Hd' in Hw'.
      injection Hw' as <-. lra.
    + done.
Qed.

Lemma full_graph_passes_quick_tests_witness :
  exists edges,
    build_full_graph flat no_rounding villages ["car"; "train"] = Ok edges
    /\ ["car"; "train"] <> []
    /\ "Goa" ∈ keys villages
    /\ exists errors,
         quick_tests (list_to_set (keys villages)) "Goa" edges
           (build_adjacency edges false) = Some (Ok errors)
         /\ (forall x, x ∈ errors ->
               exists e, e ∈ edges
                         /\ (x = NegativeDistance e \/ x = NegativeTime e
                             \/ x = NegativeCost e))
         /\ (keeps_sign no_rounding ->
             (forall a b dist,
                heuristic flat a b villages = Ok dist -> (0 <= dist)%Q) ->
             errors = []).
Proof.
  eexists.
  assert (["car"; "train"] <> ([] : list string)) as H2 by done.
  assert ("Goa" ∈ keys villages) as H3 by (right; left).
  assert (build_full_graph flat no_rounding villages ["car"; "train"] = Ok _)
    as H1 by (vm_compute; reflexivity).
  split; [exact H1|]. split; [exact H2|]. split; [exact H3|].
  exact (full_graph_passes_quick_tests flat no_rounding villages
           ["car"; "train"] _ "Goa" H1 H2 H3).
Defined.

Lemma key_compare_lawful : lawful key_compare.
Proof.
  unfold key_compare. split.
  - intros x y. by rewrite <- Qcompare_antisym.
  - intros x y z. rewrite <- !Qlt_alt. apply Qlt_trans.
  - intros x y z E%Qeq_alt. by rewrite E.
Qed.

Lemma insert_by_key_heappush x l :
  insert_by_key x l = heappush (fun a b => is_lt (key_compare a b)) l x.
Proof. induction l as [|y l IH]; simpl; [done|]. by rewrite IH. Qed.

Lemma sort_by_key_pushes l :
  sort_by_key l = foldl (heappush (fun a b => is_lt (key_compare a b))) [] l.
Proof.
  unfold sort_by_key. generalize ([] : list (node * Q)).
  induction l as [|x l IH]; intros acc; simpl; [done|].
  by rewrite IH, insert_by_key_heappush.
Qed.

Lemma sort_by_key_ordered l : ordered key_compare (sort_by_key l).
Proof.
  rewrite sort_by_key_pushes.
  by apply (pushes_ordered key_compare key_compare_lawful).
Qed.

Lemma sort_by_key_Permutation l : sort_by_key l ≡ₚ l.
Proof. rewrite sort_by_key_pushes. apply pushes_Permutation. Qed.

Lemma ordered_take_drop {A : Type} (cmp : A -> A -> comparison) l j x y :
  ordered cmp l -> x ∈ take j l -> y ∈ drop j l -> cmp x y <> Gt.
Proof.
  revert j. induction l as [|z l IH]; intros [|j]; simpl;
    try (by intros _ ?%elem_of_nil).
  intros [Hz Ho] [->|Hx]%elem_of_cons Hy.
  - eapply Forall_forall in Hz; [done|]. by eapply subseteq_drop.
  - by eapply IH.
Qed.

Lemma slice_to_take {A : Type} (k : Z) (l : list A) :
  slice_to k l = take (slice_length k (length l)) l.
Proof.
  unfold slice_to, slice_length. destruct (0 <=? k)%Z; [|done].
  destruct (Nat.le_ge_cases (Z.to_nat k) (length l)).
  - by rewrite Nat.min_l.
  - rewrite Nat.min_r by done. by rewrite !take_ge.
Qed.

Lemma length_slice_to {A : Type} (k : Z) (l : list A) :
  length (slice_to k l) = slice_length k (length l).
Proof.
  rewrite slice_to_take, length_take. unfold slice_length.
  destruct (0 <=? k)%Z; lia.
Qed.

Lemma length_filter_other (l : list node) a :
  NoDup l -> a ∈ l ->
  length (filter (fun b => b <> a) l) = (length l - 1)%nat.
Proof.
  induction 1 as [|c l Hc Hnd IH]; [by intros ?%elem_of_nil|].
  intros [->|Ha]%elem_of_cons.
  - rewrite filter_cons_False by (by intros H; apply H).
    simpl. rewrite Nat.sub_0_r.
    assert (Forall (fun b => b <> c) l) as Hall.
    { apply Forall_forall. intros b Hb ->. done. }
    clear -Hall. induction Hall as [|b l Hb Hall IH]; [done|].
    rewrite filter_cons_True by done. simpl. by rewrite IH.
  - rewrite filter_cons_True by (intros ->; done). simpl.
    rewrite IH by done. destruct l; [by apply elem_of_nil in Ha | simpl; lia].
Qed.

Lemma length_nearest great_circle nodes k a :
  NoDup (keys nodes) -> a ∈ keys nodes ->
  length (nearest great_circle nodes k a)
  = slice_length k (length (keys nodes) - 1).
Proof.
  intros Hnd Ha. unfold nearest.
  rewrite length_slice_to, (Permutation_length (sort_by_key_Permutation _)),
    length_fmap. by rewrite length_filter_other.
Qed.

(** A neighbour that is kept is not farther than one that is dropped. *)
Lemma nearest_spec great_circle nodes k a b d :
  (b, d) ∈ nearest great_circle nodes k a ->
  b ∈ keys nodes /\ b <> a /\ d = distance great_circle nodes a b
  /\ forall c, c ∈ keys nodes -> c <> a ->
       (c, distance great_circle nodes a c) ∈ nearest great_circle nodes k a
       \/ (d <= distance great_circle nodes a c)%Q.
Proof.
  unfold nearest. rewrite slice_to_take.
  set (L := (fun b => (b, distance great_circle nodes a b))
              <$> filter (fun b => b <> a) (keys nodes)).
  set (j := slice_length k (length (sort_by_key L))).
  intros Hin.
  assert ((b, d) ∈ L) as HL.
  { rewrite <- (sort_by_key_Permutation L). by eapply subseteq_take. }
  apply list_elem_of_fmap in HL as (b' & [= -> ->] & [Hne Hb']%list_elem_of_filter).
  split; [done|]. split; [done|]. split; [done|].
  intros c Hc Hca.
  assert ((c, distance great_circle nodes a c) ∈ sort_by_key L) as HS.
  { rewrite (sort_by_key_Permutation L).
    apply (list_elem_of_fmap_2 (fun b => (b, distance great_circle nodes a b))).
    by apply list_elem_of_filter. }
  rewrite <- (take_drop j (sort_by_key L)) in HS.
  apply elem_of_app in HS as [HS|HS]; [by left|]. right.
  pose proof (ordered_take_drop key_compare _ j _ _
                (sort_by_key_ordered L) Hin HS) as Hle.
  unfold key_compare in Hle. simpl in Hle. by apply Qle_alt.
Qed.

(** The list comprehension returns the distances when [heuristic] returns
    for every node of the list, and raises what it raises first. *)
Lemma collect_neighbors_Ok great_circle nodes a l neighbors :
  collect (neighbor great_circle nodes a) l = Ok neighbors ->
  neighbors = (fun b => (b, distance great_circle nodes a b)) <$> l
  /\ forall b, b ∈ l -> measured great_circle nodes a b.
Proof.
  revert neighbors. induction l as [|b l IH]; intros neighbors; simpl.
  - intros [= <-]. split; [done|]. by intros b ?%elem_of_nil.
  - unfold neighbor at 1, distance at 1.
    destruct (heuristic great_circle a b nodes) as [dist|] eqn:E; [|done].
    destruct (collect _ l) as [rest|]; [|done].
    intros [= <-]. destruct (IH rest eq_refl) as [-> Hm]. split; [done|].
    intros b' [->|Hb']%elem_of_cons; [by exists dist | by apply Hm].
Qed.

Lemma collect_neighbors_Err great_circle nodes a l exn :
  collect (neighbor great_circle nodes a) l = Err exn ->
  exists b, b ∈ l /\ heuristic great_circle a b nodes = Err exn.
Proof.
  induction l as [|b l IH]; simpl; [done|].
  unfold neighbor at 1.
  destruct (heuristic great_circle a b nodes) as [dist|exn'] eqn:E.
  - destruct (collect _ l) as [rest|exn']; [done|].
    intros [= <-]. destruct (IH eq_refl) as (b' & Hb' & H).
    exists b'. split; [by right | done].
  - intros [= <-]. exists b. split; [by left | done].
Qed.

Lemma measured_distance great_circle nodes a b :
  measured great_circle nodes a b ->
  heuristic great_circle a b nodes = Ok (distance great_circle nodes a b).
Proof. intros [dist H]. unfold distance. by rewrite H. Qed.

Lemma selected_Ok great_circle round nodes a modes (sel : list (node * Q))
    edges edges' :
  (forall bd, bd ∈ sel -> heuristic great_circle a bd.1 nodes = Ok bd.2) ->
  for_each (fun edges bd => add_modes round a bd.1 bd.2 modes edges) sel edges
  = Ok edges' ->
  exists new,
    edges' = edges ++ new
    /\ Forall2 (makes great_circle round nodes) new
         (sel ≫= fun bd => (fun m => (a, bd.1, m)) <$> modes).
Proof.
  revert edges. induction sel as [|[b d] sel IH]; intros edges Hd; simpl.
  - intros [= <-]. exists []. by rewrite app_nil_r.
  - destruct (add_modes round a b d modes edges) as [edges1|] eqn:E; [|done].
    apply add_modes_Ok in E as (_ & new1 & -> & H1).
    intros (new & -> & Hnew)%IH; [|intros bd Hbd; apply Hd; by right].
    exists (new1 ++ new). rewrite <- app_assoc. split; [done|].
    apply Forall2_app; [|done].
    apply Forall2_fmap_r. eapply Forall2_impl; [exact H1|].
    intros e m He. exists d. split; [|done]. apply (Hd (b, d)). by left.
Qed.

Lemma selected_Err round a modes (sel : list (node * Q)) edges exn :
  for_each (fun edges bd => add_modes round a bd.1 bd.2 modes edges) sel edges
  = Err exn ->
  exists m, m ∈ modes /\ TRANSPORT_MODES m = None /\ exn = KeyError m.
Proof.
  revert edges. induction sel as [|[b d] sel IH]; intros edges; simpl; [done|].
  destruct (add_modes round a b d modes edges) as [edges1|] eqn:E.
  - apply IH.
  - intros [= <-]. by eapply add_modes_Err.
Qed.

Lemma nearest_row_Ok great_circle round nodes k modes edges a edges' :
  nearest_row great_circle round nodes k modes edges a = Ok edges' ->
  (forall b, b ∈ keys nodes -> b <> a -> measured great_circle nodes a b)
  /\ exists new,
       edges' = edges ++ new
       /\ Forall2 (makes great_circle round nodes) new
            (nearest great_circle nodes k a ≫= fun bd =>
               (fun m => (a, bd.1, m)) <$> modes).
Proof.
  unfold nearest_row.
  destruct (collect _ _) as [neighbors|] eqn:E; [|done].
  apply collect_neighbors_Ok in E as [-> Hm].
  assert (forall b, b ∈ keys nodes -> b <> a -> measured great_circle nodes a b)
    as Hm' by (intros b Hb Hne; apply Hm; by apply list_elem_of_filter).
  intros H. split; [done|].
  apply (selected_Ok great_circle round nodes) in H; [done|].
  intros [b d] Hbd.
  apply (nearest_spec great_circle nodes k a) in Hbd as (Hb & Hne & -> & _).
  simpl. by apply measured_distance, Hm'.
Qed.

Lemma nearest_row_Err great_circle round nodes k modes edges a exn :
  nearest_row great_circle round nodes k modes edges a = Err exn ->
  (exists m, m ∈ modes /\ TRANSPORT_MODES m = None /\ exn = KeyError m)
  \/ (exists b, b ∈ keys nodes /\ b <> a
                /\ heuristic great_circle a b nodes = Err exn).
Proof.
  unfold nearest_row.
  destruct (collect _ _) as [neighbors|exn'] eqn:E.
  - intros H. left. by eapply selected_Err.
  - intros [= <-]. right.
    apply collect_neighbors_Err in E as (b & [Hne Hb]%list_elem_of_filter & H).
    by exists b.
Qed.

Lemma nearest_rows_Ok great_circle round nodes k modes node_list edges edges' :
  for_each (nearest_row great_circle round nodes k modes) node_list edges
  = Ok edges' ->
  (forall a b, a ∈ node_list -> b ∈ keys nodes -> b <> a ->
     measured great_circle nodes a b)
  /\ exists new,
       edges' = edges ++ new
       /\ Forall2 (makes great_circle round nodes) new
            (planned_nearest great_circle nodes k modes node_list).
Proof.
  revert edges. induction node_list as [|a node_list IH]; intros edges.
  - intros [= <-]. split; [by intros a b ?%elem_of_nil|].
    exists []. by rewrite app_nil_r.
  - cbn [for_each].
    destruct (nearest_row great_circle round nodes k modes edges a)
      as [edges1|] eqn:E; [|done].
    apply nearest_row_Ok in E as (Hm1 & new1 & -> & H1).
    intros (Hm & new & -> & Hnew)%IH. split.
    + intros a' b [->|Ha']%elem_of_cons; [apply Hm1 | by apply Hm].
    + exists (new1 ++ new). rewrite <- app_assoc. split; [done|].
      unfold planned_nearest. rewrite bind_cons. by apply Forall2_app.
Qed.

Lemma nearest_rows_Err great_circle round nodes k modes node_list edges exn :
  for_each (nearest_row great_circle round nodes k modes) node_list edges
  = Err exn ->
  (exists m, m ∈ modes /\ TRANSPORT_MODES m = None /\ exn = KeyError m)
  \/ (exists a b, a ∈ node_list /\ b ∈ keys nodes /\ b <> a
                  /\ heuristic great_circle a b nodes = Err exn).
Proof.
  revert edges. induction node_list as [|a node_list IH]; intros edges; [done|].
  cbn [for_each].
  destruct (nearest_row great_circle round nodes k modes edges a)
    as [edges1|exn'] eqn:E.
  - intros [H|(a' & b & Ha' & H)]%IH; [by left|].
    right. exists a', b. split; [by right | done].
  - intros [= <-]. apply nearest_row_Err in E as [H|(b & Hb & Hne & H)];
      [by left|].
    right. exists a, b. split; [by left | done].
Qed.

Lemma elem_of_planned_nearest great_circle nodes k modes node_list a b m :
  (a, b, m) ∈ planned_nearest great_circle nodes k modes node_list
  <-> a ∈ node_list /\ m ∈ modes
      /\ exists d, (b, d) ∈ nearest great_circle nodes k a.
Proof.
  unfold planned_nearest. rewrite list_elem_of_bind. split.
  - intros (a' & H & Ha).
    apply list_elem_of_bind in H as ([b' d] & H & Hbd).
    apply list_elem_of_fmap in H as (m' & [= -> -> ->] & Hm).
    split; [done|]. split; [done|]. by exists d.
  - intros (Ha & Hm & d & Hbd). exists a. split; [|done].
    apply list_elem_of_bind. exists (b, d). split; [|done].
    by apply (list_elem_of_fmap_2 (fun m => (a, b, m))).
Qed.

Lemma length_planned_nearest great_circle nodes k modes node_list :
  NoDup (keys nodes) -> (forall a, a ∈ node_list -> a ∈ keys nodes) ->
  length (planned_nearest great_circle nodes k modes node_list)
  = (length node_list * slice_length k (length (keys nodes) - 1)
     * length modes)%nat.
Proof.
  intros Hnd. unfold planned_nearest.
  induction node_list as [|a node_list IH]; intros Hin; [done|].
  rewrite bind_cons, length_app, IH by (intros x Hx; apply Hin; by right).
  assert (length (nearest great_circle nodes k a
                    ≫= fun bd => (fun m => (a, bd.1, m)) <$> modes)
          = (length (nearest great_circle nodes k a) * length modes)%nat) as ->.
  { induction (nearest great_circle nodes k a) as [|bd l IHl]; [done|].
    rewrite bind_cons, length_app, length_fmap, IHl. simpl. lia. }
  rewrite length_nearest by (done || apply Hin; by left). simpl. lia.
Qed.

(** X25: [build_k_nearest_graph] returns when every mode is a key of
    [TRANSPORT_MODES] and [heuristic] returns for every two nodes of the
    table; when it raises, it raises [KeyError] for a mode that is not such
    a key, or what [heuristic] raised for two nodes.  For a table of n
    distinct nodes the result has, for each node, the edges to the
    [len(neighbors[:k])] nearest other nodes in each mode, that is
    n * min(k, n - 1) * (number of modes) edges for [k >= 0] and
    n * max(0, n - 1 + k) * (number of modes) for [k < 0]; no edge leads
    from a node to itself; and a node that got no edge from a source is at
    least as far from it, by the distances [heuristic] returned, as every
    node that got one. *)
Theorem build_k_nearest_graph_edges (great_circle : formula)
    (round : Q -> Z -> Q) (nodes : table) (k : Z) (modes : list string) :
  ((forall m, m ∈ modes -> is_Some (TRANSPORT_MODES m)) ->
   (forall a b, a ∈ keys nodes -> b ∈ keys nodes -> b <> a ->
      measured great_circle nodes a b) ->
   exists edges,
     build_k_nearest_graph great_circle round nodes k modes = Ok edges)
  /\ (forall exn,
        build_k_nearest_graph great_circle round nodes k modes = Err exn ->
        (exists m, m ∈ modes /\ TRANSPORT_MODES m = None /\ exn = KeyError m)
        \/ (exists a b, a ∈ keys nodes /\ b ∈ keys nodes /\ b <> a
                        /\ heuristic great_circle a b nodes = Err exn))
  /\ forall edges,
       build_k_nearest_graph great_circle round nodes k modes = Ok edges ->
       NoDup (keys nodes) ->
       length edges
       = (length (keys nodes) * slice_length k (length (keys nodes) - 1)
          * length modes)%nat
       /\ forall e, e ∈ edges ->
            makes great_circle round nodes e (source e, target e, mode e)
            /\ source e ∈ keys nodes /\ target e ∈ keys nodes
            /\ source e <> target e /\ mode e ∈ modes
            /\ forall c, c ∈ keys nodes -> c <> source e ->
                 (exists e', e' ∈ edges /\ source e' = source e
                             /\ target e' = c)
                 \/ (exists d d',
                       heuristic great_circle (source e) (target e) nodes
                       = Ok d
                       /\ heuristic great_circle (source e) c nodes = Ok d'
                       /\ (d <= d')%Q).
Proof.
  unfold build_k_nearest_graph. split; [|split].
  - intros Hk Hm. destruct (for_each _ (keys nodes) []) as [edges|exn] eqn:E;
      [by exists edges|].
    apply nearest_rows_Err in E
      as [(m & Hin & Hn & _)|(a & b & Ha & Hb & Hne & Hn)].
    + destruct (Hk m Hin) as [? ?]. congruence.
    + destruct (Hm a b Ha Hb Hne) as [? ?]. congruence.
  - intros exn. apply nearest_rows_Err.
  - intros edges (Hms & new & -> & Hnew)%nearest_rows_Ok Hnd. simpl. split.
    + rewrite (Forall2_length _ _ _ Hnew). by apply length_planned_nearest.
    + intros e He. apply list_elem_of_lookup in He as [i Hi].
      destruct (Forall2_lookup_l _ _ _ _ _ Hnew Hi) as ([[a b] m] & Hp & Hmk).
      apply list_elem_of_lookup_2, elem_of_planned_nearest in Hp
        as (Ha & Hm & d & Hbd).
      pose proof Hmk as (dist & _ & (Hs & Ht & Hmo & _)%make_edge_Ok).
      simpl in Hs, Ht, Hmo. rewrite Hs, Ht, Hmo.
      apply nearest_spec in Hbd as (Hb & Hne & -> & Hnear).
      split; [done|]. split; [done|]. split; [done|]. split; [done|].
      split; [done|]. intros c Hc Hca.
      destruct (Hnear c Hc Hca) as [Hsel|Hle]; [left | right].
      * assert ((a, c, m) ∈ planned_nearest great_circle nodes k modes
                               (keys nodes)) as Hp.
        { apply elem_of_planned_nearest. split; [done|]. split; [done|].
          by eexists. }
        apply list_elem_of_lookup in Hp as [j Hj].
        destruct (Forall2_lookup_r _ _ _ _ _ Hnew Hj)
          as (e' & He' & dist' & _ & Hmk').
        apply make_edge_Ok in Hmk' as (Hs' & Ht' & _). exists e'.
        split; [by eapply list_elem_of_lookup_2 | done].
      * eexists _, _. split; [by apply measured_distance, Hms|].
        split; [by apply measured_distance, Hms | done].
Qed.

(** ** Edges without the key of the metric *)









